(** * Codeforces tag statistics: aggregation, buckets, snapshot codec

    A shallow embedding of the computational core of [cf.js]: the problem
    index, the submission classifier, the tag aggregator, the fail band,
    the difficulty buckets, the intersection engine, the snapshot codec
    and the cache read; and of the pure steps of the views: the choice of
    the difficulty map for a selection, the ordering of its rows, the
    sort modes of the tag table and the escaping of tag names.

    Conventions.
    - A JS number that holds an integer (ratings, counters, timestamps in
      milliseconds) is a [Z]; the embedding is exact on safe integers.
      [null], [undefined] and a missing field are [None].
    - A JS [Map] is an insertion-ordered association list ([JsMap]); a JS
      [Set] is an insertion-ordered duplicate-free list ([JsSet]).
    - A plain object used as a dictionary across the cache boundary is a
      [gmap] with string keys; [Object.entries] is [map_to_list], whose
      order is left unspecified: every statement below is per key.
      Property names are ordinary names: [__proto__], which an assignment
      does not store as an own property, is outside the model.
    - Objects stored in a [Map] and mutated in place are modelled by
      writing the updated record back under the same key, which keeps the
      key's position. *)

From Stdlib Require Import ZArith QArith String Ascii List Lia Bool.
From Stdlib Require Import DecimalString DecimalPos.
From stdpp Require Import base option list sorting strings gmap.

Local Open Scope string_scope.
Local Open Scope list_scope.
Local Open Scope Z_scope.

(** ** JS truthiness on the values the code tests *)

Definition truthyNum (o : option Z) : bool :=
  match o with
  | Some z => negb (z =? 0)
  | None => false
  end.

Definition truthyStr (o : option string) : bool :=
  match o with
  | Some s => negb (String.eqb s "")
  | None => false
  end.

(** [String(n)] for an integer-valued number. *)
Definition Number_toString (z : Z) : string :=
  NilZero.string_of_int (Z.to_int z).

(** ** Insertion-ordered maps and sets *)

Module JsMap.
Section Ops.
Context {K V : Type} `{EqDecision K}.

Fixpoint get (k : K) (m : list (K * V)) : option V :=
  match m with
  | [] => None
  | (k', v) :: m' => if decide (k = k') then Some v else get k m'
  end.

Definition has (k : K) (m : list (K * V)) : bool :=
  match get k m with Some _ => true | None => false end.

(** [m.set(k, v)]: an existing key keeps its position. *)
Fixpoint set (k : K) (v : V) (m : list (K * V)) : list (K * V) :=
  match m with
  | [] => [(k, v)]
  | (k', v') :: m' =>
      if decide (k = k') then (k, v) :: m' else (k', v') :: set k v m'
  end.

Definition keys (m : list (K * V)) : list K := map fst m.
Definition values (m : list (K * V)) : list V := map snd m.

End Ops.
End JsMap.

Module JsSet.
Section Ops.
Context {K : Type} `{EqDecision K}.

Definition has (k : K) (s : list K) : bool := bool_decide (k ∈ s).

Definition add (k : K) (s : list K) : list K :=
  if has k s then s else s ++ [k].

(** [new Set(iterable)] *)
Definition of_list (l : list K) : list K := fold_left (λ s k, add k s) l [].

End Ops.
End JsSet.

(** [Array.prototype.sort(cmp)]: a stable insertion sort; [x] goes before
    [y] when [cmp x y <= 0] and [x] came first. *)
Fixpoint sortInsert {A} (cmp : A → A → Z) (x : A) (l : list A) : list A :=
  match l with
  | [] => [x]
  | y :: l' => if cmp x y <=? 0 then x :: y :: l' else y :: sortInsert cmp x l'
  end.

Definition js_sort {A} (cmp : A → A → Z) (l : list A) : list A :=
  foldr (sortInsert cmp) [] l.

(** ** Input records *)

Record Problem := mkProblem {
  p_contestId : option Z;
  p_problemsetName : option string;
  p_index : string;
  p_tags : option (list string);
  p_rating : option Z;
  p_name : option string
}.

Record Submission := mkSubmission {
  s_problem : option Problem;
  s_verdict : string;
  s_contestId : option Z
}.

(** [p.contestId || p.problemsetName], as rendered inside a template string;
    [None] when both are falsy. *)
Definition contestOrSet (p : Problem) : option string :=
  if truthyNum (p_contestId p) then Number_toString <$> p_contestId p
  else if truthyStr (p_problemsetName p) then p_problemsetName p
  else None.

Definition probKey (p : option Problem) : string :=
  match p with
  | None => "PS-?"
  | Some p =>
      if negb (truthyNum (p_contestId p)) && negb (truthyStr (p_problemsetName p))
      then "PS-" +:+ p_index p
      else default "" (contestOrSet p) +:+ "-" +:+ p_index p
  end.

(** ** Per-problem facts *)

Module Meta.
Record t := mk { tags : list string; rating : option Z; name : string }.
End Meta.

Module Origin.
Record t := mk { contest : bool; practice : bool }.
End Origin.

Module Status.
Record t := mk { solved : bool; failedContest : bool; failedPractice : bool }.
End Status.

(** [p.rating || null] *)
Definition ratingOrNull (r : option Z) : option Z :=
  if truthyNum r then r else None.

(** The object literal stored by the problem index for the catalog entry [p]. *)
Definition metaOf (p : Problem) : Meta.t :=
  {| Meta.tags := default [] (p_tags p);
     Meta.rating := ratingOrNull (p_rating p);
     Meta.name := if truthyStr (p_name p) then default "" (p_name p)
                  else default "PS" (contestOrSet p) +:+ "-" +:+ p_index p |}.

(** First loop of [aggregate]: [perProblemMeta] and [probIndex]. *)
Definition indexStep (acc : list (string * Meta.t) * list (string * bool))
    (p : Problem) : list (string * Meta.t) * list (string * bool) :=
  let key := probKey (Some p) in
  (JsMap.set key (metaOf p) acc.1, JsMap.set key true acc.2).

Definition buildIndex (problems : list Problem)
    : list (string * Meta.t) * list (string * bool) :=
  fold_left indexStep problems ([], []).

(** ** Submission classifier *)

Definition contestFailVerdicts : list string :=
  [ "WRONG_ANSWER"; "TIME_LIMIT_EXCEEDED"; "RUNTIME_ERROR"; "MEMORY_LIMIT_EXCEEDED";
    "IDLENESS_LIMIT_EXCEEDED"; "REJECTED"; "FAILED"; "PRESENTATION_ERROR"; "CHALLENGED";
    "PARTIAL"; "COMPILATION_ERROR"; "CRASHED"; "SKIPPED" ].

Module Classified.
Record t := mk {
  solvedProblems : list string;
  perProblemOrigin : list (string * Origin.t);
  perProblemStatus : list (string * Status.t)
}.
Definition init : t :=
  {| solvedProblems := []; perProblemOrigin := []; perProblemStatus := [] |}.
End Classified.

(** Body of the loop over [submissions] in [aggregate]. The [origin] and
    [status] objects are created on first sight of an indexed problem, also
    when the verdict is then ignored. *)
Definition classifyStep (probIndex : list (string * bool))
    (st : Classified.t) (sub : Submission) : Classified.t :=
  match s_problem sub with
  | None => st
  | Some pr =>
      let key := probKey (Some pr) in
      if negb (JsMap.has key probIndex) then st else
      let origin :=
        default (Origin.mk false false) (JsMap.get key (Classified.perProblemOrigin st)) in
      let status :=
        default (Status.mk false false false) (JsMap.get key (Classified.perProblemStatus st)) in
      let isContest := truthyNum (s_contestId sub) in
      if String.eqb (s_verdict sub) "OK" then
        {| Classified.solvedProblems := JsSet.add key (Classified.solvedProblems st);
           Classified.perProblemOrigin :=
             JsMap.set key
               (if isContest then Origin.mk true (Origin.practice origin)
                else Origin.mk (Origin.contest origin) true)
               (Classified.perProblemOrigin st);
           Classified.perProblemStatus :=
             JsMap.set key
               (Status.mk true (Status.failedContest status) (Status.failedPractice status))
               (Classified.perProblemStatus st) |}
      else
        {| Classified.solvedProblems := Classified.solvedProblems st;
           Classified.perProblemOrigin :=
             JsMap.set key origin (Classified.perProblemOrigin st);
           Classified.perProblemStatus :=
             JsMap.set key
               (if negb (Status.solved status)
                   && JsSet.has (s_verdict sub) contestFailVerdicts
                then if isContest
                     then Status.mk (Status.solved status) true (Status.failedPractice status)
                     else Status.mk (Status.solved status) (Status.failedContest status) true
                else status)
               (Classified.perProblemStatus st) |}
  end.

Definition classify (probIndex : list (string * bool))
    (submissions : list Submission) : Classified.t :=
  fold_left (classifyStep probIndex) submissions Classified.init.

(** [status?.solved], [origin?.contest] and the like, as booleans. *)
Definition optSolved (s : option Status.t) : bool := from_option Status.solved false s.
Definition optFailedContest (s : option Status.t) : bool :=
  from_option Status.failedContest false s.
Definition optFailedPractice (s : option Status.t) : bool :=
  from_option Status.failedPractice false s.
Definition optContest (o : option Origin.t) : bool := from_option Origin.contest false o.
Definition optPractice (o : option Origin.t) : bool := from_option Origin.practice false o.

(** ** Non-integer numbers

    [solvePercent] and [recommendScore] are IEEE doubles. Their arithmetic
    is an interface: the program is parametric in a carrier with the
    operations the source uses. *)

Class Float64 (F : Type) := {
  f_ofZ : Z → F;
  (** the decimal literal [m / 10^e] *)
  f_lit : Z → nat → F;
  f_add : F → F → F;
  f_sub : F → F → F;
  f_mul : F → F → F;
  f_div : F → F → F
}.

(** Exact rationals: an instance to run the program on concrete inputs. *)
#[export] Instance Float64_Q : Float64 Q := {
  f_ofZ := inject_Z;
  f_lit m e := Qmake m (Pos.of_nat (10 ^ e)%nat);
  f_add := Qplus;
  f_sub := Qminus;
  f_mul := Qmult;
  f_div := Qdiv
}.

(** ** Tag statistics *)

Module TagStat.
Record t (F : Type) := mk {
  tag : string;
  solved : Z;
  solvedContest : Z;
  solvedPractice : Z;
  totalAvailable : Z;
  maxSolved : option Z;
  solvePercent : F;
  nextTargetDifficulty : option Z;
  solvedDiffs : list Z;
  recommendScore : F;
  minFailedDifficulty : option Z;
  maxFailedDifficulty : option Z;
  failSpan : option Z
}.
Arguments mk {F}.
Arguments tag {F}.
Arguments solved {F}.
Arguments solvedContest {F}.
Arguments solvedPractice {F}.
Arguments totalAvailable {F}.
Arguments maxSolved {F}.
Arguments solvePercent {F}.
Arguments nextTargetDifficulty {F}.
Arguments solvedDiffs {F}.
Arguments recommendScore {F}.
Arguments minFailedDifficulty {F}.
Arguments maxFailedDifficulty {F}.
Arguments failSpan {F}.
End TagStat.

Module Agg.
Record t (F : Type) := mk {
  tagArray : list (TagStat.t F);
  perTagProblemList : list (string * list string);
  perProblemMeta : list (string * Meta.t);
  solvedProblems : list string;
  perProblemOrigin : list (string * Origin.t);
  tagRatingsAll : list (string * list Z);
  perProblemStatus : list (string * Status.t)
}.
Arguments mk {F}.
Arguments tagArray {F}.
Arguments perTagProblemList {F}.
Arguments perProblemMeta {F}.
Arguments solvedProblems {F}.
Arguments perProblemOrigin {F}.
Arguments tagRatingsAll {F}.
Arguments perProblemStatus {F}.
End Agg.

Module Bucket.
Record t := mk {
  solvedContest : Z;
  solvedPractice : Z;
  failedContest : Z;
  unsolved : Z;
  total : Z
}.
End Bucket.

Section Aggregation.
Context {F : Type} `{Float64 F}.

(** The three maps the tag loop of [aggregate] fills. *)
Record TagAcc := mkTagAcc {
  tagStats : list (string * TagStat.t F);
  acc_tagRatingsAll : list (string * list Z);
  acc_perTagProblemList : list (string * list string)
}.

Definition newStat (tag : string) : TagStat.t F :=
  {| TagStat.tag := tag;
     TagStat.solved := 0;
     TagStat.solvedContest := 0;
     TagStat.solvedPractice := 0;
     TagStat.totalAvailable := 0;
     TagStat.maxSolved := None;
     TagStat.solvePercent := f_ofZ 0;
     TagStat.nextTargetDifficulty := None;
     TagStat.solvedDiffs := [];
     TagStat.recommendScore := f_ofZ 0;
     TagStat.minFailedDifficulty := None;
     TagStat.maxFailedDifficulty := None;
     TagStat.failSpan := None |}.

Definition ensure (tag : string) (m : list (string * TagStat.t F))
    : list (string * TagStat.t F) * TagStat.t F :=
  match JsMap.get tag m with
  | Some s => (m, s)
  | None => let s := newStat tag in (JsMap.set tag s m, s)
  end.

(** The solved branch of the tag loop: [stat.solved++], one of the two
    origin counters, and the running maximum over rated problems. *)
Definition solvedUpdate (origin : option Origin.t) (rating : option Z)
    (stat : TagStat.t F) : TagStat.t F :=
  let sc := if optContest origin then TagStat.solvedContest stat + 1
            else TagStat.solvedContest stat in
  let sp := if optContest origin then TagStat.solvedPractice stat
            else if optPractice origin then TagStat.solvedPractice stat + 1
            else TagStat.solvedPractice stat in
  let diffs :=
    match rating with
    | Some r => if truthyNum rating then JsSet.add r (TagStat.solvedDiffs stat)
                else TagStat.solvedDiffs stat
    | None => TagStat.solvedDiffs stat
    end in
  let mx :=
    match rating with
    | Some r =>
        if truthyNum rating then
          match TagStat.maxSolved stat with
          | None => Some r
          | Some m => if m <? r then Some r else Some m
          end
        else TagStat.maxSolved stat
    | None => TagStat.maxSolved stat
    end in
  {| TagStat.tag := TagStat.tag stat;
     TagStat.solved := TagStat.solved stat + 1;
     TagStat.solvedContest := sc;
     TagStat.solvedPractice := sp;
     TagStat.totalAvailable := TagStat.totalAvailable stat;
     TagStat.maxSolved := mx;
     TagStat.solvePercent := TagStat.solvePercent stat;
     TagStat.nextTargetDifficulty := TagStat.nextTargetDifficulty stat;
     TagStat.solvedDiffs := diffs;
     TagStat.recommendScore := TagStat.recommendScore stat;
     TagStat.minFailedDifficulty := TagStat.minFailedDifficulty stat;
     TagStat.maxFailedDifficulty := TagStat.maxFailedDifficulty stat;
     TagStat.failSpan := TagStat.failSpan stat |}.

Definition incTotalAvailable (stat : TagStat.t F) : TagStat.t F :=
  {| TagStat.tag := TagStat.tag stat;
     TagStat.solved := TagStat.solved stat;
     TagStat.solvedContest := TagStat.solvedContest stat;
     TagStat.solvedPractice := TagStat.solvedPractice stat;
     TagStat.totalAvailable := TagStat.totalAvailable stat + 1;
     TagStat.maxSolved := TagStat.maxSolved stat;
     TagStat.solvePercent := TagStat.solvePercent stat;
     TagStat.nextTargetDifficulty := TagStat.nextTargetDifficulty stat;
     TagStat.solvedDiffs := TagStat.solvedDiffs stat;
     TagStat.recommendScore := TagStat.recommendScore stat;
     TagStat.minFailedDifficulty := TagStat.minFailedDifficulty stat;
     TagStat.maxFailedDifficulty := TagStat.maxFailedDifficulty stat;
     TagStat.failSpan := TagStat.failSpan stat |}.

(** [set.add(rating)] on [tagRatingsAll.get(t)], creating the set first. *)
Definition addRating (t : string) (rating : option Z)
    (m : list (string * list Z)) : list (string * list Z) :=
  match rating with
  | Some r =>
      if truthyNum rating
      then JsMap.set t (JsSet.add r (default [] (JsMap.get t m))) m
      else m
  | None => m
  end.

(** Body of [for (const t of tags)] for the problem [key]. *)
Definition tagStep (key : string) (rating : option Z)
    (status : option Status.t) (origin : option Origin.t)
    (acc : TagAcc) (t : string) : TagAcc :=
  let '(stats, stat) := ensure t (tagStats acc) in
  let stat := incTotalAvailable stat in
  let ptl := acc_perTagProblemList acc in
  let ptl := if JsMap.has t ptl then ptl else JsMap.set t [] ptl in
  let ptl := JsMap.set t (JsSet.add key (default [] (JsMap.get t ptl))) ptl in
  let tra := addRating t rating (acc_tagRatingsAll acc) in
  let stat := if optSolved status then solvedUpdate origin rating stat else stat in
  {| tagStats := JsMap.set t stat stats;
     acc_tagRatingsAll := tra;
     acc_perTagProblemList := ptl |}.

(** Body of [for (const [key, meta] of perProblemMeta.entries())]. *)
Definition problemStep (cls : Classified.t) (acc : TagAcc)
    (entry : string * Meta.t) : TagAcc :=
  let '(key, meta) := entry in
  let status := JsMap.get key (Classified.perProblemStatus cls) in
  let origin := JsMap.get key (Classified.perProblemOrigin cls) in
  fold_left (tagStep key (Meta.rating meta) status origin) (Meta.tags meta) acc.

(** The post-pass over [tagStats.values()]. *)
Definition nextTarget (maxSolved : option Z) (allR : option (list Z))
    (current : option Z) : option Z :=
  match maxSolved, allR with
  | Some m, Some allR =>
      match List.find (λ r, m <? r) (js_sort (λ a b, a - b) allR) with
      | Some r => Some r
      | None => current
      end
  | _, _ => current
  end.

Definition postPass (tra : list (string * list Z)) (stat : TagStat.t F)
    : TagStat.t F :=
  {| TagStat.tag := TagStat.tag stat;
     TagStat.solved := TagStat.solved stat;
     TagStat.solvedContest := TagStat.solvedContest stat;
     TagStat.solvedPractice := TagStat.solvedPractice stat;
     TagStat.totalAvailable := TagStat.totalAvailable stat;
     TagStat.maxSolved := TagStat.maxSolved stat;
     TagStat.solvePercent :=
       if TagStat.totalAvailable stat =? 0 then f_ofZ 0
       else f_div (f_ofZ (TagStat.solved stat)) (f_ofZ (TagStat.totalAvailable stat));
     TagStat.nextTargetDifficulty :=
       nextTarget (TagStat.maxSolved stat) (JsMap.get (TagStat.tag stat) tra)
         (TagStat.nextTargetDifficulty stat);
     TagStat.solvedDiffs := TagStat.solvedDiffs stat;
     TagStat.recommendScore := TagStat.recommendScore stat;
     TagStat.minFailedDifficulty := TagStat.minFailedDifficulty stat;
     TagStat.maxFailedDifficulty := TagStat.maxFailedDifficulty stat;
     TagStat.failSpan := TagStat.failSpan stat |}.

Definition tagLoop (cls : Classified.t) (meta : list (string * Meta.t)) : TagAcc :=
  fold_left (problemStep cls) meta (mkTagAcc [] [] []).

Definition aggregate (submissions : list Submission) (problems : list Problem)
    : Agg.t F :=
  let '(perProblemMeta, probIndex) := buildIndex problems in
  let cls := classify probIndex submissions in
  let acc := tagLoop cls perProblemMeta in
  let stats := map (postPass (acc_tagRatingsAll acc)) (JsMap.values (tagStats acc)) in
  {| Agg.tagArray := js_sort (λ a b, TagStat.solved b - TagStat.solved a) stats;
     Agg.perTagProblemList := acc_perTagProblemList acc;
     Agg.perProblemMeta := perProblemMeta;
     Agg.solvedProblems := Classified.solvedProblems cls;
     Agg.perProblemOrigin := Classified.perProblemOrigin cls;
     Agg.tagRatingsAll := acc_tagRatingsAll acc;
     Agg.perProblemStatus := Classified.perProblemStatus cls |}.

(** ** Recommendation scores *)

Definition RECOMMEND_WEIGHT_COVERAGE_GAP : F := f_lit 55 2.
Definition RECOMMEND_WEIGHT_NEXT_DIFF : F := f_lit 30 2.
Definition RECOMMEND_WEIGHT_SOLVED : F := f_lit 15 2.

(** [Math.max(...xs, 1)] on integers *)
Definition maxWithOne (xs : list Z) : Z := foldr Z.max 1 xs.

Definition scoreOf (maxSolved maxMaxDiff : Z) (t : TagStat.t F) : F :=
  let coverageGap := f_sub (f_ofZ 1) (TagStat.solvePercent t) in
  let diffDelta :=
    match TagStat.nextTargetDifficulty t with
    | Some n => n - default 0 (TagStat.maxSolved t)
    | None => 500
    end in
  let normNext := f_div (f_ofZ 1) (f_add (f_ofZ 1) (f_div (f_ofZ diffDelta) (f_ofZ 300))) in
  let normSolved := f_div (f_ofZ (TagStat.solved t)) (f_ofZ maxSolved) in
  let normMax := f_div (f_ofZ (default 0 (TagStat.maxSolved t))) (f_ofZ maxMaxDiff) in
  f_add
    (f_add (f_mul RECOMMEND_WEIGHT_COVERAGE_GAP coverageGap)
           (f_mul RECOMMEND_WEIGHT_NEXT_DIFF normNext))
    (f_mul RECOMMEND_WEIGHT_SOLVED
           (f_add (f_mul (f_lit 5 1) normSolved) (f_mul (f_lit 5 1) normMax))).

Definition setRecommendScore (x : F) (stat : TagStat.t F) : TagStat.t F :=
  {| TagStat.tag := TagStat.tag stat;
     TagStat.solved := TagStat.solved stat;
     TagStat.solvedContest := TagStat.solvedContest stat;
     TagStat.solvedPractice := TagStat.solvedPractice stat;
     TagStat.totalAvailable := TagStat.totalAvailable stat;
     TagStat.maxSolved := TagStat.maxSolved stat;
     TagStat.solvePercent := TagStat.solvePercent stat;
     TagStat.nextTargetDifficulty := TagStat.nextTargetDifficulty stat;
     TagStat.solvedDiffs := TagStat.solvedDiffs stat;
     TagStat.recommendScore := x;
     TagStat.minFailedDifficulty := TagStat.minFailedDifficulty stat;
     TagStat.maxFailedDifficulty := TagStat.maxFailedDifficulty stat;
     TagStat.failSpan := TagStat.failSpan stat |}.

Definition computeRecommendationScores (tags : list (TagStat.t F))
    : list (TagStat.t F) :=
  match tags with
  | [] => tags
  | _ =>
      let maxSolved := maxWithOne (map TagStat.solved tags) in
      let maxMaxDiff := maxWithOne (map (λ t, default 0 (TagStat.maxSolved t)) tags) in
      map (λ t, setRecommendScore (scoreOf maxSolved maxMaxDiff t) t) tags
  end.

(** ** Fail band *)

(** Body of [for (const key of set)] in [computeFailedDifficultyBand]. *)
Definition bandStep (perProblemMeta : list (string * Meta.t))
    (perProblemStatus : list (string * Status.t))
    (acc : option Z * option Z) (key : string) : option Z * option Z :=
  match JsMap.get key perProblemMeta, JsMap.get key perProblemStatus with
  | Some meta, Some status =>
      match Meta.rating meta with
      | Some r =>
          if negb (Status.solved status) && Status.failedContest status
             && truthyNum (Meta.rating meta)
          then
            (match acc.1 with
             | None => Some r
             | Some mn => if r <? mn then Some r else Some mn
             end,
             match acc.2 with
             | None => Some r
             | Some mx => if mx <? r then Some r else Some mx
             end)
          else acc
      | None => acc
      end
  | _, _ => acc
  end.

Definition setFailBand (band : option Z * option Z) (stat : TagStat.t F)
    : TagStat.t F :=
  {| TagStat.tag := TagStat.tag stat;
     TagStat.solved := TagStat.solved stat;
     TagStat.solvedContest := TagStat.solvedContest stat;
     TagStat.solvedPractice := TagStat.solvedPractice stat;
     TagStat.totalAvailable := TagStat.totalAvailable stat;
     TagStat.maxSolved := TagStat.maxSolved stat;
     TagStat.solvePercent := TagStat.solvePercent stat;
     TagStat.nextTargetDifficulty := TagStat.nextTargetDifficulty stat;
     TagStat.solvedDiffs := TagStat.solvedDiffs stat;
     TagStat.recommendScore := TagStat.recommendScore stat;
     TagStat.minFailedDifficulty := band.1;
     TagStat.maxFailedDifficulty := band.2;
     TagStat.failSpan :=
       match band.1, band.2 with
       | Some mn, Some mx => Some (mx - mn)
       | _, _ => None
       end |}.

Definition failBandOf (agg : Agg.t F) (stat : TagStat.t F) : TagStat.t F :=
  match JsMap.get (TagStat.tag stat) (Agg.perTagProblemList agg) with
  | None => stat
  | Some set =>
      setFailBand
        (fold_left (bandStep (Agg.perProblemMeta agg) (Agg.perProblemStatus agg))
           set (None, None))
        stat
  end.

Definition computeFailedDifficultyBand (agg : Agg.t F) : Agg.t F :=
  {| Agg.tagArray := map (failBandOf agg) (Agg.tagArray agg);
     Agg.perTagProblemList := Agg.perTagProblemList agg;
     Agg.perProblemMeta := Agg.perProblemMeta agg;
     Agg.solvedProblems := Agg.solvedProblems agg;
     Agg.perProblemOrigin := Agg.perProblemOrigin agg;
     Agg.tagRatingsAll := Agg.tagRatingsAll agg;
     Agg.perProblemStatus := Agg.perProblemStatus agg |}.

(** ** Difficulty buckets *)

Definition emptyBucket : Bucket.t := Bucket.mk 0 0 0 0 0.

(** [b.total++] and then exactly one of the four category counters. *)
Definition countInto (status : option Status.t) (origin : option Origin.t)
    (b : Bucket.t) : Bucket.t :=
  let b := Bucket.mk (Bucket.solvedContest b) (Bucket.solvedPractice b)
             (Bucket.failedContest b) (Bucket.unsolved b) (Bucket.total b + 1) in
  if optSolved status then
    if optContest origin
    then Bucket.mk (Bucket.solvedContest b + 1) (Bucket.solvedPractice b)
           (Bucket.failedContest b) (Bucket.unsolved b) (Bucket.total b)
    else Bucket.mk (Bucket.solvedContest b) (Bucket.solvedPractice b + 1)
           (Bucket.failedContest b) (Bucket.unsolved b) (Bucket.total b)
  else
    if optFailedContest status
    then Bucket.mk (Bucket.solvedContest b) (Bucket.solvedPractice b)
           (Bucket.failedContest b + 1) (Bucket.unsolved b) (Bucket.total b)
    else Bucket.mk (Bucket.solvedContest b) (Bucket.solvedPractice b)
           (Bucket.failedContest b) (Bucket.unsolved b + 1) (Bucket.total b).

(** Body of [for (const key of set)] in [buildAllTagDifficultyBuckets]. *)
Definition tagBucketStep (agg : Agg.t F) (diffMap : list (Z * Bucket.t))
    (key : string) : list (Z * Bucket.t) :=
  match JsMap.get key (Agg.perProblemMeta agg) with
  | None => diffMap
  | Some meta =>
      let rating := default 0 (ratingOrNull (Meta.rating meta)) in
      let b := default emptyBucket (JsMap.get rating diffMap) in
      JsMap.set rating
        (countInto (JsMap.get key (Agg.perProblemStatus agg))
                   (JsMap.get key (Agg.perProblemOrigin agg)) b)
        diffMap
  end.

Definition tagDiffMap (agg : Agg.t F) (set : list string) : list (Z * Bucket.t) :=
  fold_left (tagBucketStep agg) set [].

Definition buildAllTagDifficultyBuckets (agg : Agg.t F)
    : list (string * list (Z * Bucket.t)) :=
  fold_left
    (λ m stat,
       match JsMap.get (TagStat.tag stat) (Agg.perTagProblemList agg) with
       | None => m
       | Some set => JsMap.set (TagStat.tag stat) (tagDiffMap agg set) m
       end)
    (Agg.tagArray agg) [].

(** ** Intersection engine *)

(** The loop over [tags] in [buildIntersectionBuckets]; [inter] is [None]
    while it is still [null]. Returning without recursion is [break]. *)
Fixpoint intersectLoop (perTagProblemList : list (string * list string))
    (tags : list string) (inter : option (list string)) : option (list string) :=
  match tags with
  | [] => inter
  | t :: rest =>
      match JsMap.get t perTagProblemList with
      | None => Some []
      | Some set =>
          let inter' :=
            match inter with
            | None => JsSet.of_list set
            | Some cur => List.filter (λ val, JsSet.has val set) cur
            end in
          if (length inter' =? 0)%nat then Some inter'
          else intersectLoop perTagProblemList rest (Some inter')
      end
  end.

(** Body of [for (const key of inter)] in [buildIntersectionBuckets]. *)
Definition interBucketStep (agg : Agg.t F) (diffMap : list (Z * Bucket.t))
    (key : string) : list (Z * Bucket.t) :=
  match JsMap.get key (Agg.perProblemMeta agg) with
  | None => diffMap
  | Some meta =>
      let rating := if truthyNum (Meta.rating meta)
                    then default 0 (Meta.rating meta) else 0 in
      let b := match JsMap.get rating diffMap with
               | Some b => b
               | None => Bucket.mk 0 0 0 0 0
               end in
      let total := Bucket.total b + 1 in
      let status := JsMap.get key (Agg.perProblemStatus agg) in
      let origin := JsMap.get key (Agg.perProblemOrigin agg) in
      let b' :=
        if optSolved status then
          if optContest origin
          then Bucket.mk (Bucket.solvedContest b + 1) (Bucket.solvedPractice b)
                 (Bucket.failedContest b) (Bucket.unsolved b) total
          else Bucket.mk (Bucket.solvedContest b) (Bucket.solvedPractice b + 1)
                 (Bucket.failedContest b) (Bucket.unsolved b) total
        else
          if optFailedContest status
          then Bucket.mk (Bucket.solvedContest b) (Bucket.solvedPractice b)
                 (Bucket.failedContest b + 1) (Bucket.unsolved b) total
          else Bucket.mk (Bucket.solvedContest b) (Bucket.solvedPractice b)
                 (Bucket.failedContest b) (Bucket.unsolved b + 1) total in
      JsMap.set rating b' diffMap
  end.

Definition buildIntersectionBuckets (tags : list string) (agg : Agg.t F)
    : list (Z * Bucket.t) :=
  match intersectLoop (Agg.perTagProblemList agg) tags None with
  | None => []
  | Some inter =>
      if (length inter =? 0)%nat then []
      else fold_left (interBucketStep agg) inter []
  end.

End Aggregation.

(** ** Snapshot *)

Definition SNAPSHOT_SCHEMA_VERSION : Z := 2.
Definition CACHE_TTL_HOURS : Z := 6.

Module SnapProblem.
Record t := mk {
  rating : option Z;
  name : string;
  tags : list string;
  solved : bool;
  contest : bool;
  practice : bool;
  failedContest : bool;
  failedPractice : bool
}.
End SnapProblem.

Module SnapTag.
Record t (F : Type) := mk {
  totalAvailable : Z;
  solved : Z;
  solvedContest : Z;
  solvedPractice : Z;
  solvePercent : F;
  maxSolved : option Z;
  nextTargetDifficulty : option Z;
  minFailedDifficulty : option Z;
  maxFailedDifficulty : option Z;
  failSpan : option Z;
  recommendScore : F;
  difficultyBuckets : gmap string Bucket.t
}.
Arguments mk {F}.
Arguments totalAvailable {F}.
Arguments solved {F}.
Arguments solvedContest {F}.
Arguments solvedPractice {F}.
Arguments solvePercent {F}.
Arguments maxSolved {F}.
Arguments nextTargetDifficulty {F}.
Arguments minFailedDifficulty {F}.
Arguments maxFailedDifficulty {F}.
Arguments failSpan {F}.
Arguments recommendScore {F}.
Arguments difficultyBuckets {F}.
End SnapTag.

Module Snapshot.
Record t (F : Type) := mk {
  schemaVersion : Z;
  generatedAt : string;
  handle : string;
  userStatusCount : Z;
  problemsetCount : Z;
  problems : gmap string SnapProblem.t;
  tags : gmap string (SnapTag.t F);
  tagProblemKeys : option (gmap string (list string));
  cacheTTLHours : Z
}.
Arguments mk {F}.
Arguments schemaVersion {F}.
Arguments generatedAt {F}.
Arguments handle {F}.
Arguments userStatusCount {F}.
Arguments problemsetCount {F}.
Arguments problems {F}.
Arguments tags {F}.
Arguments tagProblemKeys {F}.
Arguments cacheTTLHours {F}.
End Snapshot.

Section Codec.
Context {F : Type} `{Float64 F}.

(** The entry written to [problems[key]] by [buildSnapshot]. *)
Definition snapProblemOf (agg : Agg.t F) (key : string) (meta : Meta.t)
    : SnapProblem.t :=
  let status := JsMap.get key (Agg.perProblemStatus agg) in
  let origin := JsMap.get key (Agg.perProblemOrigin agg) in
  {| SnapProblem.rating := Meta.rating meta;
     SnapProblem.name := Meta.name meta;
     SnapProblem.tags := Meta.tags meta;
     SnapProblem.solved := optSolved status;
     SnapProblem.contest := optContest origin && optSolved status;
     SnapProblem.practice := optPractice origin && optSolved status;
     SnapProblem.failedContest := optFailedContest status && negb (optSolved status);
     SnapProblem.failedPractice := optFailedPractice status && negb (optSolved status) |}.

(** [bucketObj[diff] = {...}] for every entry of the tag's [diffMap]; the
    property name is the rating converted to a string. *)
Definition bucketObjOf (diffBuckets : list (Z * Bucket.t)) : gmap string Bucket.t :=
  fold_left
    (λ obj e,
       <[Number_toString e.1 :=
           Bucket.mk (Bucket.solvedContest e.2) (Bucket.solvedPractice e.2)
             (Bucket.failedContest e.2) (Bucket.unsolved e.2) (Bucket.total e.2)]> obj)
    diffBuckets ∅.

Definition snapTagOf (tagDifficultyBuckets : list (string * list (Z * Bucket.t)))
    (stat : TagStat.t F) : SnapTag.t F :=
  let diffBuckets := default [] (JsMap.get (TagStat.tag stat) tagDifficultyBuckets) in
  {| SnapTag.totalAvailable := TagStat.totalAvailable stat;
     SnapTag.solved := TagStat.solved stat;
     SnapTag.solvedContest := TagStat.solvedContest stat;
     SnapTag.solvedPractice := TagStat.solvedPractice stat;
     SnapTag.solvePercent := TagStat.solvePercent stat;
     SnapTag.maxSolved := TagStat.maxSolved stat;
     SnapTag.nextTargetDifficulty := TagStat.nextTargetDifficulty stat;
     SnapTag.minFailedDifficulty := TagStat.minFailedDifficulty stat;
     SnapTag.maxFailedDifficulty := TagStat.maxFailedDifficulty stat;
     SnapTag.failSpan := TagStat.failSpan stat;
     SnapTag.recommendScore := TagStat.recommendScore stat;
     SnapTag.difficultyBuckets := bucketObjOf diffBuckets |}.

Definition buildSnapshot (now : string) (handle : string)
    (submissions : list Submission) (problems : list Problem)
    (agg : Agg.t F) (tagDifficultyBuckets : list (string * list (Z * Bucket.t)))
    : Snapshot.t F :=
  {| Snapshot.schemaVersion := SNAPSHOT_SCHEMA_VERSION;
     Snapshot.generatedAt := now;
     Snapshot.handle := handle;
     Snapshot.userStatusCount := Z.of_nat (length submissions);
     Snapshot.problemsetCount := Z.of_nat (length problems);
     Snapshot.problems :=
       fold_left (λ obj e, <[e.1 := snapProblemOf agg e.1 e.2]> obj)
         (Agg.perProblemMeta agg) ∅;
     Snapshot.tags :=
       fold_left (λ obj stat, <[TagStat.tag stat := snapTagOf tagDifficultyBuckets stat]> obj)
         (Agg.tagArray agg) ∅;
     Snapshot.tagProblemKeys := None;
     Snapshot.cacheTTLHours := CACHE_TTL_HOURS |}.

(** The computation of [fetchAndBuildSnapshot] once both fetches returned:
    the aggregate handed to [buildSnapshot] and the snapshot with
    [tagProblemKeys] filled in. *)
Definition freshAggregate (submissions : list Submission) (problems : list Problem)
    : Agg.t F :=
  let agg := aggregate submissions problems in
  let agg :=
    {| Agg.tagArray := computeRecommendationScores (Agg.tagArray agg);
       Agg.perTagProblemList := Agg.perTagProblemList agg;
       Agg.perProblemMeta := Agg.perProblemMeta agg;
       Agg.solvedProblems := Agg.solvedProblems agg;
       Agg.perProblemOrigin := Agg.perProblemOrigin agg;
       Agg.tagRatingsAll := Agg.tagRatingsAll agg;
       Agg.perProblemStatus := Agg.perProblemStatus agg |} in
  computeFailedDifficultyBand agg.

Definition withTagProblemKeys (agg : Agg.t F) (snap : Snapshot.t F) : Snapshot.t F :=
  {| Snapshot.schemaVersion := Snapshot.schemaVersion snap;
     Snapshot.generatedAt := Snapshot.generatedAt snap;
     Snapshot.handle := Snapshot.handle snap;
     Snapshot.userStatusCount := Snapshot.userStatusCount snap;
     Snapshot.problemsetCount := Snapshot.problemsetCount snap;
     Snapshot.problems := Snapshot.problems snap;
     Snapshot.tags := Snapshot.tags snap;
     Snapshot.tagProblemKeys :=
       Some (fold_left (λ obj e, <[e.1 := e.2]> obj) (Agg.perTagProblemList agg) ∅);
     Snapshot.cacheTTLHours := Snapshot.cacheTTLHours snap |}.

Definition serialize (now : string) (handle : string)
    (submissions : list Submission) (problems : list Problem) (agg : Agg.t F)
    : Snapshot.t F :=
  withTagProblemKeys agg
    (buildSnapshot now handle submissions problems agg
       (buildAllTagDifficultyBuckets agg)).

Definition fetchAndBuildSnapshot (now : string) (handle : string)
    (submissions : list Submission) (problems : list Problem) : Snapshot.t F :=
  serialize now handle submissions problems (freshAggregate submissions problems).

(** The rehydration at the head of [renderFromSnapshot]. A rehydrated
    [TagStat] has no [solvedDiffs]; the field is left empty. *)
Definition tagStatOfSnap (tag : string) (tObj : SnapTag.t F) : TagStat.t F :=
  {| TagStat.tag := tag;
     TagStat.solved := SnapTag.solved tObj;
     TagStat.solvedContest := SnapTag.solvedContest tObj;
     TagStat.solvedPractice := SnapTag.solvedPractice tObj;
     TagStat.totalAvailable := SnapTag.totalAvailable tObj;
     TagStat.maxSolved := SnapTag.maxSolved tObj;
     TagStat.solvePercent := SnapTag.solvePercent tObj;
     TagStat.nextTargetDifficulty := SnapTag.nextTargetDifficulty tObj;
     TagStat.solvedDiffs := [];
     TagStat.recommendScore := SnapTag.recommendScore tObj;
     TagStat.minFailedDifficulty := SnapTag.minFailedDifficulty tObj;
     TagStat.maxFailedDifficulty := SnapTag.maxFailedDifficulty tObj;
     TagStat.failSpan := SnapTag.failSpan tObj |}.

Definition rehydrate (snapshot : Snapshot.t F) : Agg.t F :=
  let entries := map_to_list (Snapshot.problems snapshot) in
  {| Agg.tagArray :=
       map (λ e, tagStatOfSnap e.1 e.2) (map_to_list (Snapshot.tags snapshot));
     Agg.perTagProblemList :=
       match Snapshot.tagProblemKeys snapshot with
       | None => []
       | Some tpk =>
           fold_left (λ m e, JsMap.set e.1 (JsSet.of_list e.2) m) (map_to_list tpk) []
       end;
     Agg.perProblemMeta :=
       fold_left
         (λ m e, JsMap.set e.1
                   (Meta.mk (SnapProblem.tags e.2) (SnapProblem.rating e.2)
                      (SnapProblem.name e.2)) m)
         entries [];
     Agg.solvedProblems :=
       fold_left (λ s e, if SnapProblem.solved e.2 then JsSet.add e.1 s else s) entries [];
     Agg.perProblemOrigin :=
       fold_left
         (λ m e, JsMap.set e.1
                   (Origin.mk (SnapProblem.contest e.2) (SnapProblem.practice e.2)) m)
         entries [];
     Agg.tagRatingsAll := [];
     Agg.perProblemStatus :=
       fold_left
         (λ m e, JsMap.set e.1
                   (Status.mk (SnapProblem.solved e.2) (SnapProblem.failedContest e.2)
                      (SnapProblem.failedPractice e.2)) m)
         entries [] |}.

End Codec.

(** ** Reading a bucket object back *)

Definition isDigit (c : ascii) : bool :=
  let n := N_of_ascii c in ((48 <=? n) && (n <=? 57))%N.

Definition digitVal (c : ascii) : Z := Z.of_N (N_of_ascii c) - 48.

(** Leading white space skipped by [parseInt] (the ASCII part of it). *)
Definition isSpace (c : ascii) : bool :=
  let n := N_of_ascii c in ((n =? 32) || ((9 <=? n) && (n <=? 13)))%N.

Fixpoint skipSpaces (s : string) : string :=
  match s with
  | String c s' => if isSpace c then skipSpaces s' else s
  | EmptyString => s
  end.

(** The value of the longest prefix of decimal digits; [acc] is [None]
    until a digit has been read. *)
Fixpoint parseDigits (s : string) (acc : option Z) : option Z :=
  match s with
  | String c s' =>
      if isDigit c then parseDigits s' (Some (10 * default 0 acc + digitVal c))
      else acc
  | EmptyString => acc
  end.

(** [parseInt(s, 10)]; [None] is [NaN]. *)
Definition parseInt10 (s : string) : option Z :=
  match skipSpaces s with
  | String "-" s' => Z.opp <$> parseDigits s' None
  | String "+" s' => parseDigits s' None
  | s' => parseDigits s' None
  end.

(** [diff === "0" ? 0 : parseInt(diff, 10)] *)
Definition bucketKeyOf (diff : string) : option Z :=
  if String.eqb diff "0" then Some 0 else parseInt10 diff.

(** [rebuildDiffMapFromSnapshot]: the keys of the rebuilt [Map] are numbers,
    [None] standing for the key [NaN]. *)
Definition rebuildDiffMapFromSnapshot (bucketsObj : gmap string Bucket.t)
    : list (option Z * Bucket.t) :=
  fold_left
    (λ diffMap e,
       JsMap.set (bucketKeyOf e.1)
         (Bucket.mk (Bucket.solvedContest e.2) (Bucket.solvedPractice e.2)
            (Bucket.failedContest e.2) (Bucket.unsolved e.2) (Bucket.total e.2))
         diffMap)
    (map_to_list bucketsObj) [].

(** ** Cache read *)

(** A value produced by [JSON.parse]. *)
#[local] Unset Elimination Schemes.
Inductive JsValue :=
| JNull
| JBool (b : bool)
| JNum (q : Q)
| JStr (s : string)
| JArr (items : list JsValue)
| JObj (fields : list (string * JsValue)).
#[local] Set Elimination Schemes.

(** The outcome of evaluating a piece of code that may throw. *)
Inductive Completion (A : Type) :=
| Normal (a : A)
| Throw.
Arguments Normal {A}.
Arguments Throw {A}.

(** [obj.name]: [undefined] is [None]; reading a property of [null] throws. *)
Definition getProp (obj : JsValue) (name : string) : Completion (option JsValue) :=
  match obj with
  | JNull => Throw
  | JObj fields => Normal (JsMap.get name fields)
  | _ => Normal None
  end.

(** [v !== 2] *)
Definition notStrictEq2 (v : option JsValue) : bool :=
  match v with
  | Some (JNum q) => negb (Qeq_bool q 2)
  | _ => true
  end.

(** [TimeClip] of a number: truncation towards zero, [NaN] beyond the range
    of a Date. *)
Definition timeClip (q : Q) : option Z :=
  let t := Z.quot (Qnum q) (Zpos (Qden q)) in
  if Z.abs t <=? 8640000000000000 then Some t else None.

(** [a > b] where [a] may be [NaN] *)
Definition gtNumber (a : option Z) (b : Z) : bool :=
  match a with
  | Some a => b <? a
  | None => false
  end.

Section Cache.
(** The platform: [JSON.parse] ([None] when it throws), [Date.parse] on
    strings and the time value of a Date made from an array or an object
    ([None] is [NaN]). *)
Variable JSON_parse : string → option JsValue.
Variable Date_parse : string → option Z.
Variable Date_ofObject : JsValue → option Z.

(** [new Date(v).getTime()] *)
Definition dateGetTime (v : option JsValue) : option Z :=
  match v with
  | None => None
  | Some JNull => Some 0
  | Some (JBool b) => Some (if b then 1 else 0)
  | Some (JNum q) => timeClip q
  | Some (JStr s) => Date_parse s
  | Some v => Date_ofObject v
  end.

(** The body of the [try] block of [loadSnapshot]. [storage] is
    [localStorage.getItem], [now] is [Date.now()]. *)
Definition loadSnapshotTry (storage : string → option string) (now : Z)
    (key : string) : Completion (option JsValue) :=
  match storage key with
  | None => Normal None
  | Some raw =>
      if String.eqb raw "" then Normal None else
      match JSON_parse raw with
      | None => Throw
      | Some obj =>
          match getProp obj "schemaVersion" with
          | Throw => Throw
          | Normal sv =>
              if notStrictEq2 sv then Normal None else
              match getProp obj "generatedAt" with
              | Throw => Throw
              | Normal ga =>
                  let ageMs := (λ t, now - t) <$> dateGetTime ga in
                  if gtNumber ageMs (CACHE_TTL_HOURS * 3600 * 1000)
                  then Normal None
                  else Normal (Some obj)
              end
          end
      end
  end.

(** [try { ... } catch { return null; }] *)
Definition loadSnapshot (storage : string → option string) (now : Z)
    (key : string) : option JsValue :=
  match loadSnapshotTry storage now key with
  | Normal r => r
  | Throw => None
  end.

End Cache.

(** ** Observations used in the statements *)

(** What a submission means for the problem [key] under the index. *)
Definition touches (probIndex : list (string * bool)) (key : string)
    (sub : Submission) : bool :=
  match s_problem sub with
  | Some pr => bool_decide (probKey (Some pr) = key) && JsMap.has key probIndex
  | None => false
  end.

Definition isAccepted (sub : Submission) : bool := String.eqb (s_verdict sub) "OK".
Definition isContest (sub : Submission) : bool := truthyNum (s_contestId sub).
Definition isFailure (sub : Submission) : bool :=
  negb (isAccepted sub) && JsSet.has (s_verdict sub) contestFailVerdicts.

(** The per-problem flags of a classifier state, read the way the consumers
    read them ([status?.solved], [origin?.contest], ...). *)
Definition solvedAt (st : Classified.t) (key : string) : bool :=
  optSolved (JsMap.get key (Classified.perProblemStatus st)).
Definition failedContestAt (st : Classified.t) (key : string) : bool :=
  optFailedContest (JsMap.get key (Classified.perProblemStatus st)).
Definition failedPracticeAt (st : Classified.t) (key : string) : bool :=
  optFailedPractice (JsMap.get key (Classified.perProblemStatus st)).
Definition contestAt (st : Classified.t) (key : string) : bool :=
  optContest (JsMap.get key (Classified.perProblemOrigin st)).
Definition practiceAt (st : Classified.t) (key : string) : bool :=
  optPractice (JsMap.get key (Classified.perProblemOrigin st)).

(** ** The tag loop as one fold

    The two nested loops of the tag aggregator visit the pairs (problem,
    tag) in catalog order; [workItems] lists them and [workStep] is the
    loop body at one pair. *)

Section TagLoopView.
Context {F : Type} `{Float64 F}.

Definition workItems (meta : list (string * Meta.t))
    : list (string * Meta.t * string) :=
  flat_map (λ e, map (λ t, (e.1, e.2, t)) (Meta.tags e.2)) meta.

Definition workStep (cls : Classified.t) (acc : TagAcc (F:=F))
    (w : string * Meta.t * string) : TagAcc (F:=F) :=
  tagStep w.1.1 (Meta.rating w.1.2)
    (JsMap.get w.1.1 (Classified.perProblemStatus cls))
    (JsMap.get w.1.1 (Classified.perProblemOrigin cls)) acc w.2.

(** What the tag loop does to the [stat] of the current tag. *)
Definition statUpdate (rating : option Z) (status : option Status.t)
    (origin : option Origin.t) (stat : TagStat.t F) : TagStat.t F :=
  if optSolved status then solvedUpdate origin rating (incTotalAvailable stat)
  else incTotalAvailable stat.

(** The keys of the pairs that carry the tag [t], in order, one per pair. *)
Definition occurrences (t : string) (l : list (string * Meta.t * string))
    : list string :=
  map (λ w, w.1.1) (List.filter (λ w, bool_decide (w.2 = t)) l).

(** The ratings of the rated problems among the pairs that carry [t]. *)
Definition ratedRatings (t : string) (l : list (string * Meta.t * string))
    : list Z :=
  omap (λ w, if bool_decide (w.2 = t) && truthyNum (Meta.rating w.1.2)
             then Meta.rating w.1.2 else None) l.

(** The tag loop run over a list of pairs. *)
Definition runWork (cls : Classified.t) (l : list (string * Meta.t * string))
    : TagAcc (F:=F) :=
  fold_left (workStep cls) l (mkTagAcc [] [] []).

(** The [stat] of tag [t] in an accumulator, fresh when there is none. *)
Definition statAt (acc : TagAcc (F:=F)) (t : string) : TagStat.t F :=
  default (newStat t) (JsMap.get t (tagStats acc)).

(** Every solved problem of a classifier state has an origin. *)
Definition solvedHaveOrigin (cls : Classified.t) : Prop :=
  ∀ key, solvedAt cls key = true → contestAt cls key || practiceAt cls key = true.

(** The accumulator of the tag loop inside [aggregate]. *)
Definition aggregateAcc (subs : list Submission) (ps : list Problem)
    : TagAcc (F:=F) :=
  runWork (classify (buildIndex ps).2 subs) (workItems (buildIndex ps).1).

(** [r] is the rating of a rated problem of the catalog that carries [t]. *)
Definition ratedIn (agg : Agg.t F) (t : string) (r : Z) : Prop :=
  ∃ key m, JsMap.get key (Agg.perProblemMeta agg) = Some m
           ∧ t ∈ Meta.tags m ∧ Meta.rating m = Some r.

End TagLoopView.

(** ** Observations on buckets *)

(** The sum of [total] over the buckets of a difficulty map. *)
Definition sumTotals (diffMap : list (Z * Bucket.t)) : Z :=
  foldr (λ e acc, Bucket.total e.2 + acc) 0 diffMap.

(** No catalog problem lists a tag twice. *)
Definition tagsDistinct (ps : list Problem) : bool :=
  forallb (λ p, bool_decide (NoDup (default [] (p_tags p)))) ps.

(** ** Observations on tag statistics *)

(** The tag of a statistic followed by its numeric fields, in the order of
    the snapshot. *)
Definition numericFields {F} (stat : TagStat.t F) :=
  (TagStat.tag stat,
   (TagStat.totalAvailable stat, TagStat.solved stat,
    TagStat.solvedContest stat, TagStat.solvedPractice stat,
    TagStat.solvePercent stat, TagStat.maxSolved stat,
    TagStat.nextTargetDifficulty stat, TagStat.minFailedDifficulty stat,
    TagStat.maxFailedDifficulty stat, TagStat.failSpan stat,
    TagStat.recommendScore stat)).

(** The bucket a stored problem is counted in: its rating, 0 when it has
    none. [None] when the key has no entry in [perProblemMeta]. *)
Definition bucketOf {F} (agg : Agg.t F) (key : string) : option Z :=
  (λ m, default 0 (ratingOrNull (Meta.rating m)))
    <$> JsMap.get key (Agg.perProblemMeta agg).

(** The failure verdicts as the specification lists them (twelve names),
    to be compared with [contestFailVerdicts]. *)
Definition spec_failureVerdicts : list string :=
  [ "WRONG_ANSWER"; "TIME_LIMIT_EXCEEDED"; "MEMORY_LIMIT_EXCEEDED";
    "IDLENESS_LIMIT_EXCEEDED"; "REJECTED"; "FAILED"; "PRESENTATION_ERROR";
    "CHALLENGED"; "PARTIAL"; "COMPILATION_ERROR"; "CRASHED"; "SKIPPED" ].

(** ** Sample inputs *)

Module Sample.
Definition pA : Problem :=
  mkProblem (Some 1) None "A" (Some ["dp"]) (Some 1500) (Some "Alpha").
Definition pB : Problem :=
  mkProblem (Some 1) None "B" (Some ["dp"; "math"]) (Some 1800) None.
Definition pC : Problem :=
  mkProblem None (Some "acmsguru") "100" (Some ["math"]) None (Some "Gamma").
Definition catalog : list Problem := [pA; pB; pC].

Definition sub (p : Problem) (verdict : string) (contestId : option Z) : Submission :=
  mkSubmission (Some p) verdict contestId.

Definition failThenSolve : list Submission :=
  [sub pA "WRONG_ANSWER" (Some 1); sub pA "OK" (Some 1)].
Definition solveThenFail : list Submission :=
  [sub pA "OK" (Some 1); sub pA "WRONG_ANSWER" (Some 1)].

(** A catalog entry that lists the same tag twice. *)
Definition repeatedTag : list Problem :=
  [mkProblem (Some 7) None "A" (Some ["dp"; "dp"]) (Some 1200) None].

(** The catalog of the two scenarios of the specification. *)
Definition pA1 : Problem :=
  mkProblem None (Some "A") "1" (Some ["dp"]) (Some 1500) None.

(** A problem without a rating that matters: the catalog says [0]. *)
Definition pZero : Problem :=
  mkProblem (Some 2) None "C" (Some ["dp"]) (Some 0) (Some "Zero").

(** A stand-in for the platform: one stored text that parses to an object
    with the current schema version and no [generatedAt], one that parses
    to a dated object; everything else is a syntax error. Dates are
    written as their time value. *)
Definition undated : JsValue := JObj [("schemaVersion", JNum 2)].
Definition dated : JsValue :=
  JObj [("schemaVersion", JNum 2); ("generatedAt", JStr "1000")].
Definition JSON_parse (raw : string) : option JsValue :=
  if String.eqb raw "undated" then Some undated
  else if String.eqb raw "dated" then Some dated
  else None.
Definition Date_parse (s : string) : option Z :=
  if String.eqb s "1000" then Some 1000 else None.
Definition Date_ofObject (v : JsValue) : option Z := None.
Definition storage (key : string) : option string :=
  if String.eqb key "cfTagStats:tourist" then Some "undated"
  else if String.eqb key "cfTagStats:petr" then Some "dated"
  else None.
End Sample.

(** ** Observations on the classifier *)

(** A submission the classifier looks at: it names a problem of the index. *)
Definition relevant (probIndex : list (string * bool)) (sub : Submission) : bool :=
  match s_problem sub with
  | Some pr => JsMap.has (probKey (Some pr)) probIndex
  | None => false
  end.

(** A verdict the classifier acts on. *)
Definition recognised (sub : Submission) : bool := isAccepted sub || isFailure sub.

(** Some submission satisfying [fails] comes before the first one that
    satisfies [accepted]. *)
Fixpoint failsBeforeAccepted (accepted fails : Submission → bool)
    (l : list Submission) : bool :=
  match l with
  | [] => false
  | sub :: l' =>
      if accepted sub then false
      else fails sub || failsBeforeAccepted accepted fails l'
  end.

(** ** Observations on the tag loop *)

(** The ratings of the solved rated problems among the pairs that carry
    [t]. *)
Definition solvedRatings (cls : Classified.t) (t : string)
    (l : list (string * Meta.t * string)) : list Z :=
  omap (λ w, if bool_decide (w.2 = t) && solvedAt cls w.1.1
                && truthyNum (Meta.rating w.1.2)
             then Meta.rating w.1.2 else None) l.

(** [r] is the rating of a solved rated problem of the catalog that
    carries [t]. *)
Definition solvedRatedIn {F} (agg : Agg.t F) (t : string) (r : Z) : Prop :=
  ∃ key m, JsMap.get key (Agg.perProblemMeta agg) = Some m
           ∧ t ∈ Meta.tags m ∧ Meta.rating m = Some r
           ∧ optSolved (JsMap.get key (Agg.perProblemStatus agg)) = true.

(** ** Observations on the fail band *)

(** [r] is the rating of an unsolved rated problem of the set that failed
    in a contest. *)
Definition failedRatedIn {F} (agg : Agg.t F) (set : list string) (r : Z) : Prop :=
  ∃ key m st, key ∈ set
              ∧ JsMap.get key (Agg.perProblemMeta agg) = Some m
              ∧ Meta.rating m = Some r ∧ r ≠ 0
              ∧ JsMap.get key (Agg.perProblemStatus agg) = Some st
              ∧ Status.solved st = false ∧ Status.failedContest st = true.

(** ** Observations on the categories of a bucket *)

(** The four categories a stored problem can be counted in. *)
Definition inSolvedContest {F} (agg : Agg.t F) (key : string) : bool :=
  optSolved (JsMap.get key (Agg.perProblemStatus agg))
  && optContest (JsMap.get key (Agg.perProblemOrigin agg)).
Definition inSolvedPractice {F} (agg : Agg.t F) (key : string) : bool :=
  optSolved (JsMap.get key (Agg.perProblemStatus agg))
  && negb (optContest (JsMap.get key (Agg.perProblemOrigin agg))).
Definition inFailedContest {F} (agg : Agg.t F) (key : string) : bool :=
  negb (optSolved (JsMap.get key (Agg.perProblemStatus agg)))
  && optFailedContest (JsMap.get key (Agg.perProblemStatus agg)).
Definition inUnsolved {F} (agg : Agg.t F) (key : string) : bool :=
  negb (optSolved (JsMap.get key (Agg.perProblemStatus agg)))
  && negb (optFailedContest (JsMap.get key (Agg.perProblemStatus agg))).

(** The number of keys of [set] that are stored with rating [r] (0 for
    none) and satisfy [f]. *)
Definition countAt {F} (agg : Agg.t F) (set : list string) (r : Z)
    (f : string → bool) : Z :=
  Z.of_nat (length (List.filter
                      (λ key, bool_decide (bucketOf agg key = Some r) && f key) set)).

(** The bucket of rating [r] written as five counts over [set]; there is
    none when no key of the set is stored with that rating. *)
Definition countedBucket {F} (agg : Agg.t F) (set : list string) (r : Z)
    : option Bucket.t :=
  if countAt agg set r (λ _, true) =? 0 then None
  else Some (Bucket.mk (countAt agg set r (inSolvedContest agg))
               (countAt agg set r (inSolvedPractice agg))
               (countAt agg set r (inFailedContest agg))
               (countAt agg set r (inUnsolved agg))
               (countAt agg set r (λ _, true))).

(** ** The difficulty map behind a selection *)

Section SelectionView.
Context {F : Type} `{Float64 F}.

(** The map that [renderDrill] and [drawDifficultyGraph] show for the
    selected tags: for one tag the stored buckets read back from the
    snapshot, for several the intersection engine run on the aggregate.
    [None] when nothing is shown. The keys of an intersection are
    numbers. *)
Definition selectionDiffMap (selectedTags : list string) (agg : Agg.t F)
    (snapshot : Snapshot.t F) : option (list (option Z * Bucket.t)) :=
  match selectedTags with
  | [] => None
  | [tag] =>
      match Snapshot.tags snapshot !! tag with
      | None => None
      | Some tagObj =>
          Some (rebuildDiffMapFromSnapshot (SnapTag.difficultyBuckets tagObj))
      end
  | _ => Some (map (λ e : Z * Bucket.t, (Some e.1, e.2))
                 (buildIntersectionBuckets selectedTags agg))
  end.

End SelectionView.

(** ** Sorting the tag table *)

Definition MAX_ROWS : nat := 50.

(** [x || y] on two comparator results: [y] when [x] is zero. *)
Definition orElse (x y : Z) : Z := if x =? 0 then y else x.

(** [v || d] on a number that may be null. *)
Definition numberOr (v : option Z) (d : Z) : Z :=
  if truthyNum v then default 0 v else d.

Section SortTags.
Context {F : Type} `{Float64 F}.

(** What [sort] and [||] see of a non-integer comparator result: a
    negative number, a positive number, or 0 for zero and for [NaN]. *)
Variable f_sign : F → Z.

Definition bySolved (a b : TagStat.t F) : Z := TagStat.solved b - TagStat.solved a.

(** The comparator of the mode "next"; a missing target is [Infinity]. *)
Definition byNext (a b : TagStat.t F) : Z :=
  match TagStat.nextTargetDifficulty a, TagStat.nextTargetDifficulty b with
  | Some an, Some bn => if negb (an =? bn) then an - bn else bySolved a b
  | Some _, None => -1
  | None, Some _ => 1
  | None, None => bySolved a b
  end.

Definition sortTags (arr : list (TagStat.t F)) (mode : string) : list (TagStat.t F) :=
  if String.eqb mode "coverage" then
    js_sort (λ a b, orElse (f_sign (f_sub (TagStat.solvePercent b)
                                      (TagStat.solvePercent a)))
                      (bySolved a b)) arr
  else if String.eqb mode "max" then
    js_sort (λ a b, orElse (numberOr (TagStat.maxSolved b) 0
                            - numberOr (TagStat.maxSolved a) 0)
                      (bySolved a b)) arr
  else if String.eqb mode "next" then js_sort byNext arr
  else if String.eqb mode "recommend" then
    js_sort (λ a b, orElse (f_sign (f_sub (TagStat.recommendScore b)
                                      (TagStat.recommendScore a)))
                      (bySolved a b)) arr
  else if String.eqb mode "failmax" then
    js_sort (λ a b, orElse (numberOr (TagStat.maxFailedDifficulty b) 0
                            - numberOr (TagStat.maxFailedDifficulty a) 0)
                      (numberOr (TagStat.failSpan b) 0
                       - numberOr (TagStat.failSpan a) 0)) arr
  else if String.eqb mode "failspan" then
    js_sort (λ a b, orElse (numberOr (TagStat.failSpan b) (-1)
                            - numberOr (TagStat.failSpan a) (-1))
                      (numberOr (TagStat.maxFailedDifficulty b) 0
                       - numberOr (TagStat.maxFailedDifficulty a) 0)) arr
  else js_sort bySolved arr.

(** The rows of the tag table in [renderTable]: the first [MAX_ROWS]
    statistics of [tagArray], sorted by the current mode. *)
Definition tableRows (agg : Agg.t F) (mode : string) : list (TagStat.t F) :=
  sortTags (take MAX_ROWS (Agg.tagArray agg)) mode.

End SortTags.

(** The six sort modes that have a comparator of their own. *)
Definition namedSortModes : list string :=
  ["coverage"; "max"; "next"; "recommend"; "failmax"; "failspan"].

(** The two sort keys of the integer modes, greater first. *)
Definition sortKeys {F} (mode : string) (stat : TagStat.t F) : Z * Z :=
  if String.eqb mode "max" then
    (numberOr (TagStat.maxSolved stat) 0, TagStat.solved stat)
  else if String.eqb mode "failmax" then
    (numberOr (TagStat.maxFailedDifficulty stat) 0, numberOr (TagStat.failSpan stat) 0)
  else if String.eqb mode "failspan" then
    (numberOr (TagStat.failSpan stat) (-1),
     numberOr (TagStat.maxFailedDifficulty stat) 0)
  else (TagStat.solved stat, 0).

(** [k] does not come after [k'] when the greater pair goes first. *)
Definition lexGe (k k' : Z * Z) : Prop :=
  k'.1 < k.1 ∨ (k'.1 = k.1 ∧ k'.2 ≤ k.2).

(** The order of the mode "next": known targets first, smallest first,
    then by [solved], greater first. *)
Definition nextOrder {F} (a b : TagStat.t F) : Prop :=
  match TagStat.nextTargetDifficulty a, TagStat.nextTargetDifficulty b with
  | Some an, Some bn => an < bn ∨ (an = bn ∧ TagStat.solved b ≤ TagStat.solved a)
  | Some _, None => True
  | None, Some _ => False
  | None, None => TagStat.solved b ≤ TagStat.solved a
  end.

(** ** Escaping tag names *)

(** The replacement of one character by [escapeHTML]; the fourth special
    character is the double quote (code 34). *)
Definition escapeChar (c : ascii) : string :=
  if Ascii.eqb c "<" then "&lt;"
  else if Ascii.eqb c ">" then "&gt;"
  else if Ascii.eqb c "&" then "&amp;"
  else if Ascii.eqb c "034" then "&quot;"
  else String c EmptyString.

Fixpoint escapeHTML (s : string) : string :=
  match s with
  | EmptyString => EmptyString
  | String c s' => escapeChar c +:+ escapeHTML s'
  end.

(** The characters [escapeHTML] replaces. *)
Definition isSpecial (c : ascii) : bool :=
  Ascii.eqb c "<" || Ascii.eqb c ">" || Ascii.eqb c "&" || Ascii.eqb c "034".

(** ** The rows of a drill-down *)

(** [[...diffMap.entries()].sort((a,b) => a[0]-b[0])], the first step of
    [renderDiffTable] and of [drawDifficultyGraph]. The difference of two
    keys one of which is [NaN] is [NaN], which [sort] takes for 0. *)
Definition orderedEntries (diffMap : list (option Z * Bucket.t))
    : list (option Z * Bucket.t) :=
  js_sort (λ a b, match a.1, b.1 with
                  | Some x, Some y => x - y
                  | _, _ => 0
                  end) diffMap.

(** Body of the loop over the rows in [drawDifficultyGraph] that finds the
    data extents. *)
Definition extentStep (acc : Z * Z) (e : option Z * Bucket.t) : Z * Z :=
  let pos := Bucket.solvedContest e.2 + Bucket.solvedPractice e.2 in
  let neg := Bucket.failedContest e.2 + Bucket.unsolved e.2 in
  (if acc.1 <? pos then pos else acc.1, if acc.2 <? neg then neg else acc.2).

(** The data extents of [drawDifficultyGraph]: the greatest number of
    solved problems and the greatest number of unsolved ones in a bucket,
    1 in place of 0. *)
Definition graphExtents (ordered : list (option Z * Bucket.t)) : Z * Z :=
  let m := fold_left extentStep ordered (0, 0) in
  (if m.1 =? 0 then 1 else m.1, if m.2 =? 0 then 1 else m.2).

(** * Facts *)

(** ** Maps, sets and sorting *)

Module JsMapFacts.
Section Facts.
Context {K V : Type} `{EqDecision K}.
Implicit Types (k : K) (v : V) (m : list (K * V)).

Lemma get_set_eq k v m : JsMap.get k (JsMap.set k v m) = Some v.
Proof.
  induction m as [|[k' v'] m IH]; simpl.
  - by rewrite decide_True.
  - destruct (decide (k = k')) as [->|Hne]; simpl.
    + by rewrite decide_True.
    + by rewrite decide_False.
Qed.

Lemma get_set_ne k k' v m : k ≠ k' → JsMap.get k' (JsMap.set k v m) = JsMap.get k' m.
Proof.
  intros Hne. induction m as [|[k0 v0] m IH]; simpl.
  - by rewrite decide_False.
  - destruct (decide (k = k0)) as [->|Hne0]; simpl.
    + by rewrite !decide_False.
    + destruct (decide (k' = k0)); [done | apply IH].
Qed.

Lemma get_set k k' v m :
  JsMap.get k' (JsMap.set k v m) = if decide (k = k') then Some v else JsMap.get k' m.
Proof.
  destruct (decide (k = k')) as [->|Hne].
  - apply get_set_eq.
  - by apply get_set_ne.
Qed.

Lemma has_set k k' v m :
  JsMap.has k' (JsMap.set k v m) = if decide (k = k') then true else JsMap.has k' m.
Proof. unfold JsMap.has. rewrite get_set. by destruct (decide (k = k')). Qed.

Lemma get_Some_elem k v m : JsMap.get k m = Some v → (k, v) ∈ m.
Proof.
  induction m as [|[k' v'] m IH]; simpl; [done|].
  destruct (decide (k = k')) as [->|Hne].
  - intros [= ->]. apply list_elem_of_here.
  - intros Hg. apply list_elem_of_further. by apply IH.
Qed.

Lemma get_None_keys k m : JsMap.get k m = None ↔ k ∉ JsMap.keys m.
Proof.
  induction m as [|[k' v'] m IH]; simpl.
  - split; [intros _; apply not_elem_of_nil | done].
  - rewrite not_elem_of_cons. destruct (decide (k = k')) as [->|Hne].
    + split; [done | intros [Hk _]; done].
    + rewrite IH. tauto.
Qed.

Lemma elem_get_NoDup k v m :
  NoDup (JsMap.keys m) → (k, v) ∈ m → JsMap.get k m = Some v.
Proof.
  induction m as [|[k' v'] m IH]; simpl.
  - intros _ Hin. by apply elem_of_nil in Hin.
  - rewrite NoDup_cons. intros [Hnotin Hnd] Hin.
    apply elem_of_cons in Hin as [[= -> ->]|Hin].
    + by rewrite decide_True.
    + destruct (decide (k = k')) as [->|Hne]; [|by apply IH].
      exfalso. apply Hnotin. apply list_elem_of_fmap. by exists (k', v).
Qed.

Lemma keys_set k v m :
  JsMap.keys (JsMap.set k v m)
  = if JsMap.has k m then JsMap.keys m else JsMap.keys m ++ [k].
Proof.
  unfold JsMap.has, JsMap.keys. induction m as [|[k' v'] m IH]; simpl; [done|].
  destruct (decide (k = k')) as [->|Hne]; simpl; [done|].
  rewrite IH. by destruct (JsMap.get k m).
Qed.

Lemma NoDup_keys_set k v m :
  NoDup (JsMap.keys m) → NoDup (JsMap.keys (JsMap.set k v m)).
Proof.
  intros Hnd. rewrite keys_set. unfold JsMap.has.
  destruct (JsMap.get k m) eqn:Hg; [done|].
  apply NoDup_app. split_and!; [done | | apply NoDup_singleton].
  intros x Hx Hx'. apply list_elem_of_singleton in Hx' as ->.
  by apply get_None_keys in Hg.
Qed.

Lemma set_set k v v' m : JsMap.set k v' (JsMap.set k v m) = JsMap.set k v' m.
Proof.
  induction m as [|[k0 v0] m IH]; simpl.
  - by rewrite decide_True.
  - destruct (decide (k = k0)) as [->|Hne]; simpl.
    + by rewrite decide_True.
    + rewrite decide_False by done. by rewrite IH.
Qed.

Lemma Forall_set (P : K * V → Prop) k v m :
  Forall P m → P (k, v) → Forall P (JsMap.set k v m).
Proof.
  intros Hm Hv. induction Hm as [|[k0 v0] m Hx Hm IH]; simpl.
  - by constructor.
  - destruct (decide (k = k0)); constructor; done.
Qed.

Lemma Forall_get (P : K * V → Prop) k v m :
  Forall P m → JsMap.get k m = Some v → P (k, v).
Proof.
  intros Hm Hg. apply get_Some_elem in Hg.
  by apply (proj1 (Forall_forall P m) Hm).
Qed.

End Facts.
End JsMapFacts.

Module JsSetFacts.
Section Facts.
Context {K : Type} `{EqDecision K}.
Implicit Types (k : K) (s : list K).

Lemma elem_of_add k k' s : k' ∈ JsSet.add k s ↔ k' = k ∨ k' ∈ s.
Proof.
  unfold JsSet.add, JsSet.has. case_bool_decide as Hin.
  - split; [tauto | intros [->|?]; done].
  - rewrite elem_of_app, list_elem_of_singleton. tauto.
Qed.

Lemma NoDup_add k s : NoDup s → NoDup (JsSet.add k s).
Proof.
  intros Hnd. unfold JsSet.add, JsSet.has. case_bool_decide as Hin; [done|].
  apply NoDup_app. split_and!; [done | | apply NoDup_singleton].
  intros x Hx Hx'. by apply list_elem_of_singleton in Hx' as ->.
Qed.

Lemma add_fresh k s : k ∉ s → JsSet.add k s = s ++ [k].
Proof. intros Hk. unfold JsSet.add, JsSet.has. by rewrite bool_decide_eq_false_2. Qed.

Lemma of_list_from s acc :
  NoDup (acc ++ s) → fold_left (λ a k, JsSet.add k a) s acc = acc ++ s.
Proof.
  revert acc. induction s as [|k s IH]; intros acc Hnd; simpl.
  - by rewrite app_nil_r.
  - assert (Hk : k ∉ acc).
    { apply NoDup_app in Hnd as (_ & Hd & _). intros Hin.
      apply (Hd k Hin). apply list_elem_of_here. }
    rewrite (add_fresh _ _ Hk). rewrite IH; rewrite <- app_assoc; done.
Qed.

(** Copying a set gives the same set. *)
Lemma of_list_NoDup s : NoDup s → JsSet.of_list s = s.
Proof. intros Hnd. unfold JsSet.of_list. by rewrite of_list_from. Qed.

Lemma elem_of_fold_add k s acc :
  k ∈ fold_left (λ a x, JsSet.add x a) s acc ↔ k ∈ acc ∨ k ∈ s.
Proof.
  revert acc. induction s as [|x s IH]; intros acc; simpl.
  - rewrite elem_of_nil. tauto.
  - rewrite IH, elem_of_add, elem_of_cons. tauto.
Qed.

Lemma elem_of_of_list k s : k ∈ JsSet.of_list s ↔ k ∈ s.
Proof. unfold JsSet.of_list. rewrite elem_of_fold_add, elem_of_nil. tauto. Qed.

Lemma NoDup_fold_add s acc :
  NoDup acc → NoDup (fold_left (λ a x, JsSet.add x a) s acc).
Proof.
  revert acc. induction s as [|x s IH]; intros acc Hnd; simpl; [done|].
  apply IH. by apply NoDup_add.
Qed.

Lemma NoDup_of_list s : NoDup (JsSet.of_list s).
Proof. apply NoDup_fold_add. apply NoDup_nil_2. Qed.

End Facts.
End JsSetFacts.

Section SortFacts.
Context {A : Type} (cmp : A → A → Z).

Lemma sortInsert_perm x l : sortInsert cmp x l ≡ₚ x :: l.
Proof.
  induction l as [|y l IH]; simpl; [done|].
  destruct (cmp x y <=? 0); [done|].
  rewrite IH. apply Permutation_swap.
Qed.

Lemma js_sort_perm l : js_sort cmp l ≡ₚ l.
Proof.
  induction l as [|x l IH]; simpl; [done|].
  rewrite sortInsert_perm. by rewrite IH.
Qed.

Lemma elem_of_js_sort x l : x ∈ js_sort cmp l ↔ x ∈ l.
Proof. by rewrite js_sort_perm. Qed.

End SortFacts.

(** ** The classifier *)

Section ClassifierFacts.
Variable idx : list (string * bool).
Implicit Types (st : Classified.t) (sub : Submission) (key : string).

Lemma step_untouched st sub key :
  touches idx key sub = false →
  JsMap.get key (Classified.perProblemStatus (classifyStep idx st sub))
    = JsMap.get key (Classified.perProblemStatus st)
  ∧ JsMap.get key (Classified.perProblemOrigin (classifyStep idx st sub))
    = JsMap.get key (Classified.perProblemOrigin st).
Proof.
  unfold touches, classifyStep. destruct (s_problem sub) as [pr|]; [|done].
  intros Ht. destruct (JsMap.has (probKey (Some pr)) idx) eqn:Hhas; simpl; [|done].
  assert (Hne : probKey (Some pr) ≠ key).
  { intros <-. rewrite Hhas, bool_decide_eq_true_2 in Ht; done. }
  destruct (String.eqb (s_verdict sub) "OK"); simpl;
    by rewrite !JsMapFacts.get_set_ne.
Qed.

Lemma step_solvedAt st sub key :
  solvedAt (classifyStep idx st sub) key
  = solvedAt st key || (touches idx key sub && isAccepted sub).
Proof.
  destruct (touches idx key sub) eqn:Ht.
  - unfold solvedAt, touches, classifyStep, isAccepted in *.
    destruct (s_problem sub) as [pr|]; [|done].
    apply andb_true_iff in Ht as [Hk Hhas]. apply bool_decide_eq_true in Hk.
    rewrite Hk, Hhas. simpl.
    destruct (String.eqb (s_verdict sub) "OK"); simpl;
      rewrite JsMapFacts.get_set_eq; simpl.
    + by rewrite orb_true_r.
    + rewrite orb_false_r.
      destruct (JsMap.get key (Classified.perProblemStatus st)) as [[sv fc fp]|];
        simpl; [destruct sv; simpl; [done|] |];
        by destruct (JsSet.has (s_verdict sub) contestFailVerdicts), (truthyNum (s_contestId sub)).
  - unfold solvedAt. destruct (step_untouched st sub key Ht) as [-> _].
    by rewrite orb_false_r.
Qed.

Lemma step_contestAt st sub key :
  contestAt (classifyStep idx st sub) key
  = contestAt st key || (touches idx key sub && isAccepted sub && isContest sub).
Proof.
  destruct (touches idx key sub) eqn:Ht.
  - unfold contestAt, touches, classifyStep, isAccepted, isContest in *.
    destruct (s_problem sub) as [pr|]; [|done].
    apply andb_true_iff in Ht as [Hk Hhas]. apply bool_decide_eq_true in Hk.
    rewrite Hk, Hhas. simpl.
    destruct (String.eqb (s_verdict sub) "OK"); simpl;
      rewrite JsMapFacts.get_set_eq; simpl.
    + destruct (truthyNum (s_contestId sub)); simpl.
      * by rewrite orb_true_r.
      * rewrite orb_false_r.
        by destruct (JsMap.get key (Classified.perProblemOrigin st)).
    + rewrite orb_false_r.
      by destruct (JsMap.get key (Classified.perProblemOrigin st)).
  - unfold contestAt. destruct (step_untouched st sub key Ht) as [_ ->].
    by rewrite orb_false_r.
Qed.

Lemma step_practiceAt st sub key :
  practiceAt (classifyStep idx st sub) key
  = practiceAt st key
    || (touches idx key sub && isAccepted sub && negb (isContest sub)).
Proof.
  destruct (touches idx key sub) eqn:Ht.
  - unfold practiceAt, touches, classifyStep, isAccepted, isContest in *.
    destruct (s_problem sub) as [pr|]; [|done].
    apply andb_true_iff in Ht as [Hk Hhas]. apply bool_decide_eq_true in Hk.
    rewrite Hk, Hhas. simpl.
    destruct (String.eqb (s_verdict sub) "OK"); simpl;
      rewrite JsMapFacts.get_set_eq; simpl.
    + destruct (truthyNum (s_contestId sub)); simpl.
      * rewrite orb_false_r.
        by destruct (JsMap.get key (Classified.perProblemOrigin st)).
      * by rewrite orb_true_r.
    + rewrite orb_false_r.
      by destruct (JsMap.get key (Classified.perProblemOrigin st)).
  - unfold practiceAt. destruct (step_untouched st sub key Ht) as [_ ->].
    by rewrite orb_false_r.
Qed.

Lemma step_failedContestAt st sub key :
  failedContestAt (classifyStep idx st sub) key
  = failedContestAt st key
    || (touches idx key sub && negb (solvedAt st key)
        && isFailure sub && isContest sub).
Proof.
  destruct (touches idx key sub) eqn:Ht.
  - unfold failedContestAt, solvedAt, touches, classifyStep, isFailure,
      isAccepted, isContest in *.
    destruct (s_problem sub) as [pr|]; [|done].
    apply andb_true_iff in Ht as [Hk Hhas]. apply bool_decide_eq_true in Hk.
    rewrite Hk, Hhas. simpl.
    destruct (String.eqb (s_verdict sub) "OK"); simpl;
      rewrite JsMapFacts.get_set_eq; simpl.
    + rewrite andb_false_r, orb_false_r.
      by destruct (JsMap.get key (Classified.perProblemStatus st)).
    + destruct (JsMap.get key (Classified.perProblemStatus st)) as [[sv fc fp]|];
        simpl.
      * destruct sv, (JsSet.has (s_verdict sub) contestFailVerdicts), (truthyNum (s_contestId sub)), fc; done.
      * destruct (JsSet.has (s_verdict sub) contestFailVerdicts), (truthyNum (s_contestId sub)); done.
  - unfold failedContestAt. destruct (step_untouched st sub key Ht) as [-> _].
    by rewrite orb_false_r.
Qed.

Lemma step_failedPracticeAt st sub key :
  failedPracticeAt (classifyStep idx st sub) key
  = failedPracticeAt st key
    || (touches idx key sub && negb (solvedAt st key)
        && isFailure sub && negb (isContest sub)).
Proof.
  destruct (touches idx key sub) eqn:Ht.
  - unfold failedPracticeAt, solvedAt, touches, classifyStep, isFailure,
      isAccepted, isContest in *.
    destruct (s_problem sub) as [pr|]; [|done].
    apply andb_true_iff in Ht as [Hk Hhas]. apply bool_decide_eq_true in Hk.
    rewrite Hk, Hhas. simpl.
    destruct (String.eqb (s_verdict sub) "OK"); simpl;
      rewrite JsMapFacts.get_set_eq; simpl.
    + rewrite andb_false_r, orb_false_r.
      by destruct (JsMap.get key (Classified.perProblemStatus st)).
    + destruct (JsMap.get key (Classified.perProblemStatus st)) as [[sv fc fp]|];
        simpl.
      * destruct sv, (JsSet.has (s_verdict sub) contestFailVerdicts), (truthyNum (s_contestId sub)), fp; done.
      * destruct (JsSet.has (s_verdict sub) contestFailVerdicts), (truthyNum (s_contestId sub)); done.
  - unfold failedPracticeAt. destruct (step_untouched st sub key Ht) as [-> _].
    by rewrite orb_false_r.
Qed.

End ClassifierFacts.

Lemma existsb_Permutation {A} (f : A → bool) (l l' : list A) :
  l ≡ₚ l' → existsb f l = existsb f l'.
Proof.
  induction 1 as [|x l l' _ IH|x y l|l l' l'' _ IH1 _ IH2]; simpl.
  - done.
  - by rewrite IH.
  - by destruct (f x), (f y).
  - by rewrite IH1.
Qed.

Section ClassifierFold.
Variable idx : list (string * bool).
Implicit Types (st : Classified.t) (l : list Submission) (key : string).

Lemma fold_solvedAt st l key :
  solvedAt (fold_left (classifyStep idx) l st) key
  = solvedAt st key || existsb (λ sub, touches idx key sub && isAccepted sub) l.
Proof.
  revert st. induction l as [|sub l IH]; intros st; simpl.
  - by rewrite orb_false_r.
  - rewrite IH, step_solvedAt. by rewrite orb_assoc.
Qed.

Lemma fold_contestAt st l key :
  contestAt (fold_left (classifyStep idx) l st) key
  = contestAt st key
    || existsb (λ sub, touches idx key sub && isAccepted sub && isContest sub) l.
Proof.
  revert st. induction l as [|sub l IH]; intros st; simpl.
  - by rewrite orb_false_r.
  - rewrite IH, step_contestAt. by rewrite orb_assoc.
Qed.

Lemma fold_practiceAt st l key :
  practiceAt (fold_left (classifyStep idx) l st) key
  = practiceAt st key
    || existsb (λ sub, touches idx key sub && isAccepted sub && negb (isContest sub)) l.
Proof.
  revert st. induction l as [|sub l IH]; intros st; simpl.
  - by rewrite orb_false_r.
  - rewrite IH, step_practiceAt. by rewrite orb_assoc.
Qed.

(** An origin flag is only ever set together with [solved]. *)
Lemma fold_origin_solved st l key :
  (contestAt st key || practiceAt st key → solvedAt st key) →
  contestAt (fold_left (classifyStep idx) l st) key
  || practiceAt (fold_left (classifyStep idx) l st) key →
  solvedAt (fold_left (classifyStep idx) l st) key.
Proof.
  revert st. induction l as [|sub l IH]; intros st Hst; simpl; [done|].
  apply IH. rewrite step_contestAt, step_practiceAt, step_solvedAt.
  destruct (contestAt st key), (practiceAt st key), (solvedAt st key),
    (touches idx key sub), (isAccepted sub), (isContest sub); simpl in *;
    try done; by exfalso; apply Hst.
Qed.

(** A solved problem is solved through one origin at least. *)
Lemma fold_solved_origin st l key :
  (solvedAt st key → contestAt st key || practiceAt st key) →
  solvedAt (fold_left (classifyStep idx) l st) key →
  contestAt (fold_left (classifyStep idx) l st) key
  || practiceAt (fold_left (classifyStep idx) l st) key.
Proof.
  revert st. induction l as [|sub l IH]; intros st Hst; simpl; [done|].
  apply IH. rewrite step_contestAt, step_practiceAt, step_solvedAt.
  destruct (contestAt st key), (practiceAt st key), (solvedAt st key),
    (touches idx key sub), (isAccepted sub), (isContest sub); simpl in *;
    try done; by exfalso; apply Hst.
Qed.

(** The failure flags count only while the problem is unsolved; read that
    way they do not depend on the order of the submissions. *)
Lemma fold_effective_failedContest st l key :
  failedContestAt (fold_left (classifyStep idx) l st) key
  && negb (solvedAt (fold_left (classifyStep idx) l st) key)
  = (failedContestAt st key
     || existsb (λ sub, touches idx key sub && isFailure sub && isContest sub) l)
    && negb (solvedAt st key
             || existsb (λ sub, touches idx key sub && isAccepted sub) l).
Proof.
  revert st. induction l as [|sub l IH]; intros st; simpl.
  - by rewrite !orb_false_r.
  - rewrite IH, step_failedContestAt, step_solvedAt.
    destruct (failedContestAt st key), (solvedAt st key), (touches idx key sub),
      (isFailure sub) eqn:Hf, (isAccepted sub) eqn:Ha, (isContest sub);
      simpl; try done; try by rewrite ?andb_false_r.
    all: unfold isFailure in Hf; rewrite Ha in Hf; done.
Qed.

Lemma fold_effective_failedPractice st l key :
  failedPracticeAt (fold_left (classifyStep idx) l st) key
  && negb (solvedAt (fold_left (classifyStep idx) l st) key)
  = (failedPracticeAt st key
     || existsb (λ sub, touches idx key sub && isFailure sub && negb (isContest sub)) l)
    && negb (solvedAt st key
             || existsb (λ sub, touches idx key sub && isAccepted sub) l).
Proof.
  revert st. induction l as [|sub l IH]; intros st; simpl.
  - by rewrite !orb_false_r.
  - rewrite IH, step_failedPracticeAt, step_solvedAt.
    destruct (failedPracticeAt st key), (solvedAt st key), (touches idx key sub),
      (isFailure sub) eqn:Hf, (isAccepted sub) eqn:Ha, (isContest sub);
      simpl; try done; try by rewrite ?andb_false_r.
    all: unfold isFailure in Hf; rewrite Ha in Hf; done.
Qed.

(** Whether a problem has a status object at all. *)
Lemma fold_has_status st l key :
  JsMap.has key (Classified.perProblemStatus (fold_left (classifyStep idx) l st))
  = JsMap.has key (Classified.perProblemStatus st) || existsb (touches idx key) l.
Proof.
  revert st. induction l as [|sub l IH]; intros st; simpl.
  - by rewrite orb_false_r.
  - rewrite IH, orb_assoc. f_equal.
    destruct (touches idx key sub) eqn:Ht.
    + rewrite orb_true_r. unfold touches, classifyStep in *.
      destruct (s_problem sub) as [pr|]; [|done].
      apply andb_true_iff in Ht as [Hk Hhas]. apply bool_decide_eq_true in Hk.
      rewrite Hk, Hhas. simpl.
      destruct (String.eqb (s_verdict sub) "OK"); simpl;
        by rewrite JsMapFacts.has_set, decide_True.
    + rewrite orb_false_r. unfold JsMap.has.
      by destruct (step_untouched idx st sub key Ht) as [-> _].
Qed.

(** Once a problem is solved its status object is frozen. *)
Lemma step_frozen st sub key s :
  JsMap.get key (Classified.perProblemStatus st) = Some s →
  Status.solved s = true →
  JsMap.get key (Classified.perProblemStatus (classifyStep idx st sub)) = Some s.
Proof.
  intros Hget Hs. destruct (touches idx key sub) eqn:Ht.
  - unfold touches, classifyStep in *.
    destruct (s_problem sub) as [pr|]; [|done].
    apply andb_true_iff in Ht as [Hk Hhas]. apply bool_decide_eq_true in Hk.
    rewrite Hk, Hhas. simpl. rewrite Hget. simpl.
    destruct (String.eqb (s_verdict sub) "OK"); simpl;
      rewrite JsMapFacts.get_set_eq, ?Hs; simpl; [|done].
    destruct s as [sv fc fp]; simpl in *. by subst.
  - by destruct (step_untouched idx st sub key Ht) as [-> _].
Qed.

Lemma fold_frozen st l key s :
  JsMap.get key (Classified.perProblemStatus st) = Some s →
  Status.solved s = true →
  JsMap.get key (Classified.perProblemStatus (fold_left (classifyStep idx) l st))
  = Some s.
Proof.
  revert st. induction l as [|sub l IH]; intros st Hget Hs; simpl; [done|].
  apply IH; [|done]. by apply step_frozen.
Qed.

End ClassifierFold.

(** ** The classification inside [aggregate] *)

Section AggregateClassifier.
Context {F : Type} `{Float64 F}.
Implicit Types (subs : list Submission) (ps : list Problem) (key : string).

Lemma aggregate_perProblemStatus subs ps :
  Agg.perProblemStatus (aggregate (F:=F) subs ps)
  = Classified.perProblemStatus (classify (buildIndex ps).2 subs).
Proof. unfold aggregate. by destruct (buildIndex ps). Qed.

Lemma aggregate_perProblemOrigin subs ps :
  Agg.perProblemOrigin (aggregate (F:=F) subs ps)
  = Classified.perProblemOrigin (classify (buildIndex ps).2 subs).
Proof. unfold aggregate. by destruct (buildIndex ps). Qed.

Lemma aggregate_perProblemMeta subs ps :
  Agg.perProblemMeta (aggregate (F:=F) subs ps) = (buildIndex ps).1.
Proof. unfold aggregate. by destruct (buildIndex ps). Qed.

(** C7. Classification monotonicity: once the status of a problem is
    solved after a list of submissions, classifying that list extended by
    any further submissions leaves the whole status object as it was: it is
    still solved and no failure flag has been added. *)
Theorem classification_monotone subs more ps key s :
  JsMap.get key (Agg.perProblemStatus (aggregate (F:=F) subs ps)) = Some s →
  Status.solved s = true →
  JsMap.get key (Agg.perProblemStatus (aggregate (F:=F) (subs ++ more) ps)) = Some s.
Proof.
  rewrite !aggregate_perProblemStatus. unfold classify.
  rewrite fold_left_app. intros Hget Hs. by apply fold_frozen.
Qed.

(** C2, amended. Order independence of the classifier: for a permutation of
    the submissions, every problem has the same [solved], [contest] and
    [practice] flags, the same failure flags read as [failedX && !solved],
    and a status object in one run exactly when in the other. *)
Theorem classification_order_independent subs subs' ps key :
  subs ≡ₚ subs' →
  let st := JsMap.get key (Agg.perProblemStatus (aggregate (F:=F) subs ps)) in
  let st' := JsMap.get key (Agg.perProblemStatus (aggregate (F:=F) subs' ps)) in
  let og := JsMap.get key (Agg.perProblemOrigin (aggregate (F:=F) subs ps)) in
  let og' := JsMap.get key (Agg.perProblemOrigin (aggregate (F:=F) subs' ps)) in
  optSolved st = optSolved st'
  ∧ optContest og = optContest og'
  ∧ optPractice og = optPractice og'
  ∧ optFailedContest st && negb (optSolved st)
    = optFailedContest st' && negb (optSolved st')
  ∧ optFailedPractice st && negb (optSolved st)
    = optFailedPractice st' && negb (optSolved st')
  ∧ (is_Some st ↔ is_Some st').
Proof.
  intros Hperm. cbv zeta.
  rewrite !aggregate_perProblemStatus, !aggregate_perProblemOrigin.
  set (idx := (buildIndex ps).2). unfold classify.
  pose proof (fold_solvedAt idx Classified.init subs key) as Hs.
  pose proof (fold_solvedAt idx Classified.init subs' key) as Hs'.
  pose proof (fold_contestAt idx Classified.init subs key) as Hc.
  pose proof (fold_contestAt idx Classified.init subs' key) as Hc'.
  pose proof (fold_practiceAt idx Classified.init subs key) as Hp.
  pose proof (fold_practiceAt idx Classified.init subs' key) as Hp'.
  pose proof (fold_effective_failedContest idx Classified.init subs key) as Hfc.
  pose proof (fold_effective_failedContest idx Classified.init subs' key) as Hfc'.
  pose proof (fold_effective_failedPractice idx Classified.init subs key) as Hfp.
  pose proof (fold_effective_failedPractice idx Classified.init subs' key) as Hfp'.
  pose proof (fold_has_status idx Classified.init subs key) as Hh.
  pose proof (fold_has_status idx Classified.init subs' key) as Hh'.
  unfold solvedAt, contestAt, practiceAt, failedContestAt, failedPracticeAt in *.
  rewrite Hfc, Hfc', Hfp, Hfp', Hs, Hs', Hc, Hc', Hp, Hp'.
  rewrite !(existsb_Permutation _ subs subs' Hperm).
  split_and!; try done.
  unfold JsMap.has in Hh, Hh'.
  rewrite (existsb_Permutation _ subs subs' Hperm) in Hh.
  rewrite <- Hh' in Hh. clear -Hh.
  destruct (JsMap.get key _), (JsMap.get key _); try done;
    split; intros [? ?]; eauto.
Qed.

End AggregateClassifier.

(** C7, at a sample input. *)
Lemma classification_monotone_witness :
  JsMap.get "1-A"
    (Agg.perProblemStatus
       (aggregate (F:=Q)
          ([Sample.sub Sample.pA "OK" None]
           ++ [Sample.sub Sample.pA "WRONG_ANSWER" (Some 1)]) Sample.catalog))
  = Some (Status.mk true false false).
Proof.
  apply (classification_monotone (F:=Q) [Sample.sub Sample.pA "OK" None]).
  - vm_compute. reflexivity.
  - reflexivity.
Defined.

(** C2, amended, at a sample input. *)
Lemma classification_order_independent_witness :
  optSolved (JsMap.get "1-A"
    (Agg.perProblemStatus (aggregate (F:=Q) Sample.failThenSolve Sample.catalog)))
  = optSolved (JsMap.get "1-A"
    (Agg.perProblemStatus (aggregate (F:=Q) Sample.solveThenFail Sample.catalog))).
Proof.
  apply (classification_order_independent (F:=Q)
           Sample.failThenSolve Sample.solveThenFail Sample.catalog "1-A").
  apply Permutation_swap.
Defined.

(** C2 as stated fails: the raw [failedContest] flag of a solved problem
    depends on whether the failure came before the accepted submission. *)
Lemma classification_order_dependence :
  Sample.failThenSolve ≡ₚ Sample.solveThenFail
  ∧ JsMap.get "1-A"
      (Agg.perProblemStatus (aggregate (F:=Q) Sample.failThenSolve Sample.catalog))
    = Some (Status.mk true true false)
  ∧ JsMap.get "1-A"
      (Agg.perProblemStatus (aggregate (F:=Q) Sample.solveThenFail Sample.catalog))
    = Some (Status.mk true false false).
Proof.
  split_and!.
  - apply Permutation_swap.
  - vm_compute. reflexivity.
  - vm_compute. reflexivity.
Qed.

(** ** The failure verdicts *)

Lemma contestFailVerdicts_spec (v : string) :
  v ∈ contestFailVerdicts ↔ v ∈ spec_failureVerdicts ∨ v = "RUNTIME_ERROR".
Proof.
  unfold contestFailVerdicts, spec_failureVerdicts.
  rewrite !elem_of_cons, !elem_of_nil. tauto.
Qed.

Lemma isFailure_listed (sub : Submission) :
  isFailure sub
  = bool_decide (s_verdict sub ∈ spec_failureVerdicts ∨ s_verdict sub = "RUNTIME_ERROR").
Proof.
  unfold isFailure, isAccepted, JsSet.has.
  rewrite (bool_decide_ext _ _ (contestFailVerdicts_spec (s_verdict sub))).
  by destruct (String.eqb_spec (s_verdict sub) "OK") as [->|Hne].
Qed.

(** C3, amended. On an indexed problem that is not yet solved, a submission
    sets the failure flag of its side (contest or practice) exactly when its
    verdict is one of the twelve listed verdicts or [RUNTIME_ERROR]; the
    flag of the other side is never touched. *)
Theorem failure_verdict_set (idx : list (string * bool)) (st : Classified.t)
    (sub : Submission) (pr : Problem) :
  s_problem sub = Some pr →
  JsMap.has (probKey (Some pr)) idx = true →
  solvedAt st (probKey (Some pr)) = false →
  let key := probKey (Some pr) in
  let st' := classifyStep idx st sub in
  let listed :=
    bool_decide (s_verdict sub ∈ spec_failureVerdicts
                 ∨ s_verdict sub = "RUNTIME_ERROR") in
  failedContestAt st' key = failedContestAt st key || (isContest sub && listed)
  ∧ failedPracticeAt st' key
    = failedPracticeAt st key || (negb (isContest sub) && listed).
Proof.
  intros Hpr Hidx Hunsolved. cbv zeta.
  rewrite step_failedContestAt, step_failedPracticeAt, Hunsolved.
  rewrite <- isFailure_listed.
  assert (Ht : touches idx (probKey (Some pr)) sub = true).
  { unfold touches. rewrite Hpr, Hidx. by rewrite bool_decide_eq_true_2. }
  rewrite Ht. simpl.
  split; f_equal; apply andb_comm.
Qed.

(** C3, amended, at a sample input. *)
Lemma failure_verdict_set_witness :
  failedContestAt
    (classifyStep (buildIndex Sample.catalog).2 Classified.init
       (Sample.sub Sample.pA "CRASHED" (Some 1))) "1-A"
  = true.
Proof.
  apply (failure_verdict_set (buildIndex Sample.catalog).2 Classified.init
           (Sample.sub Sample.pA "CRASHED" (Some 1)) Sample.pA).
  - reflexivity.
  - vm_compute. reflexivity.
  - vm_compute. reflexivity.
Defined.

(** C3 as stated fails: [RUNTIME_ERROR] is not among the twelve listed
    verdicts, and it sets the failure flag of an unsolved indexed problem. *)
Lemma runtime_error_sets_flag :
  ("RUNTIME_ERROR" ∉ spec_failureVerdicts)
  ∧ solvedAt Classified.init "1-A" = false
  ∧ failedContestAt Classified.init "1-A" = false
  ∧ failedContestAt
      (classifyStep (buildIndex Sample.catalog).2 Classified.init
         (Sample.sub Sample.pA "RUNTIME_ERROR" (Some 1))) "1-A"
    = true.
Proof.
  split_and!.
  - unfold spec_failureVerdicts. rewrite !not_elem_of_cons. split_and!; try done.
    apply not_elem_of_nil.
  - reflexivity.
  - reflexivity.
  - vm_compute. reflexivity.
Qed.

(** ** The tag loop *)

Section TagLoopFacts.
Context {F : Type} `{Float64 F}.
Implicit Types (acc : TagAcc (F:=F)) (stat : TagStat.t F) (t key : string).

Lemma tagStep_eq key rating status origin acc t :
  tagStep key rating status origin acc t
  = {| tagStats :=
         JsMap.set t
           (statUpdate rating status origin
              (default (newStat t) (JsMap.get t (tagStats acc))))
           (tagStats acc);
       acc_tagRatingsAll := addRating t rating (acc_tagRatingsAll acc);
       acc_perTagProblemList :=
         JsMap.set t
           (JsSet.add key (default [] (JsMap.get t (acc_perTagProblemList acc))))
           (acc_perTagProblemList acc) |}.
Proof.
  unfold tagStep, ensure, statUpdate.
  assert (Hptl : ∀ ptl : list (string * list string),
    JsMap.set t
      (JsSet.add key
         (default [] (JsMap.get t (if JsMap.has t ptl then ptl else JsMap.set t [] ptl))))
      (if JsMap.has t ptl then ptl else JsMap.set t [] ptl)
    = JsMap.set t (JsSet.add key (default [] (JsMap.get t ptl))) ptl).
  { intros ptl. unfold JsMap.has. destruct (JsMap.get t ptl) eqn:Hg.
    - by rewrite Hg.
    - by rewrite JsMapFacts.get_set_eq, JsMapFacts.set_set. }
  destruct (JsMap.get t (tagStats acc)) as [s|] eqn:Hg; simpl;
    rewrite Hptl, ?JsMapFacts.set_set; done.
Qed.

End TagLoopFacts.

Lemma fold_left_flat_map {A B C} (f : A → C → A) (g : B → list C)
    (l : list B) (a : A) :
  fold_left f (flat_map g l) a = fold_left (λ a b, fold_left f (g b) a) l a.
Proof.
  revert a. induction l as [|b l IH]; intros a; simpl; [done|].
  by rewrite fold_left_app, IH.
Qed.

Lemma fold_left_map {A B C} (f : A → C → A) (g : B → C) (l : list B) (a : A) :
  fold_left f (map g l) a = fold_left (λ a b, f a (g b)) l a.
Proof. revert a. induction l as [|b l IH]; intros a; simpl; [done | apply IH]. Qed.

Lemma fold_left_ext_in {A B} (f g : A → B → A) (l : list B) (a : A) :
  (∀ a b, b ∈ l → f a b = g a b) → fold_left f l a = fold_left g l a.
Proof.
  revert a. induction l as [|b l IH]; intros a Hfg; simpl; [done|].
  rewrite Hfg by apply list_elem_of_here.
  apply IH. intros a' b' Hb'. apply Hfg. by apply list_elem_of_further.
Qed.

Section WorkFacts.
Context {F : Type} `{Float64 F}.
Implicit Types (acc : TagAcc (F:=F)) (stat : TagStat.t F) (t key : string).
Implicit Types (cls : Classified.t) (w : string * Meta.t * string).

Lemma tagLoop_work cls meta :
  tagLoop cls meta = fold_left (workStep cls) (workItems meta) (mkTagAcc [] [] []).
Proof.
  unfold tagLoop, workItems. rewrite fold_left_flat_map.
  apply fold_left_ext_in. intros acc [key m] _. unfold problemStep.
  by rewrite fold_left_map.
Qed.

Lemma workStep_stats cls acc w t :
  JsMap.get t (tagStats (workStep cls acc w))
  = if decide (w.2 = t)
    then Some (statUpdate (Meta.rating w.1.2)
                 (JsMap.get w.1.1 (Classified.perProblemStatus cls))
                 (JsMap.get w.1.1 (Classified.perProblemOrigin cls))
                 (default (newStat t) (JsMap.get t (tagStats acc))))
    else JsMap.get t (tagStats acc).
Proof.
  unfold workStep. rewrite tagStep_eq. simpl. rewrite JsMapFacts.get_set.
  by destruct (decide (w.2 = t)) as [->|].
Qed.

Lemma workStep_ptl cls acc w t :
  JsMap.get t (acc_perTagProblemList (workStep cls acc w))
  = if decide (w.2 = t)
    then Some (JsSet.add w.1.1 (default [] (JsMap.get t (acc_perTagProblemList acc))))
    else JsMap.get t (acc_perTagProblemList acc).
Proof.
  unfold workStep. rewrite tagStep_eq. simpl. rewrite JsMapFacts.get_set.
  by destruct (decide (w.2 = t)) as [->|].
Qed.

Lemma workStep_tra cls acc w t :
  JsMap.get t (acc_tagRatingsAll (workStep cls acc w))
  = match Meta.rating w.1.2 with
    | Some r =>
        if bool_decide (w.2 = t) && truthyNum (Meta.rating w.1.2)
        then Some (JsSet.add r (default [] (JsMap.get t (acc_tagRatingsAll acc))))
        else JsMap.get t (acc_tagRatingsAll acc)
    | None => JsMap.get t (acc_tagRatingsAll acc)
    end.
Proof.
  unfold workStep. rewrite tagStep_eq. simpl. unfold addRating.
  destruct (Meta.rating w.1.2) as [r|] eqn:Hr; [|done].
  destruct (truthyNum (Some r)); [|by rewrite andb_false_r].
  rewrite JsMapFacts.get_set, andb_true_r.
  destruct (decide (w.2 = t)) as [->|Hne].
  - by rewrite bool_decide_eq_true_2.
  - by rewrite bool_decide_eq_false_2.
Qed.

End WorkFacts.

Section RunFacts.
Context {F : Type} `{Float64 F}.
Implicit Types (acc : TagAcc (F:=F)) (stat : TagStat.t F) (t key : string).
Implicit Types (cls : Classified.t) (w : string * Meta.t * string).
Implicit Types (l : list (string * Meta.t * string)).

Lemma runWork_snoc cls l w :
  runWork (F:=F) cls (l ++ [w]) = workStep cls (runWork cls l) w.
Proof. unfold runWork. by rewrite fold_left_app. Qed.

Lemma occurrences_snoc t l w :
  occurrences t (l ++ [w])
  = occurrences t l ++ (if decide (w.2 = t) then [w.1.1] else []).
Proof.
  unfold occurrences. rewrite List.filter_app, map_app. simpl.
  destruct (decide (w.2 = t)) as [Heq|Hne].
  - by rewrite bool_decide_eq_true_2.
  - by rewrite bool_decide_eq_false_2.
Qed.

Lemma of_list_snoc {K} `{EqDecision K} (s : list K) (k : K) :
  JsSet.of_list (s ++ [k]) = JsSet.add k (JsSet.of_list s).
Proof. unfold JsSet.of_list. by rewrite fold_left_app. Qed.

(** The problem set of a tag is the set of the keys that carry it. *)
Lemma runWork_ptl cls l t :
  JsMap.get t (acc_perTagProblemList (runWork (F:=F) cls l))
  = match occurrences t l with
    | [] => None
    | o => Some (JsSet.of_list o)
    end.
Proof.
  induction l as [|w l IH] using rev_ind; [done|].
  rewrite runWork_snoc, workStep_ptl, occurrences_snoc, IH.
  destruct (decide (w.2 = t)) as [Heq|Hne].
  - destruct (occurrences t l) as [|k o]; [done|].
    simpl. f_equal. symmetry. apply (of_list_snoc (k :: o)).
  - by rewrite app_nil_r.
Qed.

Lemma runWork_has_stat cls l t :
  is_Some (JsMap.get t (tagStats (runWork (F:=F) cls l))) ↔ occurrences t l ≠ [].
Proof.
  induction l as [|w l IH] using rev_ind.
  - split; [by intros [? ?] | done].
  - rewrite runWork_snoc, workStep_stats, occurrences_snoc.
    destruct (decide (w.2 = t)) as [Heq|Hne].
    + split; [|eauto]. intros _ Happ. by apply app_eq_nil in Happ as [_ ?].
    + by rewrite app_nil_r.
Qed.

Lemma runWork_NoDup_keys cls l :
  NoDup (JsMap.keys (tagStats (runWork (F:=F) cls l))).
Proof.
  induction l as [|w l IH] using rev_ind; [apply NoDup_nil_2|].
  rewrite runWork_snoc. unfold workStep. rewrite tagStep_eq. simpl.
  by apply JsMapFacts.NoDup_keys_set.
Qed.

(** Fields of the [stat] of a tag that the loop maintains for every pair. *)
Lemma runWork_stat_basic cls l t :
  let s := statAt (runWork (F:=F) cls l) t in
  TagStat.tag s = t
  ∧ TagStat.totalAvailable s = Z.of_nat (length (occurrences t l))
  ∧ TagStat.nextTargetDifficulty s = None
  ∧ TagStat.minFailedDifficulty s = None
  ∧ TagStat.maxFailedDifficulty s = None
  ∧ TagStat.failSpan s = None.
Proof.
  cbv zeta. unfold statAt. induction l as [|w l IH] using rev_ind; [done|].
  rewrite runWork_snoc, workStep_stats, occurrences_snoc.
  destruct (decide (w.2 = t)) as [Heq|Hne].
  - simpl. destruct IH as (Htag & Htot & Hnext & Hmin & Hmax & Hspan).
    rewrite length_app. simpl. unfold statUpdate.
    destruct (optSolved _); simpl; split_and!; try done; lia.
  - by rewrite app_nil_r.
Qed.

(** Additivity of the split: every solved pair increments exactly one of
    the two origin counters. *)
Lemma runWork_stat_split cls l t :
  solvedHaveOrigin cls →
  let s := statAt (runWork (F:=F) cls l) t in
  TagStat.solvedContest s + TagStat.solvedPractice s = TagStat.solved s.
Proof.
  intros Hcls. cbv zeta. unfold statAt.
  induction l as [|w l IH] using rev_ind; [done|].
  rewrite runWork_snoc, workStep_stats.
  destruct (decide (w.2 = t)) as [Heq|Hne]; [|done].
  simpl. unfold statUpdate.
  destruct (optSolved _) eqn:Hsolved; simpl; [|done].
  pose proof (Hcls w.1.1 Hsolved) as Horigin.
  unfold contestAt, practiceAt in Horigin. unfold solvedUpdate.
  destruct (optContest _); simpl in *; [|rewrite Horigin]; lia.
Qed.

End RunFacts.

(** ** The tag statistics of [aggregate] *)

Section AggregateTags.
Context {F : Type} `{Float64 F}.
Implicit Types (subs : list Submission) (ps : list Problem) (t key : string).
Implicit Types (stat : TagStat.t F).

Lemma aggregate_unfold subs ps :
  aggregate (F:=F) subs ps
  = {| Agg.tagArray :=
         js_sort (λ a b, TagStat.solved b - TagStat.solved a)
           (map (postPass (acc_tagRatingsAll (aggregateAcc subs ps)))
              (JsMap.values (tagStats (aggregateAcc subs ps))));
       Agg.perTagProblemList := acc_perTagProblemList (aggregateAcc subs ps);
       Agg.perProblemMeta := (buildIndex ps).1;
       Agg.solvedProblems :=
         Classified.solvedProblems (classify (buildIndex ps).2 subs);
       Agg.perProblemOrigin :=
         Classified.perProblemOrigin (classify (buildIndex ps).2 subs);
       Agg.tagRatingsAll := acc_tagRatingsAll (aggregateAcc subs ps);
       Agg.perProblemStatus :=
         Classified.perProblemStatus (classify (buildIndex ps).2 subs) |}.
Proof.
  unfold aggregate, aggregateAcc, runWork.
  destruct (buildIndex ps) as [meta idx]. simpl. by rewrite tagLoop_work.
Qed.

Lemma aggregate_perTagProblemList subs ps :
  Agg.perTagProblemList (aggregate (F:=F) subs ps)
  = acc_perTagProblemList (aggregateAcc (F:=F) subs ps).
Proof. by rewrite aggregate_unfold. Qed.

Lemma aggregate_tagArray_elem subs ps stat :
  stat ∈ Agg.tagArray (aggregate (F:=F) subs ps)
  ↔ ∃ t, is_Some (JsMap.get t (tagStats (aggregateAcc subs ps)))
         ∧ stat = postPass (acc_tagRatingsAll (aggregateAcc subs ps))
                    (statAt (aggregateAcc subs ps) t).
Proof.
  rewrite aggregate_unfold. simpl. rewrite elem_of_js_sort, list_elem_of_fmap.
  unfold JsMap.values, statAt. split.
  - intros (s & -> & Hs). apply list_elem_of_fmap in Hs as ([t s'] & -> & Hin).
    apply JsMapFacts.elem_get_NoDup in Hin; [|apply runWork_NoDup_keys].
    exists t. rewrite Hin. eauto.
  - intros (t & [s Hs] & ->). rewrite Hs. exists s. split; [done|].
    apply list_elem_of_fmap. exists (t, s). split; [done|].
    by apply JsMapFacts.get_Some_elem.
Qed.

Lemma classify_solvedHaveOrigin (idx : list (string * bool)) subs :
  solvedHaveOrigin (classify idx subs).
Proof.
  intros key Hs. unfold classify in *.
  apply Is_true_true. apply fold_solved_origin; [done|]. by apply Is_true_true.
Qed.

(** C9. Split additivity: in every tag statistic produced by [aggregate],
    [solvedContest + solvedPractice] equals [solved]; and an origin flag is
    never set on a problem that is not solved. *)
Theorem solved_split_additive subs ps :
  Forall (λ stat, TagStat.solvedContest stat + TagStat.solvedPractice stat
                  = TagStat.solved stat)
    (Agg.tagArray (aggregate (F:=F) subs ps))
  ∧ ∀ key,
      let st := JsMap.get key (Agg.perProblemStatus (aggregate (F:=F) subs ps)) in
      let og := JsMap.get key (Agg.perProblemOrigin (aggregate (F:=F) subs ps)) in
      (optContest og || optPractice og) && negb (optSolved st) = false.
Proof.
  split.
  - apply Forall_forall. intros stat Hin.
    apply aggregate_tagArray_elem in Hin as (t & _ & ->). simpl.
    apply (runWork_stat_split _ _ t). apply classify_solvedHaveOrigin.
  - intros key. cbv zeta.
    rewrite aggregate_perProblemStatus, aggregate_perProblemOrigin.
    pose proof (fold_origin_solved (buildIndex ps).2 Classified.init subs key
                  (λ Hinit, Hinit)) as Hfold.
    unfold classify, contestAt, practiceAt, solvedAt in *.
    set (o := optContest _ || optPractice _) in *.
    destruct o; simpl in *; [|done].
    apply negb_false_iff. apply Is_true_true. by apply Hfold.
Qed.

End AggregateTags.

(** ** Sorted ratings and the next target *)

Lemma sortInsert_sorted (x : Z) (l : list Z) :
  StronglySorted Z.le l → StronglySorted Z.le (sortInsert (λ a b, a - b) x l).
Proof.
  induction 1 as [|y l Hl IH Hy]; simpl.
  - repeat constructor.
  - destruct (x - y <=? 0) eqn:Hcmp.
    + apply Z.leb_le in Hcmp. constructor; [by constructor|].
      constructor; [lia|]. eapply Forall_impl; [exact Hy|]. simpl. lia.
    + apply Z.leb_gt in Hcmp. constructor; [done|].
      rewrite (sortInsert_perm _ x l). constructor; [lia | done].
Qed.

Lemma js_sort_sorted (l : list Z) :
  StronglySorted Z.le (js_sort (λ a b, a - b) l).
Proof.
  induction l as [|x l IH]; simpl; [constructor | by apply sortInsert_sorted].
Qed.

Lemma find_above_sorted (m : Z) (l : list Z) :
  StronglySorted Z.le l →
  match List.find (λ r, m <? r) l with
  | Some r => r ∈ l ∧ m < r ∧ ∀ r', r' ∈ l → m < r' → r ≤ r'
  | None => ∀ r', r' ∈ l → r' ≤ m
  end.
Proof.
  induction 1 as [|y l Hl IH Hy]; simpl.
  - intros r' Hr'. by apply elem_of_nil in Hr'.
  - destruct (m <? y) eqn:Hmy.
    + apply Z.ltb_lt in Hmy. split_and!; [apply list_elem_of_here | done |].
      intros r' Hr' _. apply elem_of_cons in Hr' as [->|Hr']; [lia|].
      by apply (proj1 (Forall_forall _ _) Hy).
    + apply Z.ltb_ge in Hmy. destruct (List.find _ l) as [r|].
      * destruct IH as (Hin & Hlt & Hmin). split_and!; [|done|].
        -- by apply list_elem_of_further.
        -- intros r' Hr' Hm. apply elem_of_cons in Hr' as [->|Hr']; [lia|].
           by apply Hmin.
      * intros r' Hr'. apply elem_of_cons in Hr' as [->|Hr']; [lia|].
        by apply IH.
Qed.

(** The first rating above [m] in ascending order is the least one. *)
Lemma nextTarget_least (m : Z) (allR : list Z) :
  match nextTarget (Some m) (Some allR) None with
  | Some r => r ∈ allR ∧ m < r ∧ ∀ r', r' ∈ allR → m < r' → r ≤ r'
  | None => ∀ r', r' ∈ allR → r' ≤ m
  end.
Proof.
  unfold nextTarget.
  pose proof (find_above_sorted m _ (js_sort_sorted allR)) as Hfind.
  destruct (List.find _ _) as [r|].
  - destruct Hfind as (Hin & Hlt & Hmin). rewrite elem_of_js_sort in Hin.
    split_and!; [done..|]. intros r' Hr'. apply Hmin. by rewrite elem_of_js_sort.
  - intros r' Hr'. apply Hfind. by rewrite elem_of_js_sort.
Qed.

(** ** The problem index *)

Lemma buildIndex_snoc (ps : list Problem) (p : Problem) :
  buildIndex (ps ++ [p]) = indexStep (buildIndex ps) p.
Proof. unfold buildIndex. by rewrite fold_left_app. Qed.

Lemma buildIndex_NoDup (ps : list Problem) : NoDup (JsMap.keys (buildIndex ps).1).
Proof.
  induction ps as [|p ps IH] using rev_ind; [apply NoDup_nil_2|].
  rewrite buildIndex_snoc. simpl. by apply JsMapFacts.NoDup_keys_set.
Qed.

(** Every stored entry is the object literal made from a catalog entry. *)
Lemma buildIndex_entries (ps : list Problem) :
  Forall (λ e, ∃ p, p ∈ ps ∧ e = (probKey (Some p), metaOf p)) (buildIndex ps).1.
Proof.
  induction ps as [|p ps IH] using rev_ind; [constructor|].
  rewrite buildIndex_snoc. simpl. apply JsMapFacts.Forall_set.
  - eapply Forall_impl; [exact IH|]. intros e (q & Hq & ->).
    exists q. split; [|done]. apply elem_of_app. by left.
  - exists p. split; [|done]. apply elem_of_app. right. apply list_elem_of_here.
Qed.

Lemma buildIndex_probIndex (ps : list Problem) (key : string) :
  JsMap.has key (buildIndex ps).2 = JsMap.has key (buildIndex ps).1.
Proof.
  induction ps as [|p ps IH] using rev_ind; [done|].
  rewrite buildIndex_snoc. simpl. rewrite !JsMapFacts.has_set. by rewrite IH.
Qed.

Lemma ratingOrNull_nonzero (r : option Z) : ratingOrNull r ≠ Some 0.
Proof. unfold ratingOrNull. by destruct r as [[| |]|]. Qed.

Lemma buildIndex_rating (ps : list Problem) (key : string) (m : Meta.t) :
  JsMap.get key (buildIndex ps).1 = Some m → Meta.rating m ≠ Some 0.
Proof.
  intros Hg.
  pose proof (JsMapFacts.Forall_get _ _ _ _ (buildIndex_entries ps) Hg)
    as (p & _ & Heq).
  injection Heq as _ ->. apply ratingOrNull_nonzero.
Qed.

(** ** The ratings of a tag *)

Section RatingFacts.
Context {F : Type} `{Float64 F}.
Implicit Types (t key : string) (cls : Classified.t).
Implicit Types (l : list (string * Meta.t * string)).

Lemma elem_of_workItems (meta : list (string * Meta.t)) (w : string * Meta.t * string) :
  w ∈ workItems meta ↔ (w.1.1, w.1.2) ∈ meta ∧ w.2 ∈ Meta.tags w.1.2.
Proof.
  unfold workItems. rewrite list_elem_of_In, in_flat_map. split.
  - intros ([key m] & Hin & Hw). simpl in Hw.
    apply list_elem_of_In, list_elem_of_fmap in Hw as (t & -> & Ht). simpl.
    split; [by apply list_elem_of_In | done].
  - intros [Hin Ht]. exists (w.1.1, w.1.2). split; [by apply list_elem_of_In|].
    simpl. apply list_elem_of_In, list_elem_of_fmap. exists w.2. split; [|done].
    by destruct w as [[? ?] ?].
Qed.

Lemma elem_of_ratedRatings t l r :
  r ∈ ratedRatings t l
  ↔ ∃ w, w ∈ l ∧ w.2 = t ∧ Meta.rating w.1.2 = Some r ∧ r ≠ 0.
Proof.
  unfold ratedRatings. rewrite list_elem_of_omap. split.
  - intros (w & Hw & Hf). exists w. split; [done|].
    destruct (bool_decide (w.2 = t)) eqn:Ht; simpl in Hf; [|done].
    apply bool_decide_eq_true in Ht.
    destruct (truthyNum (Meta.rating w.1.2)) eqn:Htr; [|done].
    rewrite Hf in Htr. simpl in Htr. apply negb_true_iff, Z.eqb_neq in Htr.
    done.
  - intros (w & Hw & Ht & Hr & Hnz). exists w. split; [done|].
    rewrite bool_decide_eq_true_2, Hr by done. simpl.
    apply Z.eqb_neq in Hnz. by rewrite Hnz.
Qed.

Lemma ratedRatings_snoc t l w :
  ratedRatings t (l ++ [w])
  = ratedRatings t l
    ++ match Meta.rating w.1.2 with
       | Some r => if bool_decide (w.2 = t) && truthyNum (Meta.rating w.1.2)
                   then [r] else []
       | None => []
       end.
Proof.
  unfold ratedRatings. rewrite omap_app. f_equal. simpl.
  destruct (Meta.rating w.1.2) as [r|] eqn:Hr.
  - by destruct (bool_decide (w.2 = t) && truthyNum (Some r)).
  - by destruct (bool_decide (w.2 = t) && truthyNum None).
Qed.

(** The rating set of a tag holds the ratings of its rated problems. *)
Lemma runWork_tra cls l t :
  default [] (JsMap.get t (acc_tagRatingsAll (runWork (F:=F) cls l)))
  = JsSet.of_list (ratedRatings t l).
Proof.
  induction l as [|w l IH] using rev_ind; [done|].
  rewrite runWork_snoc, workStep_tra, ratedRatings_snoc.
  destruct (Meta.rating w.1.2) as [r|]; [|by rewrite app_nil_r].
  destruct (bool_decide (w.2 = t) && truthyNum (Some r)).
  - simpl. by rewrite of_list_snoc, IH.
  - by rewrite app_nil_r.
Qed.

Lemma aggregateAcc_rated subs ps t r :
  r ∈ default [] (JsMap.get t (acc_tagRatingsAll (aggregateAcc (F:=F) subs ps)))
  ↔ ratedIn (aggregate (F:=F) subs ps) t r.
Proof.
  unfold ratedIn. rewrite aggregate_perProblemMeta. unfold aggregateAcc.
  rewrite runWork_tra, JsSetFacts.elem_of_of_list, elem_of_ratedRatings. split.
  - intros (w & Hw & Ht & Hr & _). apply elem_of_workItems in Hw as [Hin Htag].
    exists w.1.1, w.1.2. split_and!; [|by rewrite <- Ht|done].
    apply JsMapFacts.elem_get_NoDup; [apply buildIndex_NoDup | done].
  - intros (key & m & Hg & Ht & Hr). exists (key, m, t). split_and!; try done.
    + apply elem_of_workItems. split; [|done]. by apply JsMapFacts.get_Some_elem.
    + intros ->. by apply (buildIndex_rating ps key m).
Qed.

Lemma aggregate_tagRatingsAll subs ps t r :
  r ∈ default [] (JsMap.get t (Agg.tagRatingsAll (aggregate (F:=F) subs ps)))
  ↔ ratedIn (aggregate (F:=F) subs ps) t r.
Proof. rewrite <- aggregateAcc_rated. by rewrite aggregate_unfold. Qed.

(** C8. Next target: for every tag statistic of [aggregate],
    [nextTargetDifficulty] is the least rating, among the ratings of the
    rated catalog problems carrying the tag, that is strictly greater than
    [maxSolved]; it is null when [maxSolved] is null or no rating of the
    tag exceeds it. *)
Theorem nextTargetDifficulty_least subs ps :
  Forall (λ stat,
    let rated := ratedIn (aggregate (F:=F) subs ps) (TagStat.tag stat) in
    match TagStat.maxSolved stat, TagStat.nextTargetDifficulty stat with
    | None, next => next = None
    | Some mx, Some r => rated r ∧ mx < r ∧ ∀ r', rated r' → mx < r' → r ≤ r'
    | Some mx, None => ∀ r', rated r' → r' ≤ mx
    end)
    (Agg.tagArray (aggregate (F:=F) subs ps)).
Proof.
  apply Forall_forall. intros stat Hin.
  apply aggregate_tagArray_elem in Hin as (t & _ & ->). cbv zeta.
  destruct (runWork_stat_basic (F:=F) (classify (buildIndex ps).2 subs)
              (workItems (buildIndex ps).1) t) as (Htag & _ & Hnext & _).
  fold (aggregateAcc (F:=F) subs ps) in Htag, Hnext.
  simpl. rewrite Htag, Hnext.
  destruct (TagStat.maxSolved (statAt (aggregateAcc subs ps) t)) as [mx|]; [|done].
  pose proof (aggregateAcc_rated subs ps t) as Hrated.
  destruct (JsMap.get t (acc_tagRatingsAll (aggregateAcc subs ps))) as [allR|].
  - pose proof (nextTarget_least mx allR) as Hleast.
    destruct (nextTarget (Some mx) (Some allR) None) as [r|].
    + destruct Hleast as (Hr & Hlt & Hmin). split_and!; [by apply Hrated | done |].
      intros r' Hr'. apply Hmin. by apply Hrated.
    + intros r' Hr'. apply Hleast. by apply Hrated.
  - simpl. intros r' Hr'. apply Hrated in Hr'. by apply elem_of_nil in Hr'.
Qed.

End RatingFacts.

(** ** Difficulty buckets *)

Section BucketFacts.
Context {F : Type} `{Float64 F}.
Implicit Types (agg : Agg.t F) (b : Bucket.t) (diffMap : list (Z * Bucket.t)).

Lemma countInto_total status origin b :
  Bucket.total (countInto status origin b) = Bucket.total b + 1.
Proof.
  unfold countInto.
  by destruct (optSolved status), (optContest origin), (optFailedContest status).
Qed.

Lemma countInto_sum status origin b :
  Bucket.total b
  = Bucket.solvedContest b + Bucket.solvedPractice b
    + Bucket.failedContest b + Bucket.unsolved b →
  Bucket.total (countInto status origin b)
  = Bucket.solvedContest (countInto status origin b)
    + Bucket.solvedPractice (countInto status origin b)
    + Bucket.failedContest (countInto status origin b)
    + Bucket.unsolved (countInto status origin b).
Proof.
  unfold countInto.
  destruct (optSolved status), (optContest origin), (optFailedContest status);
    simpl; lia.
Qed.

Lemma sumTotals_set (k : Z) b diffMap :
  sumTotals (JsMap.set k b diffMap)
  = sumTotals diffMap + Bucket.total b
    - Bucket.total (default emptyBucket (JsMap.get k diffMap)).
Proof.
  induction diffMap as [|[k0 b0] diffMap IH]; simpl.
  - lia.
  - destruct (decide (k = k0)) as [->|Hne]; simpl; [lia|]. rewrite IH. lia.
Qed.

Lemma tagBucketStep_sum agg diffMap key :
  sumTotals (tagBucketStep agg diffMap key)
  = sumTotals diffMap + (if JsMap.has key (Agg.perProblemMeta agg) then 1 else 0).
Proof.
  unfold tagBucketStep, JsMap.has.
  destruct (JsMap.get key (Agg.perProblemMeta agg)) as [meta|]; [|lia].
  rewrite sumTotals_set, countInto_total. lia.
Qed.

Lemma tagBucketStep_ok agg diffMap key :
  Forall (λ e, Bucket.total e.2
               = Bucket.solvedContest e.2 + Bucket.solvedPractice e.2
                 + Bucket.failedContest e.2 + Bucket.unsolved e.2) diffMap →
  Forall (λ e, Bucket.total e.2
               = Bucket.solvedContest e.2 + Bucket.solvedPractice e.2
                 + Bucket.failedContest e.2 + Bucket.unsolved e.2)
    (tagBucketStep agg diffMap key).
Proof.
  intros Hok. unfold tagBucketStep.
  destruct (JsMap.get key (Agg.perProblemMeta agg)) as [meta|]; [|done].
  apply JsMapFacts.Forall_set; [done|]. simpl. apply countInto_sum.
  destruct (JsMap.get _ diffMap) as [b|] eqn:Hb; simpl; [|done].
  by apply (JsMapFacts.Forall_get _ _ _ _ Hok Hb).
Qed.

(** Every bucket of a difficulty map splits its total into the four
    categories. *)
Lemma tagDiffMap_ok agg (set : list string) :
  Forall (λ e, Bucket.total e.2
               = Bucket.solvedContest e.2 + Bucket.solvedPractice e.2
                 + Bucket.failedContest e.2 + Bucket.unsolved e.2)
    (tagDiffMap agg set).
Proof.
  unfold tagDiffMap. induction set as [|key set IH] using rev_ind; [constructor|].
  rewrite fold_left_app. simpl. by apply tagBucketStep_ok.
Qed.

(** The totals of a difficulty map add up to the number of keys of the set
    that have an entry in [perProblemMeta]. *)
Lemma tagDiffMap_sum agg (set : list string) :
  sumTotals (tagDiffMap agg set)
  = Z.of_nat (length (List.filter (λ key, JsMap.has key (Agg.perProblemMeta agg)) set)).
Proof.
  unfold tagDiffMap. induction set as [|key set IH] using rev_ind; [done|].
  rewrite fold_left_app, List.filter_app, length_app. simpl.
  rewrite tagBucketStep_sum, IH.
  destruct (JsMap.has key (Agg.perProblemMeta agg)); simpl; lia.
Qed.

Lemma buildAll_fold_get agg (l : list (TagStat.t F))
    (m0 : list (string * list (Z * Bucket.t))) (t : string) :
  JsMap.get t
    (fold_left
       (λ m stat,
          match JsMap.get (TagStat.tag stat) (Agg.perTagProblemList agg) with
          | None => m
          | Some set => JsMap.set (TagStat.tag stat) (tagDiffMap agg set) m
          end) l m0)
  = if bool_decide (t ∈ map TagStat.tag l)
    then match JsMap.get t (Agg.perTagProblemList agg) with
         | Some set => Some (tagDiffMap agg set)
         | None => JsMap.get t m0
         end
    else JsMap.get t m0.
Proof.
  revert m0. induction l as [|stat l IH]; intros m0; simpl; [done|].
  rewrite IH. destruct (decide (TagStat.tag stat = t)) as [Heq|Hne].
  - rewrite (bool_decide_eq_true_2 (t ∈ _ :: _)) by (rewrite Heq; apply list_elem_of_here).
    rewrite Heq. destruct (JsMap.get t (Agg.perTagProblemList agg)) as [set|].
    + rewrite JsMapFacts.get_set_eq. by case_bool_decide.
    + by case_bool_decide.
  - assert (Hiff : bool_decide (t ∈ TagStat.tag stat :: map TagStat.tag l)
                   = bool_decide (t ∈ map TagStat.tag l)).
    { apply bool_decide_ext. rewrite elem_of_cons.
      split; [intros [Ht|Ht]; [congruence | done] | by right]. }
    assert (Hother :
      JsMap.get t
        match JsMap.get (TagStat.tag stat) (Agg.perTagProblemList agg) with
        | Some set => JsMap.set (TagStat.tag stat) (tagDiffMap agg set) m0
        | None => m0
        end = JsMap.get t m0).
    { destruct (JsMap.get (TagStat.tag stat) _); [|done].
      by rewrite JsMapFacts.get_set_ne. }
    by rewrite Hiff, Hother.
Qed.

(** The difficulty map of a tag of [tagArray] is the one built from its
    problem set; other tags have none. *)
Lemma buildAll_get agg (t : string) :
  JsMap.get t (buildAllTagDifficultyBuckets agg)
  = if bool_decide (t ∈ map TagStat.tag (Agg.tagArray agg))
    then tagDiffMap agg <$> JsMap.get t (Agg.perTagProblemList agg)
    else None.
Proof.
  unfold buildAllTagDifficultyBuckets. rewrite buildAll_fold_get.
  case_bool_decide; [|done]. by destruct (JsMap.get t _).
Qed.

End BucketFacts.

(** ** The aggregate handed to the snapshot codec *)

Section FreshFacts.
Context {F : Type} `{Float64 F}.
Implicit Types (subs : list Submission) (ps : list Problem) (t key : string).
Implicit Types (stat : TagStat.t F).

Lemma computeRecommendationScores_map (tags : list (TagStat.t F)) :
  ∃ score : TagStat.t F → F,
    computeRecommendationScores tags
    = map (λ stat, setRecommendScore (score stat) stat) tags.
Proof.
  destruct tags as [|stat tags].
  - by exists (λ _, f_ofZ 0).
  - by eexists.
Qed.

(** Scoring and the fail band keep the tag and the counters of every
    statistic, in the same order. *)
Lemma freshAggregate_tagArray subs ps :
  ∃ g : TagStat.t F → TagStat.t F,
    Agg.tagArray (freshAggregate (F:=F) subs ps)
    = map g (Agg.tagArray (aggregate (F:=F) subs ps))
    ∧ ∀ stat,
        TagStat.tag (g stat) = TagStat.tag stat
        ∧ TagStat.totalAvailable (g stat) = TagStat.totalAvailable stat
        ∧ TagStat.solved (g stat) = TagStat.solved stat
        ∧ TagStat.solvedContest (g stat) = TagStat.solvedContest stat
        ∧ TagStat.solvedPractice (g stat) = TagStat.solvedPractice stat
        ∧ TagStat.maxSolved (g stat) = TagStat.maxSolved stat
        ∧ TagStat.nextTargetDifficulty (g stat) = TagStat.nextTargetDifficulty stat.
Proof.
  unfold freshAggregate, computeFailedDifficultyBand. simpl.
  destruct (computeRecommendationScores_map (Agg.tagArray (aggregate subs ps)))
    as [score ->].
  eexists (λ stat, failBandOf _ (setRecommendScore (score stat) stat)).
  split; [by rewrite map_map|].
  intros stat. unfold failBandOf. simpl.
  by destruct (JsMap.get (TagStat.tag stat) _).
Qed.

Lemma freshAggregate_perProblemMeta subs ps :
  Agg.perProblemMeta (freshAggregate (F:=F) subs ps) = (buildIndex ps).1.
Proof. unfold freshAggregate. simpl. apply aggregate_perProblemMeta. Qed.

(** The tags of [tagArray] are those of the tag loop, each once. *)
Lemma aggregate_tags_perm subs ps :
  map TagStat.tag (Agg.tagArray (aggregate (F:=F) subs ps))
  ≡ₚ JsMap.keys (tagStats (aggregateAcc (F:=F) subs ps)).
Proof.
  rewrite aggregate_unfold. simpl. rewrite js_sort_perm, map_map.
  unfold JsMap.values, JsMap.keys. rewrite map_map. simpl.
  apply reflexive_eq. apply map_ext_in. intros [t s] Hin. simpl.
  apply list_elem_of_In in Hin.
  apply JsMapFacts.elem_get_NoDup in Hin; [|apply runWork_NoDup_keys].
  destruct (runWork_stat_basic (F:=F) (classify (buildIndex ps).2 subs)
              (workItems (buildIndex ps).1) t) as [Htag _].
  unfold statAt in Htag. fold (aggregateAcc (F:=F) subs ps) in Htag.
  by rewrite Hin in Htag.
Qed.

Lemma freshAggregate_tags_NoDup subs ps :
  NoDup (map TagStat.tag (Agg.tagArray (freshAggregate (F:=F) subs ps))).
Proof.
  destruct (freshAggregate_tagArray subs ps) as (g & -> & Hg).
  rewrite map_map.
  rewrite (map_ext _ TagStat.tag) by (intros stat; apply Hg).
  rewrite aggregate_tags_perm. apply runWork_NoDup_keys.
Qed.

End FreshFacts.

(** ** Problem sets and [totalAvailable] *)

Section OccurrenceFacts.
Implicit Types (t key : string) (meta : list (string * Meta.t)).

Lemma occurrences_app t (l l' : list (string * Meta.t * string)) :
  occurrences t (l ++ l') = occurrences t l ++ occurrences t l'.
Proof. unfold occurrences. by rewrite List.filter_app, map_app. Qed.

Lemma occurrences_one_problem t key (m : Meta.t) (tags : list string) :
  NoDup tags →
  occurrences t (map (λ t', (key, m, t')) tags)
  = if bool_decide (t ∈ tags) then [key] else [].
Proof.
  induction 1 as [|t' tags Hnotin Hnd IH]; [done|].
  unfold occurrences in *. simpl. destruct (decide (t' = t)) as [->|Hne].
  - rewrite bool_decide_eq_true_2 by done. simpl. rewrite IH.
    rewrite (bool_decide_eq_false_2 (t ∈ tags)) by done.
    by rewrite (bool_decide_eq_true_2 (t ∈ t :: tags)) by apply list_elem_of_here.
  - rewrite bool_decide_eq_false_2 by done. rewrite IH.
    apply (f_equal (λ b : bool, if b then [key] else [])).
    apply bool_decide_ext. rewrite elem_of_cons.
    split; [by right | intros [Ht|Ht]; [congruence | done]].
Qed.

Lemma elem_of_occurrences t key meta :
  key ∈ occurrences t (workItems meta)
  ↔ ∃ m, (key, m) ∈ meta ∧ t ∈ Meta.tags m.
Proof.
  unfold occurrences. rewrite list_elem_of_fmap. split.
  - intros (w & -> & Hw). apply list_elem_of_In, filter_In in Hw as [Hw Ht].
    apply list_elem_of_In, elem_of_workItems in Hw as [Hin Htag].
    apply bool_decide_eq_true in Ht. exists w.1.2. by rewrite <- Ht.
  - intros (m & Hin & Ht). exists (key, m, t). split; [done|].
    apply list_elem_of_In, filter_In. split.
    + apply list_elem_of_In, elem_of_workItems. by split.
    + by apply bool_decide_eq_true.
Qed.

Lemma occurrences_NoDup t meta :
  NoDup (JsMap.keys meta) →
  Forall (λ e, NoDup (Meta.tags e.2)) meta →
  NoDup (occurrences t (workItems meta)).
Proof.
  induction meta as [|[key m] meta IH]; simpl; [intros; apply NoDup_nil_2|].
  rewrite NoDup_cons, Forall_cons. intros [Hkey Hkeys] [Htags Hrest]. simpl in *.
  rewrite occurrences_app, occurrences_one_problem by done.
  destruct (bool_decide (t ∈ Meta.tags m)); simpl; [|by apply IH].
  apply NoDup_cons. split; [|by apply IH].
  intros Hin. apply elem_of_occurrences in Hin as (m' & Hin & _).
  apply Hkey. unfold JsMap.keys. apply list_elem_of_fmap. by exists (key, m').
Qed.

Lemma buildIndex_tags_NoDup (ps : list Problem) :
  tagsDistinct ps = true →
  Forall (λ e, NoDup (Meta.tags e.2)) (buildIndex ps).1.
Proof.
  intros Hd. eapply Forall_impl; [apply buildIndex_entries|].
  intros e (p & Hp & ->). simpl.
  unfold tagsDistinct in Hd. rewrite forallb_forall in Hd.
  apply list_elem_of_In, Hd in Hp. by apply bool_decide_eq_true in Hp.
Qed.

End OccurrenceFacts.

Section BucketTotals.
Context {F : Type} `{Float64 F}.
Implicit Types (subs : list Submission) (ps : list Problem).

(** The problem set of a tag of the tag loop, and its keys. *)
Lemma aggregateAcc_ptl subs ps (t : string) :
  is_Some (JsMap.get t (tagStats (aggregateAcc (F:=F) subs ps))) →
  ∃ set, JsMap.get t (acc_perTagProblemList (aggregateAcc (F:=F) subs ps)) = Some set
         ∧ set = JsSet.of_list (occurrences t (workItems (buildIndex ps).1))
         ∧ ∀ key, key ∈ set → JsMap.has key (buildIndex ps).1 = true.
Proof.
  intros Hsome. apply runWork_has_stat in Hsome. unfold aggregateAcc.
  rewrite runWork_ptl.
  destruct (occurrences t (workItems (buildIndex ps).1)) as [|k o] eqn:Ho; [done|].
  eexists. split_and!; [done..|].
  intros key Hkey. rewrite JsSetFacts.elem_of_of_list, <- Ho in Hkey.
  apply elem_of_occurrences in Hkey as (m & Hin & _).
  apply JsMapFacts.elem_get_NoDup in Hin; [|apply buildIndex_NoDup].
  unfold JsMap.has. by rewrite Hin.
Qed.

Lemma filter_all {A} (f : A → bool) (l : list A) :
  (∀ x, x ∈ l → f x = true) → List.filter f l = l.
Proof.
  induction l as [|x l IH]; intros Hall; simpl; [done|].
  rewrite (Hall x) by apply list_elem_of_here.
  rewrite IH; [done|]. intros y Hy. apply Hall. by apply list_elem_of_further.
Qed.

(** C6, amended. Bucket totals: in every bucket built by
    [buildAllTagDifficultyBuckets], [total] is the sum of the four category
    counters; and when no catalog problem lists a tag twice, the totals of
    the buckets of a tag add up to the tag's [totalAvailable]. *)
Theorem bucket_totals subs ps :
  let agg := freshAggregate (F:=F) subs ps in
  let buckets := buildAllTagDifficultyBuckets agg in
  (∀ (tag : string) diffMap (rating : Z) (b : Bucket.t),
     JsMap.get tag buckets = Some diffMap →
     JsMap.get rating diffMap = Some b →
     Bucket.total b
     = Bucket.solvedContest b + Bucket.solvedPractice b
       + Bucket.failedContest b + Bucket.unsolved b)
  ∧ (tagsDistinct ps = true →
     Forall (λ stat,
               ∃ diffMap, JsMap.get (TagStat.tag stat) buckets = Some diffMap
                          ∧ sumTotals diffMap = TagStat.totalAvailable stat)
       (Agg.tagArray agg)).
Proof.
  cbv zeta. split.
  - intros tag diffMap rating b Hget Hb. rewrite buildAll_get in Hget.
    case_bool_decide; [|done].
    destruct (JsMap.get tag (Agg.perTagProblemList _)) as [set|]; [|done].
    injection Hget as <-.
    by apply (JsMapFacts.Forall_get _ _ _ _ (tagDiffMap_ok _ set) Hb).
  - intros Hdistinct. apply Forall_forall. intros stat' Hin.
    rewrite buildAll_get.
    rewrite bool_decide_eq_true_2
      by (apply list_elem_of_fmap; by exists stat').
    destruct (freshAggregate_tagArray subs ps) as (g & Harr & Hg).
    rewrite Harr in Hin. apply list_elem_of_fmap in Hin as (stat & -> & Hin).
    destruct (Hg stat) as (-> & -> & _).
    apply aggregate_tagArray_elem in Hin as (t & Hsome & ->). simpl.
    destruct (runWork_stat_basic (F:=F) (classify (buildIndex ps).2 subs)
                (workItems (buildIndex ps).1) t) as (Htag & Htotal & _).
    fold (aggregateAcc (F:=F) subs ps) in Htag, Htotal. rewrite Htag, Htotal.
    destruct (aggregateAcc_ptl subs ps t Hsome) as (set & Hset & Heq & Hmeta).
    rewrite aggregate_perTagProblemList, Hset. simpl.
    eexists. split; [done|].
    rewrite tagDiffMap_sum, freshAggregate_perProblemMeta.
    rewrite filter_all by done. rewrite Heq.
    rewrite JsSetFacts.of_list_NoDup; [done|].
    apply occurrences_NoDup; [apply buildIndex_NoDup|].
    by apply buildIndex_tags_NoDup.
Qed.

End BucketTotals.

(** C6, amended, at a sample input. *)
Lemma bucket_totals_witness :
  tagsDistinct Sample.catalog = true
  ∧ Forall (λ stat,
      ∃ diffMap,
        JsMap.get (TagStat.tag stat)
          (buildAllTagDifficultyBuckets
             (freshAggregate (F:=Q) Sample.failThenSolve Sample.catalog))
        = Some diffMap
        ∧ sumTotals diffMap = TagStat.totalAvailable stat)
      (Agg.tagArray (freshAggregate (F:=Q) Sample.failThenSolve Sample.catalog)).
Proof.
  split; [reflexivity|].
  apply (proj2 (bucket_totals (F:=Q) Sample.failThenSolve Sample.catalog)).
  reflexivity.
Defined.

(** C6 as stated fails: a problem that lists a tag twice is counted twice
    in [totalAvailable] and once in the buckets of the tag. *)
Lemma bucket_totals_repeated_tag :
  let agg := freshAggregate (F:=Q) [] Sample.repeatedTag in
  map TagStat.tag (Agg.tagArray agg) = ["dp"]
  ∧ map TagStat.totalAvailable (Agg.tagArray agg) = [2]
  ∧ sumTotals <$> JsMap.get "dp" (buildAllTagDifficultyBuckets agg) = Some 1.
Proof. vm_compute. done. Qed.

(** ** The intersection engine *)

Section IntersectionFacts.
Context {F : Type} `{Float64 F}.
Implicit Types (agg : Agg.t F) (ptl : list (string * list string)).
Implicit Types (tags cur : list string) (key t : string).

(** The loop body of the intersection engine is the loop body of the
    per-tag bucket builder. *)
Lemma interBucketStep_tagBucketStep agg (diffMap : list (Z * Bucket.t)) key :
  interBucketStep agg diffMap key = tagBucketStep agg diffMap key.
Proof.
  unfold interBucketStep, tagBucketStep, countInto, ratingOrNull, emptyBucket.
  destruct (JsMap.get key (Agg.perProblemMeta agg)) as [meta|]; [|done].
  assert (Hr : (if truthyNum (Meta.rating meta) then default 0 (Meta.rating meta) else 0)
               = default 0 (if truthyNum (Meta.rating meta) then Meta.rating meta else None)).
  { by destruct (truthyNum (Meta.rating meta)). }
  rewrite Hr. set (r := default 0 _).
  destruct (JsMap.get r diffMap) as [b|]; simpl;
    by destruct (optSolved (JsMap.get key (Agg.perProblemStatus agg))),
         (optContest (JsMap.get key (Agg.perProblemOrigin agg))),
         (optFailedContest (JsMap.get key (Agg.perProblemStatus agg))).
Qed.

Lemma interFold_tagDiffMap agg (inter : list string) :
  fold_left (interBucketStep agg) inter [] = tagDiffMap agg inter.
Proof.
  unfold tagDiffMap. apply fold_left_ext_in. intros diffMap key _.
  apply interBucketStep_tagBucketStep.
Qed.

Lemma length_zero_nil {A} (l : list A) : (length l =? 0)%nat = true ↔ l = [].
Proof. rewrite Nat.eqb_eq. by destruct l. Qed.

Lemma intersectLoop_some ptl tags cur :
  ∃ r, intersectLoop ptl tags (Some cur) = Some r
       ∧ (NoDup cur → NoDup r)
       ∧ ∀ key, key ∈ r
                ↔ key ∈ cur
                  ∧ ∀ t, t ∈ tags → ∃ set, JsMap.get t ptl = Some set ∧ key ∈ set.
Proof.
  revert cur. induction tags as [|t tags IH]; intros cur; simpl.
  - exists cur. split_and!; [done..|]. intros key. split; [|tauto].
    intros Hk. split; [done|]. intros t Ht. by apply elem_of_nil in Ht.
  - destruct (JsMap.get t ptl) as [set|] eqn:Hset.
    + set (cur' := List.filter (λ val, JsSet.has val set) cur).
      assert (Hcur' : ∀ key, key ∈ cur' ↔ key ∈ cur ∧ key ∈ set).
      { intros key. unfold cur'. rewrite list_elem_of_In, filter_In.
        unfold JsSet.has. rewrite bool_decide_eq_true, <- list_elem_of_In. tauto. }
      assert (Hnd' : NoDup cur → NoDup cur').
      { intros Hnd. apply NoDup_ListNoDup, List.NoDup_filter.
        by apply NoDup_ListNoDup. }
      destruct (length cur' =? 0)%nat eqn:Hlen.
      * apply length_zero_nil in Hlen. exists cur'. split_and!; [done..|].
        intros key. split.
        -- intros Hk. rewrite Hlen in Hk. by apply elem_of_nil in Hk.
        -- intros [Hk Hall]. destruct (Hall t) as (set' & Hset' & Hin);
             [apply list_elem_of_here|].
           rewrite Hset in Hset'. injection Hset' as <-. by apply Hcur'.
      * destruct (IH cur') as (r & -> & Hnd & Hr).
        exists r. split_and!; [done | tauto |].
        intros key. rewrite Hr, Hcur'. split.
        -- intros [[Hk Hs] Hall]. split; [done|]. intros t' Ht'.
           apply elem_of_cons in Ht' as [->|Ht']; [eauto | by apply Hall].
        -- intros [Hk Hall]. split_and!; [done | |].
           ++ destruct (Hall t) as (set' & Hset' & Hin); [apply list_elem_of_here|].
              rewrite Hset in Hset'. by injection Hset' as <-.
           ++ intros t' Ht'. apply Hall. by apply list_elem_of_further.
    + exists []. split_and!; [done | intros; apply NoDup_nil_2 |].
      intros key. split; [intros Hk; by apply elem_of_nil in Hk|].
      intros [_ Hall]. destruct (Hall t) as (set' & Hset' & _);
        [apply list_elem_of_here|]. by rewrite Hset in Hset'.
Qed.

Lemma intersectLoop_none ptl t tags :
  ∃ r, intersectLoop ptl (t :: tags) None = Some r
       ∧ NoDup r
       ∧ ∀ key, key ∈ r
                ↔ ∀ t', t' ∈ t :: tags → ∃ set, JsMap.get t' ptl = Some set ∧ key ∈ set.
Proof.
  simpl. destruct (JsMap.get t ptl) as [set|] eqn:Hset.
  - destruct (length (JsSet.of_list set) =? 0)%nat eqn:Hlen.
    + apply length_zero_nil in Hlen. exists (JsSet.of_list set).
      split_and!; [done | apply JsSetFacts.NoDup_of_list |].
      intros key. split.
      * intros Hk. rewrite Hlen in Hk. by apply elem_of_nil in Hk.
      * intros Hall. destruct (Hall t) as (set' & Hset' & Hin);
          [apply list_elem_of_here|].
        rewrite Hset in Hset'. injection Hset' as <-.
        by apply JsSetFacts.elem_of_of_list.
    + destruct (intersectLoop_some ptl tags (JsSet.of_list set)) as (r & -> & Hnd & Hr).
      exists r. split_and!; [done | apply Hnd, JsSetFacts.NoDup_of_list |].
      intros key. rewrite Hr, JsSetFacts.elem_of_of_list. split.
      * intros [Hk Hall] t' Ht'.
        apply elem_of_cons in Ht' as [->|Ht']; [eauto | by apply Hall].
      * intros Hall. split.
        -- destruct (Hall t) as (set' & Hset' & Hin); [apply list_elem_of_here|].
           rewrite Hset in Hset'. by injection Hset' as <-.
        -- intros t' Ht'. apply Hall. by apply list_elem_of_further.
  - exists []. split_and!; [done | apply NoDup_nil_2 |].
    intros key. split; [intros Hk; by apply elem_of_nil in Hk|].
    intros Hall. destruct (Hall t) as (set' & Hset' & _);
      [apply list_elem_of_here|]. by rewrite Hset in Hset'.
Qed.

(** C5. Intersection engine: for a non-empty list of tags the result is the
    difficulty map that the per-tag bucket builder computes over a
    duplicate-free list holding exactly the keys that belong to the problem
    set of every listed tag; it is the empty map when a listed tag has no
    problem set or no key is common to all. *)
Theorem intersection_buckets agg tags :
  tags ≠ [] →
  ∃ inter,
    NoDup inter
    ∧ (∀ key, key ∈ inter
              ↔ ∀ t, t ∈ tags →
                     ∃ set, JsMap.get t (Agg.perTagProblemList agg) = Some set
                            ∧ key ∈ set)
    ∧ buildIntersectionBuckets tags agg = tagDiffMap agg inter
    ∧ (inter = [] → buildIntersectionBuckets tags agg = [])
    ∧ ((∃ t, t ∈ tags ∧ JsMap.get t (Agg.perTagProblemList agg) = None) →
       buildIntersectionBuckets tags agg = []).
Proof.
  intros Hne. destruct tags as [|t tags]; [done|].
  destruct (intersectLoop_none (Agg.perTagProblemList agg) t tags)
    as (inter & Hloop & Hnd & Hinter).
  assert (Hres : buildIntersectionBuckets (t :: tags) agg = tagDiffMap agg inter).
  { unfold buildIntersectionBuckets. rewrite Hloop.
    destruct (length inter =? 0)%nat eqn:Hlen.
    - apply length_zero_nil in Hlen. by rewrite Hlen.
    - apply interFold_tagDiffMap. }
  exists inter. split_and!; [done..| |].
  - intros ->. by rewrite Hres.
  - intros (t' & Ht' & Hnone). rewrite Hres.
    destruct inter as [|key inter]; [done|]. exfalso.
    destruct (proj1 (Hinter key) (list_elem_of_here _ _) t' Ht') as (set & Hset & _).
    by rewrite Hnone in Hset.
Qed.

End IntersectionFacts.

(** C5, at a sample input. *)
Lemma intersection_buckets_witness :
  ["dp"; "math"] ≠ []
  ∧ ∃ inter,
      buildIntersectionBuckets ["dp"; "math"]
        (freshAggregate (F:=Q) Sample.failThenSolve Sample.catalog)
      = tagDiffMap (freshAggregate (F:=Q) Sample.failThenSolve Sample.catalog) inter.
Proof.
  split; [done|].
  destruct (intersection_buckets
              (freshAggregate (F:=Q) Sample.failThenSolve Sample.catalog)
              ["dp"; "math"]) as (inter & _ & _ & Heq & _); [done|].
  by exists inter.
Defined.

(** The intersection of the sample tags holds the one problem that carries
    both; it is unsolved and untried. *)
Example intersection_buckets_sample :
  buildIntersectionBuckets ["dp"; "math"]
    (freshAggregate (F:=Q) Sample.failThenSolve Sample.catalog)
  = [(1800, Bucket.mk 0 0 0 1 1)].
Proof. vm_compute. reflexivity. Qed.

(** A tag without a problem set empties the intersection. *)
Example intersection_buckets_unknown_tag :
  buildIntersectionBuckets ["dp"; "graphs"]
    (freshAggregate (F:=Q) Sample.failThenSolve Sample.catalog)
  = [].
Proof. vm_compute. reflexivity. Qed.

(** ** Numbers as property names *)

Lemma parseDigits_uint (d : Decimal.uint) (a : Z) :
  parseDigits (NilEmpty.string_of_uint d) (Some a)
  = Some (a * 10 ^ Z.of_N (DecimalPos.Unsigned.usize d)
          + Z.of_N (DecimalPos.Unsigned.of_lu (Decimal.rev d))).
Proof.
  revert a. induction d as [|d IH|d IH|d IH|d IH|d IH|d IH|d IH|d IH|d IH|d IH];
    intros a; [simpl; f_equal; lia|..];
    cbn [NilEmpty.string_of_uint parseDigits]; simpl isDigit; cbv iota;
    rewrite IH; f_equal;
    match goal with
    | |- context [digitVal ?c] =>
        let v := eval vm_compute in (digitVal c) in change (digitVal c) with v
    end;
    match goal with
    | |- context [Decimal.rev (?D d)] =>
        change (Decimal.rev (D d)) with (Decimal.revapp d (D Decimal.Nil))
    end;
    rewrite DecimalPos.Unsigned.of_lu_revapp; cbn [DecimalPos.Unsigned.usize DecimalPos.Unsigned.of_lu default];
    rewrite N2Z.inj_succ, Z.pow_succ_r by lia;
    rewrite N2Z.inj_add, N2Z.inj_mul, N2Z.inj_pow; simpl Z.of_N; unfold id; ring.
Qed.

Lemma parseDigits_start (d : Decimal.uint) :
  d ≠ Decimal.Nil →
  parseDigits (NilEmpty.string_of_uint d) None
  = parseDigits (NilEmpty.string_of_uint d) (Some 0).
Proof. by destruct d. Qed.

Lemma parseDigits_pos (p : positive) :
  parseDigits (NilEmpty.string_of_uint (Pos.to_uint p)) None = Some (Zpos p).
Proof.
  rewrite parseDigits_start by apply DecimalPos.Unsigned.to_uint_nonnil.
  rewrite parseDigits_uint. f_equal.
  rewrite <- DecimalPos.Unsigned.of_uint_alt, DecimalPos.Unsigned.of_to. simpl. lia.
Qed.

Lemma skipSpaces_digit (c : ascii) (s : string) :
  isSpace c = false → skipSpaces (String c s) = String c s.
Proof. intros Hc. simpl. by rewrite Hc. Qed.

Lemma string_of_uint_head (d : Decimal.uint) :
  d ≠ Decimal.Nil →
  ∃ c s, NilEmpty.string_of_uint d = String c s ∧ isDigit c = true.
Proof. destruct d; [done|..]; intros _; eexists _, _; by split. Qed.

Lemma isDigit_not_space c : isDigit c = true → isSpace c = false.
Proof.
  unfold isDigit, isSpace. intros Hd.
  apply andb_true_iff in Hd as [H1 H2].
  apply N.leb_le in H1. apply N.leb_le in H2.
  apply orb_false_iff. split.
  - apply N.eqb_neq. lia.
  - apply andb_false_iff. right. apply N.leb_gt. lia.
Qed.

Lemma isDigit_not_sign c : isDigit c = true → c ≠ "-"%char ∧ c ≠ "+"%char.
Proof. intros Hd. split; intros ->; done. Qed.

Lemma parseInt10_toString (z : Z) : parseInt10 (Number_toString z) = Some z.
Proof.
  unfold Number_toString. destruct z as [|p|p]; [done|..]; simpl.
  - unfold NilZero.string_of_uint.
    pose proof (DecimalPos.Unsigned.to_uint_nonnil p) as Hnn.
    pose proof (parseDigits_pos p) as Hp.
    destruct (string_of_uint_head _ Hnn) as (c & s & Hs & Hc).
    destruct (Pos.to_uint p) eqn:Hu; [done|..];
      unfold parseInt10; rewrite Hs in *; rewrite skipSpaces_digit
        by (by apply isDigit_not_space);
      destruct (isDigit_not_sign c Hc) as [Hm Hpl];
      destruct c as [[|] [|] [|] [|] [|] [|] [|] [|]]; try done.
  - unfold NilZero.string_of_uint.
    pose proof (DecimalPos.Unsigned.to_uint_nonnil p) as Hnn.
    pose proof (parseDigits_pos p) as Hp.
    unfold parseInt10. simpl.
    destruct (Pos.to_uint p) eqn:Hu; [done|..]; by rewrite Hp.
Qed.

Lemma Number_toString_inj (z z' : Z) :
  Number_toString z = Number_toString z' → z = z'.
Proof.
  intros Heq. apply (f_equal parseInt10) in Heq.
  rewrite !parseInt10_toString in Heq. by injection Heq.
Qed.

(** ** Filling a dictionary in a loop *)

Section FoldInsert.
Context {A V : Type} (k : A → string) (v : A → V).
Implicit Types (l : list A) (m : gmap string V).

Lemma foldInsert_notin l m (i : string) :
  i ∉ map k l →
  fold_left (λ obj e, <[k e := v e]> obj) l m !! i = m !! i.
Proof.
  revert m. induction l as [|e l IH]; intros m Hi; simpl; [done|].
  simpl in Hi. apply not_elem_of_cons in Hi as [Hne Hi].
  rewrite IH by done. by rewrite lookup_insert_ne.
Qed.

Lemma foldInsert_in l m (e : A) :
  NoDup (map k l) → e ∈ l →
  fold_left (λ obj e, <[k e := v e]> obj) l m !! k e = Some (v e).
Proof.
  revert m. induction l as [|e' l IH]; intros m Hnd He; simpl.
  - by apply elem_of_nil in He.
  - simpl in Hnd. apply NoDup_cons in Hnd as [Hnotin Hnd].
    apply elem_of_cons in He as [->|He].
    + rewrite foldInsert_notin by done. apply lookup_insert_eq.
    + by apply IH.
Qed.

Lemma foldInsert_to_list l :
  NoDup (map k l) →
  map_to_list (fold_left (λ obj e, <[k e := v e]> obj) l ∅)
  ≡ₚ map (λ e, (k e, v e)) l.
Proof.
  intros Hnd. apply NoDup_Permutation.
  - apply NoDup_map_to_list.
  - apply (NoDup_fmap_1 fst). by rewrite <- list_fmap_compose.
  - intros [i x]. rewrite elem_of_map_to_list, list_elem_of_fmap. split.
    + intros Hix. destruct (decide (i ∈ map k l)) as [Hin|Hnotin].
      * apply list_elem_of_fmap in Hin as (e & -> & He).
        rewrite foldInsert_in in Hix by done. injection Hix as <-. eauto.
      * rewrite foldInsert_notin in Hix by done. by rewrite lookup_empty in Hix.
    + intros (e & [= -> ->] & He). by apply foldInsert_in.
Qed.

End FoldInsert.

Section FoldSet.
Context {A K V : Type} `{EqDecision K} (k : A → K) (v : A → V).
Implicit Types (l : list A) (m : list (K * V)).

Lemma foldSet_notin l m (i : K) :
  i ∉ map k l →
  JsMap.get i (fold_left (λ m e, JsMap.set (k e) (v e) m) l m) = JsMap.get i m.
Proof.
  revert m. induction l as [|e l IH]; intros m Hi; simpl; [done|].
  simpl in Hi. apply not_elem_of_cons in Hi as [Hne Hi].
  rewrite IH by done. by rewrite JsMapFacts.get_set_ne.
Qed.

Lemma foldSet_in l m (e : A) :
  NoDup (map k l) → e ∈ l →
  JsMap.get (k e) (fold_left (λ m e, JsMap.set (k e) (v e) m) l m) = Some (v e).
Proof.
  revert m. induction l as [|e' l IH]; intros m Hnd He; simpl.
  - by apply elem_of_nil in He.
  - simpl in Hnd. apply NoDup_cons in Hnd as [Hnotin Hnd].
    apply elem_of_cons in He as [->|He].
    + rewrite foldSet_notin by done. apply JsMapFacts.get_set_eq.
    + by apply IH.
Qed.

End FoldSet.

(** Rehydrating a dictionary into a [Map] keeps every lookup. *)
Lemma rehydrated_get {V W} (f : string → V → W) (obj : gmap string V) (key : string) :
  JsMap.get key
    (fold_left (λ m e, JsMap.set e.1 (f e.1 e.2) m) (map_to_list obj) [])
  = f key <$> obj !! key.
Proof.
  destruct (obj !! key) as [x|] eqn:Hx; simpl.
  - apply elem_of_map_to_list in Hx.
    apply (foldSet_in fst (λ e, f e.1 e.2) _ [] (key, x)); [|done].
    apply NoDup_fst_map_to_list.
  - rewrite (foldSet_notin fst (λ e, f e.1 e.2)); [done|].
    intros Hin. apply list_elem_of_fmap in Hin as ([i y] & -> & Hin).
    apply elem_of_map_to_list in Hin. simpl in Hx. congruence.
Qed.

(** ** Buckets across the snapshot *)

Lemma bucketKeyOf_toString (r : Z) : bucketKeyOf (Number_toString r) = Some r.
Proof.
  unfold bucketKeyOf. destruct (String.eqb_spec (Number_toString r) "0") as [Heq|_].
  - f_equal. symmetry. by apply Number_toString_inj.
  - apply parseInt10_toString.
Qed.

Lemma bucket_eta (b : Bucket.t) :
  Bucket.mk (Bucket.solvedContest b) (Bucket.solvedPractice b)
    (Bucket.failedContest b) (Bucket.unsolved b) (Bucket.total b) = b.
Proof. by destruct b. Qed.

Section BucketCodec.
Context {F : Type} `{Float64 F}.
Implicit Types (diffMap : list (Z * Bucket.t)) (obj : gmap string Bucket.t).

Lemma toString_keys_NoDup diffMap :
  NoDup (JsMap.keys diffMap) →
  NoDup (map (λ e : Z * Bucket.t, Number_toString e.1) diffMap).
Proof.
  intros Hnd.
  change (NoDup ((Number_toString ∘ fst) <$> diffMap)).
  rewrite (list_fmap_compose fst Number_toString).
  apply NoDup_fmap_2; [|done]. intros r r'. apply Number_toString_inj.
Qed.

Lemma bucketObjOf_lookup diffMap (r : Z) :
  NoDup (JsMap.keys diffMap) →
  bucketObjOf diffMap !! Number_toString r = JsMap.get r diffMap.
Proof.
  intros Hnd. unfold bucketObjOf.
  destruct (JsMap.get r diffMap) as [b|] eqn:Hget.
  - apply JsMapFacts.get_Some_elem in Hget.
    rewrite (foldInsert_in (λ e : Z * Bucket.t, Number_toString e.1) _ _ _ (r, b));
      [|by apply toString_keys_NoDup | done].
    simpl. by rewrite bucket_eta.
  - rewrite foldInsert_notin; [apply lookup_empty|].
    intros Hin. apply list_elem_of_fmap in Hin as ([r' b'] & Heq & Hin).
    apply Number_toString_inj in Heq. simpl in Heq. subst r'.
    apply JsMapFacts.get_None_keys in Hget. apply Hget.
    unfold JsMap.keys. apply list_elem_of_fmap. by exists (r, b').
Qed.

Lemma bucketObjOf_keys diffMap (s : string) :
  is_Some (bucketObjOf diffMap !! s) → ∃ r, s = Number_toString r.
Proof.
  unfold bucketObjOf. intros Hs.
  destruct (decide (s ∈ map (λ e : Z * Bucket.t, Number_toString e.1) diffMap))
    as [Hin|Hnotin].
  - apply list_elem_of_fmap in Hin as (e & -> & _). eauto.
  - rewrite foldInsert_notin, lookup_empty in Hs by done. by destruct Hs.
Qed.

(** Reading a bucket object back gives a [Map] with the same buckets under
    the numbers the property names stand for. *)
Lemma rebuild_get obj (k : option Z) :
  (∀ s, is_Some (obj !! s) → ∃ r, s = Number_toString r) →
  JsMap.get k (rebuildDiffMapFromSnapshot obj)
  = match k with
    | Some r => obj !! Number_toString r
    | None => None
    end.
Proof.
  intros Hkeys. unfold rebuildDiffMapFromSnapshot.
  assert (Hform : ∀ e, e ∈ map_to_list obj → ∃ r, e.1 = Number_toString r).
  { intros [s b] He. apply elem_of_map_to_list in He. apply Hkeys. eauto. }
  assert (Hnd : NoDup (map (λ e : string * Bucket.t, bucketKeyOf e.1) (map_to_list obj))).
  { apply NoDup_fmap_2_strong; [|apply NoDup_map_to_list].
    intros [s b] [s' b'] He He' Heq. simpl in Heq.
    destruct (Hform _ He) as [r Hr], (Hform _ He') as [r' Hr']. simpl in *. subst.
    rewrite !bucketKeyOf_toString in Heq. injection Heq as ->.
    apply elem_of_map_to_list in He, He'. congruence. }
  destruct k as [r|].
  - destruct (obj !! Number_toString r) as [b|] eqn:Hb.
    + apply elem_of_map_to_list in Hb.
      pose proof (foldSet_in (λ e : string * Bucket.t, bucketKeyOf e.1)
                    (λ e, Bucket.mk (Bucket.solvedContest e.2) (Bucket.solvedPractice e.2)
                            (Bucket.failedContest e.2) (Bucket.unsolved e.2)
                            (Bucket.total e.2))
                    _ [] _ Hnd Hb) as Hget.
      simpl in Hget. by rewrite bucketKeyOf_toString, bucket_eta in Hget.
    + rewrite foldSet_notin; [done|]. intros Hin.
      apply list_elem_of_fmap in Hin as ([s b] & Heq & He). simpl in Heq.
      destruct (Hform _ He) as [r' Hr']. simpl in Hr'. subst s.
      rewrite bucketKeyOf_toString in Heq. injection Heq as ->.
      apply elem_of_map_to_list in He. congruence.
  - rewrite foldSet_notin; [done|]. intros Hin.
    apply list_elem_of_fmap in Hin as ([s b] & Heq & He). simpl in Heq.
    destruct (Hform _ He) as [r' Hr']. simpl in Hr'. subst s.
    by rewrite bucketKeyOf_toString in Heq.
Qed.

Lemma tagDiffMap_NoDup (agg : Agg.t F) (set : list string) :
  NoDup (JsMap.keys (tagDiffMap agg set)).
Proof.
  unfold tagDiffMap. induction set as [|key set IH] using rev_ind; [apply NoDup_nil_2|].
  rewrite fold_left_app. simpl. unfold tagBucketStep at 1.
  destruct (JsMap.get key (Agg.perProblemMeta agg)); [|done].
  by apply JsMapFacts.NoDup_keys_set.
Qed.

(** The buckets of a tag survive [bucketObjOf] followed by
    [rebuildDiffMapFromSnapshot]. *)
Lemma buckets_round_trip (agg : Agg.t F) (t : string) (k : option Z) :
  let diffMap := default [] (JsMap.get t (buildAllTagDifficultyBuckets agg)) in
  JsMap.get k (rebuildDiffMapFromSnapshot (bucketObjOf diffMap))
  = match k with
    | Some r => JsMap.get r diffMap
    | None => None
    end.
Proof.
  cbv zeta. rewrite rebuild_get by apply bucketObjOf_keys.
  destruct k as [r|]; [|done]. apply bucketObjOf_lookup.
  rewrite buildAll_get. case_bool_decide; [|apply NoDup_nil_2].
  destruct (JsMap.get t (Agg.perTagProblemList agg)); simpl;
    [apply tagDiffMap_NoDup | apply NoDup_nil_2].
Qed.

End BucketCodec.

(** ** The snapshot round trip *)

Lemma classify_unindexed (idx : list (string * bool)) (subs : list Submission)
    (key : string) :
  JsMap.has key idx = false →
  JsMap.get key (Classified.perProblemStatus (classify idx subs)) = None
  ∧ JsMap.get key (Classified.perProblemOrigin (classify idx subs)) = None.
Proof.
  intros Hidx. unfold classify.
  assert (Hgen : ∀ st,
    JsMap.get key (Classified.perProblemStatus (fold_left (classifyStep idx) subs st))
    = JsMap.get key (Classified.perProblemStatus st)
    ∧ JsMap.get key (Classified.perProblemOrigin (fold_left (classifyStep idx) subs st))
      = JsMap.get key (Classified.perProblemOrigin st)).
  { induction subs as [|sub subs IH]; intros st; simpl; [done|].
    destruct (IH (classifyStep idx st sub)) as [-> ->].
    apply step_untouched. unfold touches. destruct (s_problem sub); [|done].
    by rewrite Hidx, andb_false_r. }
  apply (Hgen Classified.init).
Qed.

Section RoundTrip.
Context {F : Type} `{Float64 F}.
Implicit Types (subs : list Submission) (ps : list Problem) (key t : string).

Lemma snapshot_problems_lookup (now handle : string) subs ps (agg : Agg.t F) key :
  NoDup (JsMap.keys (Agg.perProblemMeta agg)) →
  Snapshot.problems (serialize now handle subs ps agg) !! key
  = snapProblemOf agg key <$> JsMap.get key (Agg.perProblemMeta agg).
Proof.
  intros Hnd. simpl.
  destruct (JsMap.get key (Agg.perProblemMeta agg)) as [m|] eqn:Hget; simpl.
  - apply JsMapFacts.get_Some_elem in Hget.
    by rewrite (foldInsert_in fst (λ e, snapProblemOf agg e.1 e.2) _ _ (key, m)).
  - rewrite foldInsert_notin; [apply lookup_empty|].
    by apply JsMapFacts.get_None_keys in Hget.
Qed.

Lemma snapshot_tags_lookup (now handle : string) subs ps (agg : Agg.t F) t :
  NoDup (map TagStat.tag (Agg.tagArray agg)) →
  SnapTag.difficultyBuckets
    <$> Snapshot.tags (serialize now handle subs ps agg) !! t
  = if bool_decide (t ∈ map TagStat.tag (Agg.tagArray agg))
    then Some (bucketObjOf
                 (default [] (JsMap.get t (buildAllTagDifficultyBuckets agg))))
    else None.
Proof.
  intros Hnd. simpl. case_bool_decide as Hin.
  - apply list_elem_of_fmap in Hin as (stat & -> & Hin).
    by rewrite (foldInsert_in TagStat.tag
                  (snapTagOf (buildAllTagDifficultyBuckets agg)) _ _ stat).
  - rewrite foldInsert_notin by done. by rewrite lookup_empty.
Qed.

Lemma rehydrated_tagArray (now handle : string) subs ps (agg : Agg.t F) :
  NoDup (map TagStat.tag (Agg.tagArray agg)) →
  map numericFields (Agg.tagArray (rehydrate (serialize now handle subs ps agg)))
  ≡ₚ map numericFields (Agg.tagArray agg).
Proof.
  intros Hnd. unfold rehydrate. simpl.
  rewrite (foldInsert_to_list TagStat.tag
             (snapTagOf (buildAllTagDifficultyBuckets agg))) by done.
  rewrite !map_map. apply reflexive_eq. by apply map_ext.
Qed.

(** C1, amended. Round trip of the snapshot: rehydrating the snapshot built
    from the aggregate of a fetch gives, for every tag, one statistic with
    the same numeric fields and the same bucket under every rating, and for
    every problem key the same [solved], [contest] and [practice] flags;
    [failedContest] and [failedPractice] come back as [failedX && !solved]. *)
Theorem snapshot_round_trip (now handle : string) subs ps :
  let X := freshAggregate (F:=F) subs ps in
  let buckets := buildAllTagDifficultyBuckets X in
  let snap := fetchAndBuildSnapshot (F:=F) now handle subs ps in
  let X' := rehydrate snap in
  map numericFields (Agg.tagArray X') ≡ₚ map numericFields (Agg.tagArray X)
  ∧ (∀ t (k : option Z),
       JsMap.get k
         (rebuildDiffMapFromSnapshot
            (default ∅ (SnapTag.difficultyBuckets <$> Snapshot.tags snap !! t)))
       = match k with
         | Some rating => JsMap.get rating (default [] (JsMap.get t buckets))
         | None => None
         end)
  ∧ (∀ key,
       let st := JsMap.get key (Agg.perProblemStatus X) in
       let st' := JsMap.get key (Agg.perProblemStatus X') in
       let og := JsMap.get key (Agg.perProblemOrigin X) in
       let og' := JsMap.get key (Agg.perProblemOrigin X') in
       optSolved st' = optSolved st
       ∧ optContest og' = optContest og
       ∧ optPractice og' = optPractice og
       ∧ optFailedContest st' = optFailedContest st && negb (optSolved st)
       ∧ optFailedPractice st' = optFailedPractice st && negb (optSolved st)).
Proof.
  cbv zeta. unfold fetchAndBuildSnapshot.
  pose proof (freshAggregate_tags_NoDup (F:=F) subs ps) as Htags.
  split_and!.
  - by apply rehydrated_tagArray.
  - intros t k. rewrite snapshot_tags_lookup by done.
    case_bool_decide as Hin; simpl.
    + apply buckets_round_trip.
    + rewrite buildAll_get, bool_decide_eq_false_2 by done. simpl.
      by destruct k.
  - intros key. unfold rehydrate.
    cbn [Agg.perProblemStatus Agg.perProblemOrigin].
    rewrite (rehydrated_get
               (λ _ p, Status.mk (SnapProblem.solved p) (SnapProblem.failedContest p)
                         (SnapProblem.failedPractice p))).
    rewrite (rehydrated_get
               (λ _ p, Origin.mk (SnapProblem.contest p) (SnapProblem.practice p))).
    rewrite snapshot_problems_lookup
      by (rewrite freshAggregate_perProblemMeta; apply buildIndex_NoDup).
    rewrite freshAggregate_perProblemMeta.
    destruct (JsMap.get key (buildIndex ps).1) as [m|] eqn:Hmeta; simpl.
    + rewrite !aggregate_perProblemStatus, !aggregate_perProblemOrigin.
      pose proof (fold_origin_solved (buildIndex ps).2 Classified.init subs key
                    (λ Hinit, Hinit)) as Horigin.
      unfold classify, contestAt, practiceAt, solvedAt in *.
      destruct (optSolved _); simpl; [by rewrite !andb_true_r|].
      rewrite !andb_false_r. simpl in Horigin.
      destruct (optContest _), (optPractice _); simpl in *;
        split_and!; try done; by exfalso; apply Horigin.
    + rewrite !aggregate_perProblemStatus, !aggregate_perProblemOrigin.
      destruct (classify_unindexed (buildIndex ps).2 subs key) as [-> ->]; [|done].
      rewrite buildIndex_probIndex. unfold JsMap.has. by rewrite Hmeta.
Qed.

End RoundTrip.

(** C1 as stated fails: a failure recorded before the accepted submission
    is in the aggregate and not in the rehydrated aggregate. *)
Lemma round_trip_drops_failure :
  let X := freshAggregate (F:=Q) Sample.failThenSolve Sample.catalog in
  let X' := rehydrate
              (fetchAndBuildSnapshot (F:=Q) "2024-01-01T00:00:00.000Z" "tourist"
                 Sample.failThenSolve Sample.catalog) in
  JsMap.get "1-A" (Agg.perProblemStatus X) = Some (Status.mk true true false)
  ∧ JsMap.get "1-A" (Agg.perProblemStatus X') = Some (Status.mk true false false).
Proof. vm_compute. done. Qed.

(** ** Unrated problems *)

Section Unrated.
Context {F : Type} `{Float64 F}.

Lemma buildIndex_last (ps : list Problem) (p : Problem) :
  JsMap.get (probKey (Some p)) (buildIndex (ps ++ [p])).1 = Some (metaOf p).
Proof. rewrite buildIndex_snoc. simpl. apply JsMapFacts.get_set_eq. Qed.

(** C10. Rating normalization: a catalog problem whose rating is missing,
    null or 0 is stored with rating null, and a problem stored that way
    leaves [maxSolved] of every tag, the rating sets and the fail band as
    they were, and is counted in the bucket of rating 0. *)
Theorem unrated_is_ignored (p : Problem) :
  truthyNum (p_rating p) = false →
  let m := metaOf p in
  let key := probKey (Some p) in
  Meta.rating m = None
  ∧ (∀ ps, JsMap.get key (buildIndex (ps ++ [p])).1 = Some m)
  ∧ (∀ (status : option Status.t) (origin : option Origin.t)
       (acc : TagAcc (F:=F)) (t : string),
       let acc' := tagStep key (Meta.rating m) status origin acc t in
       acc_tagRatingsAll acc' = acc_tagRatingsAll acc
       ∧ ∀ t', TagStat.maxSolved (statAt acc' t')
               = TagStat.maxSolved (statAt acc t'))
  ∧ (∀ (agg : Agg.t F) (band : option Z * option Z),
       JsMap.get key (Agg.perProblemMeta agg) = Some m →
       bandStep (Agg.perProblemMeta agg) (Agg.perProblemStatus agg) band key = band)
  ∧ (∀ (agg : Agg.t F) (diffMap : list (Z * Bucket.t)),
       JsMap.get key (Agg.perProblemMeta agg) = Some m →
       tagBucketStep agg diffMap key
       = JsMap.set 0
           (countInto (JsMap.get key (Agg.perProblemStatus agg))
              (JsMap.get key (Agg.perProblemOrigin agg))
              (default emptyBucket (JsMap.get 0 diffMap)))
           diffMap).
Proof.
  intros Hfalsy. cbv zeta.
  assert (Hnull : Meta.rating (metaOf p) = None).
  { simpl. unfold ratingOrNull. by rewrite Hfalsy. }
  split_and!.
  - done.
  - intros ps. apply buildIndex_last.
  - intros status origin acc t. rewrite Hnull, tagStep_eq. simpl.
    split; [done|]. intros t'. unfold statAt. simpl.
    rewrite JsMapFacts.get_set. destruct (decide (t = t')) as [<-|Hne]; [|done].
    simpl. unfold statUpdate. by destruct (optSolved status).
  - intros agg band Hget. unfold bandStep. rewrite Hget, Hnull.
    by destruct (JsMap.get _ (Agg.perProblemStatus agg)).
  - intros agg diffMap Hget. unfold tagBucketStep. by rewrite Hget, Hnull.
Qed.

End Unrated.

(** C10, at a sample input. *)
Lemma unrated_is_ignored_witness :
  truthyNum (p_rating Sample.pZero) = false
  ∧ Meta.rating (metaOf Sample.pZero) = None.
Proof.
  split; [reflexivity|].
  apply (unrated_is_ignored (F:=Q) Sample.pZero). reflexivity.
Defined.

(** ** The cache read *)

Section CacheFacts.
Variable JSON_parse : string → option JsValue.
Variable Date_parse : string → option Z.
Variable Date_ofObject : JsValue → option Z.
Implicit Types (storage : string → option string) (now : Z) (key raw : string).

Local Abbreviation cacheRead := (loadSnapshot JSON_parse Date_parse Date_ofObject).

(** A text that does not parse is a miss. *)
Lemma loadSnapshot_parse_failure storage now key raw :
  storage key = Some raw → JSON_parse raw = None → cacheRead storage now key = None.
Proof.
  intros Hraw Hparse. unfold loadSnapshot, loadSnapshotTry. rewrite Hraw.
  destruct (String.eqb raw ""); [done|]. by rewrite Hparse.
Qed.

(** Nothing stored is a miss. *)
Lemma loadSnapshot_absent storage now key :
  storage key = None → cacheRead storage now key = None.
Proof. intros Hraw. unfold loadSnapshot, loadSnapshotTry. by rewrite Hraw. Qed.

(** What is returned is the parsed text, it carries the current schema
    version, and its age was not found to exceed the time to live. *)
Lemma loadSnapshot_hit storage now key obj :
  cacheRead storage now key = Some obj →
  ∃ raw fields,
    storage key = Some raw ∧ JSON_parse raw = Some obj ∧ obj = JObj fields
    ∧ (∃ q, JsMap.get "schemaVersion" fields = Some (JNum q) ∧ Qeq_bool q 2 = true)
    ∧ gtNumber ((λ t, now - t) <$> dateGetTime Date_parse Date_ofObject
                                     (JsMap.get "generatedAt" fields))
        (CACHE_TTL_HOURS * 3600 * 1000) = false.
Proof.
  unfold loadSnapshot, loadSnapshotTry.
  destruct (storage key) as [raw|]; [|done].
  destruct (String.eqb raw ""); [done|].
  destruct (JSON_parse raw) as [v|] eqn:Hparse; [|done].
  destruct v as [|b|q|s|items|fields]; simpl; try done.
  destruct (JsMap.get "schemaVersion" fields) as [[|b|q|s|items|fields']|] eqn:Hsv;
    simpl; try done.
  destruct (Qeq_bool q 2) eqn:Hq; simpl; [|done].
  destruct (gtNumber _ _) eqn:Hage; [done|].
  intros [= <-]. exists raw, fields. split_and!; try done. eauto.
Qed.

(** A different schema version is a miss. *)
Lemma loadSnapshot_version_mismatch storage now key raw fields :
  storage key = Some raw → JSON_parse raw = Some (JObj fields) →
  notStrictEq2 (JsMap.get "schemaVersion" fields) = true →
  cacheRead storage now key = None.
Proof.
  intros Hraw Hparse Hsv. unfold loadSnapshot, loadSnapshotTry. rewrite Hraw.
  destruct (String.eqb raw ""); [done|]. rewrite Hparse. simpl. by rewrite Hsv.
Qed.

(** An age beyond the time to live is a miss. *)
Lemma loadSnapshot_expired storage now key raw fields (t : Z) :
  storage key = Some raw → JSON_parse raw = Some (JObj fields) →
  dateGetTime Date_parse Date_ofObject (JsMap.get "generatedAt" fields) = Some t →
  CACHE_TTL_HOURS * 3600 * 1000 < now - t →
  cacheRead storage now key = None.
Proof.
  intros Hraw Hparse Htime Hage. unfold loadSnapshot, loadSnapshotTry. rewrite Hraw.
  destruct (String.eqb raw ""); [done|]. rewrite Hparse. simpl.
  destruct (notStrictEq2 _); [done|]. rewrite Htime. simpl.
  apply Z.ltb_lt in Hage. by rewrite Hage.
Qed.

(** C4, the failing case. A stored object with the current schema version
    and no [generatedAt] has no age that is at most six hours: its age is
    [NaN], the comparison [ageMs > ttl] is false, and the object is
    returned at any time. *)
Theorem loadSnapshot_undated storage now key raw fields :
  storage key = Some raw → raw ≠ "" →
  JSON_parse raw = Some (JObj fields) →
  JsMap.get "schemaVersion" fields = Some (JNum 2) →
  JsMap.get "generatedAt" fields = None →
  cacheRead storage now key = Some (JObj fields).
Proof.
  intros Hraw Hne Hparse Hsv Hga. unfold loadSnapshot, loadSnapshotTry.
  rewrite Hraw. destruct (String.eqb_spec raw "") as [->|_]; [done|].
  rewrite Hparse. simpl. by rewrite Hsv, Hga.
Qed.

End CacheFacts.

(** C4, the failing case at a sample store, ten years after any date. *)
Lemma loadSnapshot_undated_witness :
  loadSnapshot Sample.JSON_parse Sample.Date_parse Sample.Date_ofObject
    Sample.storage 315360000000 "cfTagStats:tourist"
  = Some Sample.undated.
Proof.
  apply (loadSnapshot_undated Sample.JSON_parse Sample.Date_parse
           Sample.Date_ofObject Sample.storage 315360000000
           "cfTagStats:tourist" "undated"); [reflexivity | done | reflexivity..].
Defined.

(** At the same store a dated object of that age is a miss. *)
Example loadSnapshot_dated_expired :
  loadSnapshot Sample.JSON_parse Sample.Date_parse Sample.Date_ofObject
    Sample.storage 315360000000 "cfTagStats:petr"
  = None.
Proof. reflexivity. Qed.

(** ** Where ratings come from

    Every rating that shows up in [maxSolved], in the fail band or as the
    key of a bucket other than 0 is the stored rating of a problem of the
    tag; a problem stored without a rating is counted in bucket 0. *)

Section RatingSources.
Context {F : Type} `{Float64 F}.
Implicit Types (subs : list Submission) (ps : list Problem) (t key : string).

Lemma runWork_maxSolved_rated (cls : Classified.t)
    (l : list (string * Meta.t * string)) t (r : Z) :
  TagStat.maxSolved (statAt (runWork (F:=F) cls l) t) = Some r →
  r ∈ ratedRatings t l.
Proof.
  unfold statAt. induction l as [|w l IH] using rev_ind; [done|].
  rewrite runWork_snoc, workStep_stats, ratedRatings_snoc, elem_of_app.
  destruct (decide (w.2 = t)) as [Heq|Hne]; [|by left; apply IH].
  simpl. unfold statUpdate.
  destruct (optSolved _); [|by left; apply IH].
  unfold solvedUpdate. cbn [TagStat.maxSolved incTotalAvailable].
  destruct (Meta.rating w.1.2) as [r0|] eqn:Hr0; [|by left; apply IH].
  destruct (truthyNum (Some r0)) eqn:Htruthy; [|by left; apply IH].
  rewrite bool_decide_eq_true_2 by done. simpl.
  destruct (TagStat.maxSolved _) as [m|] eqn:Hm.
  - destruct (m <? r0); intros [= <-].
    + right. apply list_elem_of_here.
    + left. by apply IH.
  - intros [= <-]. right. apply list_elem_of_here.
Qed.

Lemma aggregate_maxSolved_rated subs ps :
  Forall (λ stat, ∀ r, TagStat.maxSolved stat = Some r →
                       ratedIn (aggregate (F:=F) subs ps) (TagStat.tag stat) r)
    (Agg.tagArray (aggregate (F:=F) subs ps)).
Proof.
  apply Forall_forall. intros stat Hin r.
  apply aggregate_tagArray_elem in Hin as (t & _ & ->). simpl.
  destruct (runWork_stat_basic (F:=F) (classify (buildIndex ps).2 subs)
              (workItems (buildIndex ps).1) t) as (Htag & _).
  fold (aggregateAcc (F:=F) subs ps) in Htag. rewrite Htag.
  intros Hmax. apply runWork_maxSolved_rated in Hmax.
  apply aggregateAcc_rated. unfold aggregateAcc.
  by rewrite runWork_tra, JsSetFacts.elem_of_of_list.
Qed.

(** Both ends of a fail band are ratings of stored, rated problems of the
    scanned set. *)
Lemma bandFold_rated (meta : list (string * Meta.t))
    (status : list (string * Status.t)) (set : list string) :
  let band := fold_left (bandStep meta status) set (None, None) in
  ∀ r, band.1 = Some r ∨ band.2 = Some r →
       ∃ key m, key ∈ set ∧ JsMap.get key meta = Some m ∧ Meta.rating m = Some r.
Proof.
  cbv zeta. induction set as [|key set IH] using rev_ind.
  - intros r [Hr|Hr]; done.
  - rewrite fold_left_app. simpl.
    set (band := fold_left (bandStep meta status) set (None, None)) in *.
    assert (Hold : ∀ r, band.1 = Some r ∨ band.2 = Some r →
              ∃ key' m, key' ∈ set ++ [key] ∧ JsMap.get key' meta = Some m
                        ∧ Meta.rating m = Some r).
    { intros r Hr. destruct (IH r Hr) as (key' & m & Hin & Hget & Hrat).
      exists key', m. split_and!; [|done..]. apply elem_of_app. by left. }
    unfold bandStep.
    destruct (JsMap.get key meta) as [m|] eqn:Hget; [|done].
    destruct (JsMap.get key status) as [st|]; [|done].
    destruct (Meta.rating m) as [r0|] eqn:Hr0; [|done].
    destruct (negb (Status.solved st) && Status.failedContest st
              && truthyNum (Some r0)); [|done].
    assert (Hnew : ∃ key' m', key' ∈ set ++ [key] ∧ JsMap.get key' meta = Some m'
                              ∧ Meta.rating m' = Some r0).
    { exists key, m. split_and!; [|done..]. apply elem_of_app. right.
      apply list_elem_of_here. }
    intros r [Hr|Hr]; simpl in Hr.
    + destruct band.1 as [mn|] eqn:Hmn.
      * destruct (r0 <? mn); injection Hr as <-; [done|]. apply Hold. by left.
      * by injection Hr as <-.
    + destruct band.2 as [mx|] eqn:Hmx.
      * destruct (mx <? r0); injection Hr as <-; [done|]. apply Hold. by right.
      * by injection Hr as <-.
Qed.

(** The total of the bucket of rating [r] counts the keys of the set that
    are stored with that rating, rating 0 standing for none. *)
Lemma tagDiffMap_total (agg : Agg.t F) (set : list string) (r : Z) :
  Bucket.total (default emptyBucket (JsMap.get r (tagDiffMap agg set)))
  = Z.of_nat (length (List.filter
                        (λ key, bool_decide (bucketOf agg key = Some r)) set)).
Proof.
  unfold tagDiffMap. induction set as [|key set IH] using rev_ind; [done|].
  rewrite fold_left_app, List.filter_app, length_app. simpl.
  unfold tagBucketStep at 1.
  destruct (JsMap.get key (Agg.perProblemMeta agg)) as [m|] eqn:Hget.
  - assert (Hb : bucketOf agg key = Some (default 0 (ratingOrNull (Meta.rating m))))
      by (unfold bucketOf; by rewrite Hget).
    rewrite Hb, JsMapFacts.get_set.
    destruct (decide (default 0 (ratingOrNull (Meta.rating m)) = r)) as [Heq|Hne].
    + rewrite bool_decide_eq_true_2 by (by rewrite Heq). simpl.
      rewrite countInto_total, Heq, IH. lia.
    + rewrite bool_decide_eq_false_2 by (intros [= ?]; done). simpl.
      rewrite IH. lia.
  - assert (Hb : bucketOf agg key = None) by (unfold bucketOf; by rewrite Hget).
    rewrite Hb, IH. simpl. lia.
Qed.

End RatingSources.

(** ** Problem sets of the aggregate *)

Section ProblemSets.
Context {F : Type} `{Float64 F}.

(** The problem set of a tag holds the keys of the stored problems that
    carry the tag, so that the keys common to the problem sets of two tags
    are the problems tagged with both. *)
Lemma aggregate_problem_set (subs : list Submission) (ps : list Problem)
    (t : string) (set : list string) :
  JsMap.get t (Agg.perTagProblemList (aggregate (F:=F) subs ps)) = Some set →
  ∀ key, key ∈ set
         ↔ ∃ m, JsMap.get key (Agg.perProblemMeta (aggregate (F:=F) subs ps)) = Some m
                ∧ t ∈ Meta.tags m.
Proof.
  rewrite aggregate_perTagProblemList, aggregate_perProblemMeta.
  unfold aggregateAcc. rewrite runWork_ptl.
  destruct (occurrences t (workItems (buildIndex ps).1)) as [|k o] eqn:Ho; [done|].
  intros [= <-] key. rewrite JsSetFacts.elem_of_of_list, <- Ho, elem_of_occurrences.
  split; intros (m & Hm & Ht); exists m; split; try done.
  - apply JsMapFacts.elem_get_NoDup; [apply buildIndex_NoDup | done].
  - by apply JsMapFacts.get_Some_elem.
Qed.

End ProblemSets.

(** ** The scenarios of the specification *)

(** One problem [A-1] tagged [dp], rating 1500, accepted in a contest. *)
Example scenario_accepted :
  map (λ stat, (TagStat.tag stat, TagStat.totalAvailable stat, TagStat.solved stat,
                TagStat.solvedContest stat, TagStat.solvedPractice stat,
                TagStat.solvePercent stat, TagStat.maxSolved stat,
                TagStat.nextTargetDifficulty stat))
    (Agg.tagArray
       (freshAggregate (F:=Q) [Sample.sub Sample.pA1 "OK" (Some 5)] [Sample.pA1]))
  = [("dp", 1, 1, 1, 0, 1%Q, Some 1500, None)].
Proof. vm_compute. reflexivity. Qed.

(** The same problem, with a wrong answer in a contest and nothing else. *)
Example scenario_wrong_answer :
  let agg := freshAggregate (F:=Q)
               [Sample.sub Sample.pA1 "WRONG_ANSWER" (Some 5)] [Sample.pA1] in
  map (λ stat, (TagStat.solved stat, TagStat.minFailedDifficulty stat,
                TagStat.maxFailedDifficulty stat, TagStat.failSpan stat))
    (Agg.tagArray agg)
  = [(0, Some 1500, Some 1500, Some 0)]
  ∧ buildAllTagDifficultyBuckets agg = [("dp", [(1500, Bucket.mk 0 0 1 0 1)])].
Proof. vm_compute. done. Qed.

(** A problem accepted in practice and in a contest counts once, on the
    contest side; the next target of [dp] is the rating of the unsolved
    problem above it. *)
Example scenario_both_origins :
  let agg := aggregate (F:=Q)
               [Sample.sub Sample.pA "OK" None; Sample.sub Sample.pA "OK" (Some 1)]
               Sample.catalog in
  JsMap.get "1-A" (Agg.perProblemOrigin agg) = Some (Origin.mk true true)
  ∧ map (λ stat, (TagStat.tag stat, TagStat.solved stat, TagStat.solvedContest stat,
                  TagStat.solvedPractice stat, TagStat.maxSolved stat,
                  TagStat.nextTargetDifficulty stat))
      (Agg.tagArray agg)
    = [("dp", 1, 1, 0, Some 1500, Some 1800); ("math", 0, 0, 0, None, None)].
Proof. vm_compute. done. Qed.

(** * Further properties *)

(** ** The classifier, submission by submission *)

Lemma classifyStep_irrelevant (idx : list (string * bool)) st sub :
  relevant idx sub = false → classifyStep idx st sub = st.
Proof.
  unfold relevant, classifyStep. destruct (s_problem sub) as [pr|]; [|done].
  by intros ->.
Qed.

(** X1. Submissions without a problem, and submissions for a problem that
    is not in the catalog, leave no trace: the classification of a list of
    submissions is the classification of its relevant ones. *)
Theorem classify_ignores_irrelevant (idx : list (string * bool))
    (subs : list Submission) :
  classify idx subs = classify idx (List.filter (relevant idx) subs).
Proof.
  unfold classify. generalize Classified.init.
  induction subs as [|sub subs IH]; intros st; simpl; [done|].
  destruct (relevant idx sub) eqn:Hrel; simpl.
  - apply IH.
  - rewrite classifyStep_irrelevant by done. apply IH.
Qed.

Lemma step_solvedProblems (idx : list (string * bool)) st sub key :
  key ∈ Classified.solvedProblems (classifyStep idx st sub)
  ↔ key ∈ Classified.solvedProblems st
    ∨ touches idx key sub && isAccepted sub = true.
Proof.
  unfold classifyStep, touches, isAccepted.
  destruct (s_problem sub) as [pr|]; [|simpl; intuition discriminate].
  generalize (probKey (Some pr)). intros k.
  destruct (JsMap.has k idx) eqn:Hidx; simpl.
  - destruct (String.eqb (s_verdict sub) "OK"); simpl.
    + rewrite JsSetFacts.elem_of_add, andb_true_r.
      case_bool_decide as Hk; simpl.
      * subst key. rewrite Hidx. intuition.
      * split; [intros [->|?]; [done | by left] | intros [?|?]; [by right | done]].
    + rewrite andb_false_r. intuition discriminate.
  - case_bool_decide as Hk; simpl.
    + subst key. rewrite Hidx. simpl. intuition discriminate.
    + intuition discriminate.
Qed.

Lemma fold_solvedProblems (idx : list (string * bool)) st l :
  NoDup (Classified.solvedProblems st) →
  (∀ key, key ∈ Classified.solvedProblems st ↔ solvedAt st key = true) →
  NoDup (Classified.solvedProblems (fold_left (classifyStep idx) l st))
  ∧ ∀ key, key ∈ Classified.solvedProblems (fold_left (classifyStep idx) l st)
           ↔ solvedAt (fold_left (classifyStep idx) l st) key = true.
Proof.
  revert st. induction l as [|sub l IH]; intros st Hnd Hst; simpl; [done|].
  apply IH.
  - unfold classifyStep. destruct (s_problem sub) as [pr|]; [|done].
    destruct (negb _); [done|]. destruct (String.eqb _ _); simpl; [|done].
    by apply JsSetFacts.NoDup_add.
  - intros key. rewrite step_solvedProblems, step_solvedAt, orb_true_iff.
    by rewrite Hst.
Qed.

Lemma classify_solvedProblems (idx : list (string * bool)) subs :
  NoDup (Classified.solvedProblems (classify idx subs))
  ∧ ∀ key, key ∈ Classified.solvedProblems (classify idx subs)
           ↔ solvedAt (classify idx subs) key = true.
Proof.
  apply fold_solvedProblems; [apply NoDup_nil_2|].
  intros key. simpl. rewrite elem_of_nil. unfold solvedAt. simpl. intuition discriminate.
Qed.

Section SolvedSet.
Context {F : Type} `{Float64 F}.

Lemma aggregate_solvedProblems subs ps :
  Agg.solvedProblems (aggregate (F:=F) subs ps)
  = Classified.solvedProblems (classify (buildIndex ps).2 subs).
Proof. unfold aggregate. by destruct (buildIndex ps). Qed.

(** X2. [solvedProblems] lists every problem once, and it lists exactly
    the problems whose status says solved; each of them is a problem of
    the catalog. *)
Theorem solvedProblems_agree_with_status subs ps :
  let agg := aggregate (F:=F) subs ps in
  NoDup (Agg.solvedProblems agg)
  ∧ (∀ key, key ∈ Agg.solvedProblems agg
            ↔ optSolved (JsMap.get key (Agg.perProblemStatus agg)) = true)
  ∧ Forall (λ key, JsMap.has key (Agg.perProblemMeta agg) = true)
      (Agg.solvedProblems agg).
Proof.
  intros agg. unfold agg.
  rewrite aggregate_solvedProblems, aggregate_perProblemStatus, aggregate_perProblemMeta.
  destruct (classify_solvedProblems (buildIndex ps).2 subs) as [Hnd Hin].
  split_and!; [done | apply Hin |].
  apply Forall_forall. intros key Hkey. apply Hin in Hkey.
  rewrite <- buildIndex_probIndex.
  destruct (JsMap.has key (buildIndex ps).2) eqn:Hidx; [done|].
  destruct (classify_unindexed (buildIndex ps).2 subs key Hidx) as [Hs _].
  unfold solvedAt in Hkey. by rewrite Hs in Hkey.
Qed.

End SolvedSet.

(** ** When a failure is recorded *)

Section FailureOrder.
Variable idx : list (string * bool).

Lemma fold_failedContestAt st l key :
  failedContestAt (fold_left (classifyStep idx) l st) key
  = failedContestAt st key
    || (negb (solvedAt st key)
        && failsBeforeAccepted
             (λ sub, touches idx key sub && isAccepted sub)
             (λ sub, touches idx key sub && isFailure sub && isContest sub) l).
Proof.
  revert st. induction l as [|sub l IH]; intros st; simpl.
  - by rewrite andb_false_r, orb_false_r.
  - rewrite IH, step_failedContestAt, step_solvedAt. unfold isFailure.
    destruct (failedContestAt st key), (solvedAt st key), (touches idx key sub),
      (isAccepted sub), (JsSet.has (s_verdict sub) contestFailVerdicts),
      (isContest sub); simpl; try done.
Qed.

Lemma fold_failedPracticeAt st l key :
  failedPracticeAt (fold_left (classifyStep idx) l st) key
  = failedPracticeAt st key
    || (negb (solvedAt st key)
        && failsBeforeAccepted
             (λ sub, touches idx key sub && isAccepted sub)
             (λ sub, touches idx key sub && isFailure sub && negb (isContest sub)) l).
Proof.
  revert st. induction l as [|sub l IH]; intros st; simpl.
  - by rewrite andb_false_r, orb_false_r.
  - rewrite IH, step_failedPracticeAt, step_solvedAt. unfold isFailure.
    destruct (failedPracticeAt st key), (solvedAt st key), (touches idx key sub),
      (isAccepted sub), (JsSet.has (s_verdict sub) contestFailVerdicts),
      (isContest sub); simpl; try done.
Qed.

End FailureOrder.

Lemma failsBeforeAccepted_split (accepted fails : Submission → bool)
    (l : list Submission) :
  (∀ sub, fails sub = true → accepted sub = false) →
  failsBeforeAccepted accepted fails l = true
  ↔ ∃ l1 sub l2, l = l1 ++ sub :: l2 ∧ fails sub = true
                 ∧ Forall (λ s, accepted s = false) l1.
Proof.
  intros Hfa. induction l as [|x l IH]; simpl.
  - split; [done|]. intros (l1 & sub & l2 & Heq & _). by destruct l1.
  - destruct (accepted x) eqn:Hx.
    + split; [done|]. intros (l1 & sub & l2 & Heq & Hf & Hall).
      destruct l1 as [|y l1]; simplify_eq/=.
      * apply Hfa in Hf. congruence.
      * apply Forall_cons in Hall as [Hy _]. congruence.
    + rewrite orb_true_iff, IH. split.
      * intros [Hf | (l1 & sub & l2 & -> & Hf & Hall)].
        -- by exists [], x, l.
        -- exists (x :: l1), sub, l2. split_and!; [done | done |].
           by apply Forall_cons.
      * intros (l1 & sub & l2 & Heq & Hf & Hall).
        destruct l1 as [|y l1]; simplify_eq/=; [by left|].
        right. apply Forall_cons in Hall as [_ Hall]. by exists l1, sub, l2.
Qed.

Lemma existsb_filter {A} (f g : A → bool) (l : list A) :
  (∀ x, f x = true → g x = true) →
  existsb f (List.filter g l) = existsb f l.
Proof.
  intros Hfg. induction l as [|x l IH]; simpl; [done|].
  destruct (g x) eqn:Hg; simpl; [by rewrite IH|].
  destruct (f x) eqn:Hf; [|done]. apply Hfg in Hf. congruence.
Qed.

Lemma failsBeforeAccepted_filter (accepted fails g : Submission → bool)
    (l : list Submission) :
  (∀ x, accepted x = true → g x = true) →
  (∀ x, fails x = true → g x = true) →
  failsBeforeAccepted accepted fails (List.filter g l)
  = failsBeforeAccepted accepted fails l.
Proof.
  intros Ha Hf. induction l as [|x l IH]; simpl; [done|].
  destruct (g x) eqn:Hg; simpl; [by rewrite IH|].
  destruct (accepted x) eqn:Hx; [apply Ha in Hx; congruence|].
  destruct (fails x) eqn:Hfx; [apply Hf in Hfx; congruence|].
  done.
Qed.

Section FailureFlags.
Context {F : Type} `{Float64 F}.

(** X3. A failure flag is raised exactly when a failing submission for the
    problem, of that origin, stands in the list before every accepted
    submission for the problem. *)
Theorem failure_recorded_before_first_accept subs ps key :
  let idx := (buildIndex ps).2 in
  let st := JsMap.get key (Agg.perProblemStatus (aggregate (F:=F) subs ps)) in
  let before (contest : bool) :=
    ∃ l1 sub l2,
      subs = l1 ++ sub :: l2
      ∧ touches idx key sub && isFailure sub && eqb (isContest sub) contest = true
      ∧ Forall (λ s, touches idx key s && isAccepted s = false) l1 in
  (optFailedContest st = true ↔ before true)
  ∧ (optFailedPractice st = true ↔ before false).
Proof.
  intros idx st before. unfold st, before.
  rewrite aggregate_perProblemStatus. fold idx.
  change (optFailedContest (JsMap.get key
            (Classified.perProblemStatus (classify idx subs))))
    with (failedContestAt (classify idx subs) key).
  change (optFailedPractice (JsMap.get key
            (Classified.perProblemStatus (classify idx subs))))
    with (failedPracticeAt (classify idx subs) key).
  unfold classify. rewrite fold_failedContestAt, fold_failedPracticeAt.
  change (failedContestAt Classified.init key) with false.
  change (failedPracticeAt Classified.init key) with false.
  change (solvedAt Classified.init key) with false. simpl.
  split.
  - rewrite failsBeforeAccepted_split.
    + split; intros (l1 & sub & l2 & Heq & Hf & Hall); exists l1, sub, l2;
        (split_and!; [done | | done]); revert Hf; unfold isFailure;
        destruct (touches idx key sub), (isAccepted sub), (JsSet.has _ _),
          (isContest sub); simpl; done.
    + intros sub. unfold isFailure.
      by destruct (touches idx key sub), (isAccepted sub).
  - rewrite failsBeforeAccepted_split.
    + split; intros (l1 & sub & l2 & Heq & Hf & Hall); exists l1, sub, l2;
        (split_and!; [done | | done]); revert Hf; unfold isFailure;
        destruct (touches idx key sub), (isAccepted sub), (JsSet.has _ _),
          (isContest sub); simpl; done.
    + intros sub. unfold isFailure.
      by destruct (touches idx key sub), (isAccepted sub).
Qed.

(** X4. A submission whose verdict is neither accepted nor one of the
    failure verdicts (a verdict still in testing, say) changes no flag of
    any problem: dropping all such submissions gives the same five
    flags. *)
Theorem unrecognised_verdicts_change_no_flag subs ps key :
  let kept := List.filter recognised subs in
  let st := JsMap.get key (Agg.perProblemStatus (aggregate (F:=F) subs ps)) in
  let st' := JsMap.get key (Agg.perProblemStatus (aggregate (F:=F) kept ps)) in
  let og := JsMap.get key (Agg.perProblemOrigin (aggregate (F:=F) subs ps)) in
  let og' := JsMap.get key (Agg.perProblemOrigin (aggregate (F:=F) kept ps)) in
  optSolved st' = optSolved st
  ∧ optContest og' = optContest og
  ∧ optPractice og' = optPractice og
  ∧ optFailedContest st' = optFailedContest st
  ∧ optFailedPractice st' = optFailedPractice st.
Proof.
  intros kept st st' og og'. unfold st, st', og, og', kept.
  rewrite !aggregate_perProblemStatus, !aggregate_perProblemOrigin.
  set (idx := (buildIndex ps).2).
  pose proof (fold_solvedAt idx Classified.init) as Hs.
  pose proof (fold_contestAt idx Classified.init) as Hc.
  pose proof (fold_practiceAt idx Classified.init) as Hp.
  pose proof (fold_failedContestAt idx Classified.init) as Hfc.
  pose proof (fold_failedPracticeAt idx Classified.init) as Hfp.
  unfold solvedAt, contestAt, practiceAt, failedContestAt, failedPracticeAt in *.
  unfold classify. rewrite !Hfc, !Hfp, !Hs, !Hc, !Hp.
  assert (Hacc : ∀ b (x : Submission), b && isAccepted x = true → recognised x = true).
  { intros b x. unfold recognised. by destruct b, (isAccepted x). }
  assert (Hfail : ∀ b c (x : Submission),
             b && isFailure x && c = true → recognised x = true).
  { intros b c x. unfold recognised.
    destruct b, (isFailure x), c; simpl; try done; by rewrite orb_true_r. }
  rewrite !existsb_filter, !failsBeforeAccepted_filter; try done.
  - intros x. apply Hacc.
  - intros x. apply Hfail.
  - intros x. apply Hacc.
  - intros x. apply Hfail.
  - intros x. destruct (isContest x); simpl; [by rewrite andb_false_r|].
    rewrite andb_true_r. apply Hacc.
  - intros x. destruct (isContest x); simpl; [|by rewrite andb_false_r].
    rewrite andb_true_r. apply Hacc.
  - intros x. apply Hacc.
Qed.

End FailureFlags.

(** ** The keys of the two per-problem maps *)

Lemma has_keys {K V} `{EqDecision K} (k : K) (m : list (K * V)) :
  JsMap.has k m = bool_decide (k ∈ JsMap.keys m).
Proof.
  unfold JsMap.has. destruct (JsMap.get k m) eqn:Hget.
  - symmetry. apply bool_decide_eq_true_2.
    destruct (decide (k ∈ JsMap.keys m)) as [|Hn]; [done|].
    apply JsMapFacts.get_None_keys in Hn. congruence.
  - symmetry. apply bool_decide_eq_false_2. by apply JsMapFacts.get_None_keys.
Qed.

Lemma keys_set_add {K V} `{EqDecision K} (k : K) (v : V) (m : list (K * V)) :
  JsMap.keys (JsMap.set k v m) = JsSet.add k (JsMap.keys m).
Proof. rewrite JsMapFacts.keys_set, has_keys. done. Qed.

Lemma step_same_keys (idx : list (string * bool)) st sub :
  JsMap.keys (Classified.perProblemOrigin st)
  = JsMap.keys (Classified.perProblemStatus st) →
  JsMap.keys (Classified.perProblemOrigin (classifyStep idx st sub))
  = JsMap.keys (Classified.perProblemStatus (classifyStep idx st sub)).
Proof.
  intros Hst. unfold classifyStep. destruct (s_problem sub) as [pr|]; [|done].
  destruct (negb _); [done|].
  destruct (String.eqb _ _); simpl; rewrite !keys_set_add; by rewrite Hst.
Qed.

Lemma fold_same_keys (idx : list (string * bool)) l st :
  JsMap.keys (Classified.perProblemOrigin st)
  = JsMap.keys (Classified.perProblemStatus st) →
  NoDup (JsMap.keys (Classified.perProblemStatus st)) →
  JsMap.keys (Classified.perProblemOrigin (fold_left (classifyStep idx) l st))
  = JsMap.keys (Classified.perProblemStatus (fold_left (classifyStep idx) l st))
  ∧ NoDup (JsMap.keys
             (Classified.perProblemStatus (fold_left (classifyStep idx) l st))).
Proof.
  revert st. induction l as [|sub l IH]; intros st Hst Hnd; simpl; [done|].
  apply IH; [by apply step_same_keys|].
  unfold classifyStep. destruct (s_problem sub) as [pr|]; [|done].
  destruct (negb _); [done|].
  destruct (String.eqb _ _); simpl; by apply JsMapFacts.NoDup_keys_set.
Qed.

Section ClassifiedKeys.
Context {F : Type} `{Float64 F}.

(** X5. The origin map and the status map always hold the same problems in
    the same order, each once: those problems of the catalog for which a
    submission was seen, whatever its verdict. *)
Theorem origin_and_status_share_keys subs ps :
  let agg := aggregate (F:=F) subs ps in
  JsMap.keys (Agg.perProblemOrigin agg) = JsMap.keys (Agg.perProblemStatus agg)
  ∧ NoDup (JsMap.keys (Agg.perProblemStatus agg))
  ∧ ∀ key, key ∈ JsMap.keys (Agg.perProblemStatus agg)
           ↔ existsb (touches (buildIndex ps).2 key) subs = true.
Proof.
  intros agg. unfold agg.
  rewrite aggregate_perProblemStatus, aggregate_perProblemOrigin.
  set (idx := (buildIndex ps).2). unfold classify.
  destruct (fold_same_keys idx subs Classified.init) as [Hk Hnd];
    [done | apply NoDup_nil_2 |].
  split_and!; [done | done |].
  intros key. pose proof (fold_has_status idx Classified.init subs key) as Hh.
  rewrite has_keys in Hh. simpl in Hh. rewrite <- Hh.
  by rewrite bool_decide_eq_true.
Qed.

End ClassifiedKeys.

(** ** Duplicate catalog entries *)

Lemma buildIndex_last_entry_keys (ps : list Problem) :
  JsMap.keys (buildIndex ps).1 = JsSet.of_list (map (λ p, probKey (Some p)) ps).
Proof.
  induction ps as [|p ps IH] using rev_ind; [done|].
  rewrite buildIndex_snoc. unfold indexStep. cbn [fst].
  rewrite keys_set_add, IH, map_app. simpl. by rewrite of_list_snoc.
Qed.

(** X6. When the catalog lists a problem key more than once, the index
    keeps the facts of the last such entry at the position of the first:
    a lookup returns the last entry with that key, and the keys come in
    the order of their first occurrence. *)
Theorem buildIndex_last_entry_wins (ps : list Problem) :
  (∀ key, JsMap.get key (buildIndex ps).1
          = metaOf <$> List.find (λ p, bool_decide (probKey (Some p) = key))
                         (List.rev ps))
  ∧ JsMap.keys (buildIndex ps).1 = JsSet.of_list (map (λ p, probKey (Some p)) ps)
  ∧ JsMap.keys (buildIndex ps).2 = JsMap.keys (buildIndex ps).1.
Proof.
  induction ps as [|p ps (IHget & IHkeys & IHidx)] using rev_ind; [done|].
  rewrite buildIndex_snoc. unfold indexStep. cbn [fst snd]. split_and!.
  - intros key. rewrite JsMapFacts.get_set, rev_unit. cbn [List.find].
    case_bool_decide as Hk; [by rewrite decide_True | rewrite decide_False by done].
    apply IHget.
  - rewrite keys_set_add, IHkeys, map_app. simpl. by rewrite of_list_snoc.
  - rewrite !keys_set_add. by rewrite IHidx.
Qed.

(** ** Problem keys *)

Lemma split_at_dash (s1 s2 t1 t2 : string) :
  Forall (λ c, c ≠ "-"%char) (list_ascii_of_string s1) →
  Forall (λ c, c ≠ "-"%char) (list_ascii_of_string s2) →
  s1 +:+ String "-" t1 = s2 +:+ String "-" t2 → s1 = s2 ∧ t1 = t2.
Proof.
  revert s2. induction s1 as [|c s1 IH]; intros [|d s2] H1 H2 Heq; simpl in *.
  - by simplify_eq.
  - simplify_eq. by apply Forall_cons in H2 as [? _].
  - simplify_eq. by apply Forall_cons in H1 as [? _].
  - apply Forall_cons in H1 as [_ H1]. apply Forall_cons in H2 as [_ H2].
    injection Heq as -> Heq. destruct (IH s2 H1 H2 Heq) as [-> ->]. done.
Qed.

Lemma string_of_uint_no_dash (d : Decimal.uint) :
  Forall (λ c, c ≠ "-"%char) (list_ascii_of_string (NilEmpty.string_of_uint d)).
Proof.
  induction d; simpl; [apply Forall_nil_2 | by apply Forall_cons..].
Qed.

Lemma Number_toString_pos_no_dash (z : Z) :
  0 < z → Forall (λ c, c ≠ "-"%char) (list_ascii_of_string (Number_toString z)).
Proof.
  intros Hz. destruct z as [|p|p]; [lia| |lia].
  unfold Number_toString. simpl. unfold NilZero.string_of_uint.
  pose proof (string_of_uint_no_dash (Pos.to_uint p)) as Hd.
  destruct (Pos.to_uint p); [by apply Forall_cons | done..].
Qed.

Lemma probKey_contest (p : Problem) (c : Z) :
  p_contestId p = Some c → c ≠ 0 →
  probKey (Some p) = Number_toString c +:+ String "-" (p_index p).
Proof.
  intros Hc Hnz. unfold probKey, contestOrSet. rewrite Hc. simpl.
  destruct (c =? 0) eqn:Hz; [apply Z.eqb_eq in Hz; done | done].
Qed.

(** X7. Two catalog problems that carry a positive contest id get the same
    key only when they agree on the contest id and on the index: the key
    of such a problem determines both. *)
Theorem probKey_contest_injective (p q : Problem) (c d : Z) :
  p_contestId p = Some c → p_contestId q = Some d → 0 < c → 0 < d →
  probKey (Some p) = probKey (Some q) →
  c = d ∧ p_index p = p_index q.
Proof.
  intros Hp Hq Hc Hd Heq.
  rewrite (probKey_contest p c), (probKey_contest q d) in Heq by (done || lia).
  apply split_at_dash in Heq as [Hn Hi]; try by apply Number_toString_pos_no_dash.
  split; [by apply Number_toString_inj | done].
Qed.

Lemma probKey_contest_injective_witness :
  1 = 1 ∧ p_index Sample.pA = "A".
Proof.
  apply (probKey_contest_injective Sample.pA
           (mkProblem (Some 1) (Some "acmsguru") "A" None None None) 1 1);
    [reflexivity | reflexivity | lia | lia | reflexivity].
Defined.

(** ** What the counters of a tag count *)

Section CounterFacts.
Context {F : Type} `{Float64 F}.
Implicit Types (subs : list Submission) (ps : list Problem) (t key : string).
Implicit Types (cls : Classified.t) (l : list (string * Meta.t * string)).

Lemma runWork_counts cls l t :
  let s := statAt (runWork (F:=F) cls l) t in
  let occ := occurrences t l in
  TagStat.solved s = Z.of_nat (length (List.filter (solvedAt cls) occ))
  ∧ TagStat.solvedContest s
    = Z.of_nat (length (List.filter (λ k, solvedAt cls k && contestAt cls k) occ))
  ∧ TagStat.solvedPractice s
    = Z.of_nat (length (List.filter
                          (λ k, solvedAt cls k && negb (contestAt cls k)
                                && practiceAt cls k) occ)).
Proof.
  cbv zeta. unfold statAt. induction l as [|w l IH] using rev_ind; [done|].
  rewrite runWork_snoc, workStep_stats, occurrences_snoc.
  destruct (decide (w.2 = t)) as [Heq|Hne]; [|by rewrite app_nil_r].
  destruct IH as (Hs & Hc & Hp).
  rewrite !List.filter_app, !length_app. simpl.
  unfold statUpdate, solvedAt, contestAt, practiceAt in *.
  destruct (optSolved _); simpl; [|split_and!; lia].
  unfold solvedUpdate.
  destruct (optContest _); simpl; [split_and!; lia|].
  destruct (optPractice _); simpl; split_and!; lia.
Qed.

Lemma length_filter_le {A} (f : A → bool) (xs : list A) :
  (length (List.filter f xs) ≤ length xs)%nat.
Proof.
  induction xs as [|x xs IH]; simpl; [done|]. destruct (f x); simpl; lia.
Qed.

Lemma aggregateAcc_counters subs ps t :
  let s := statAt (aggregateAcc (F:=F) subs ps) t in
  let cls := classify (buildIndex ps).2 subs in
  let occ := occurrences t (workItems (buildIndex ps).1) in
  TagStat.tag s = t
  ∧ TagStat.totalAvailable s = Z.of_nat (length occ)
  ∧ TagStat.solved s = Z.of_nat (length (List.filter (solvedAt cls) occ))
  ∧ TagStat.solvedContest s
    = Z.of_nat (length (List.filter (λ k, solvedAt cls k && contestAt cls k) occ))
  ∧ TagStat.solvedPractice s
    = Z.of_nat (length (List.filter
                          (λ k, solvedAt cls k && negb (contestAt cls k)
                                && practiceAt cls k) occ)).
Proof.
  cbv zeta. unfold aggregateAcc.
  destruct (runWork_stat_basic (F:=F) (classify (buildIndex ps).2 subs)
              (workItems (buildIndex ps).1) t) as (Htag & Htotal & _).
  destruct (runWork_counts (classify (buildIndex ps).2 subs)
              (workItems (buildIndex ps).1) t) as (Hs & Hc & Hp).
  done.
Qed.

(** X8. Bounds of the counters: every tag of [tagArray] has at least one
    problem, its [solved] lies between 0 and [totalAvailable], the two
    origin counters are not negative, and [solvePercent] is the quotient
    of [solved] by [totalAvailable] (the guard against a division by zero
    is never taken). *)
Theorem tag_counters_bounds subs ps :
  Forall (λ stat,
            1 ≤ TagStat.totalAvailable stat
            ∧ 0 ≤ TagStat.solved stat ≤ TagStat.totalAvailable stat
            ∧ 0 ≤ TagStat.solvedContest stat
            ∧ 0 ≤ TagStat.solvedPractice stat
            ∧ TagStat.solvePercent stat
              = f_div (f_ofZ (TagStat.solved stat))
                  (f_ofZ (TagStat.totalAvailable stat)))
    (Agg.tagArray (aggregate (F:=F) subs ps)).
Proof.
  apply Forall_forall. intros stat Hin.
  apply aggregate_tagArray_elem in Hin as (t & Hsome & ->). simpl.
  destruct (aggregateAcc_counters subs ps t) as (_ & Htotal & Hs & Hc & Hp).
  apply runWork_has_stat in Hsome.
  pose proof (length_filter_le (solvedAt (classify (buildIndex ps).2 subs))
                (occurrences t (workItems (buildIndex ps).1))) as Hle.
  assert (Hpos : 1 ≤ TagStat.totalAvailable (statAt (aggregateAcc subs ps) t)).
  { rewrite Htotal.
    destruct (occurrences t (workItems (buildIndex ps).1)); [done | simpl; lia]. }
  split_and!; try lia.
  destruct (TagStat.totalAvailable (statAt (aggregateAcc subs ps) t) =? 0) eqn:Hz;
    [|done].
  apply Z.eqb_eq in Hz. lia.
Qed.

(** X9. When no catalog problem lists a tag twice, the counters of a tag
    count the problems of its problem set: all of them, the solved ones,
    the solved ones with a contest origin, and the solved ones without. *)
Theorem tag_counters_count_problems subs ps :
  tagsDistinct ps = true →
  let agg := aggregate (F:=F) subs ps in
  let solved key := optSolved (JsMap.get key (Agg.perProblemStatus agg)) in
  let contest key := optContest (JsMap.get key (Agg.perProblemOrigin agg)) in
  let count (f : string → bool) (set : list string) :=
    Z.of_nat (length (List.filter f set)) in
  Forall (λ stat,
            ∃ set,
              JsMap.get (TagStat.tag stat) (Agg.perTagProblemList agg) = Some set
              ∧ TagStat.totalAvailable stat = count (λ _, true) set
              ∧ TagStat.solved stat = count solved set
              ∧ TagStat.solvedContest stat
                = count (λ key, solved key && contest key) set
              ∧ TagStat.solvedPractice stat
                = count (λ key, solved key && negb (contest key)) set)
    (Agg.tagArray agg).
Proof.
  intros Hdistinct. cbv zeta. apply Forall_forall. intros stat Hin.
  apply aggregate_tagArray_elem in Hin as (t & Hsome & ->). simpl.
  destruct (aggregateAcc_counters subs ps t) as (Htag & Htotal & Hs & Hc & Hp).
  destruct (aggregateAcc_ptl subs ps t Hsome) as (set & Hset & Heq & _).
  rewrite Htag, aggregate_perTagProblemList, Hset.
  rewrite aggregate_perProblemStatus, aggregate_perProblemOrigin.
  rewrite JsSetFacts.of_list_NoDup in Heq
    by (apply occurrences_NoDup; [apply buildIndex_NoDup|];
        by apply buildIndex_tags_NoDup).
  exists set. subst set. split_and!; [done | | done | done |].
  - rewrite Htotal. by rewrite filter_all.
  - rewrite Hp. do 2 f_equal. apply filter_ext. intros key.
    pose proof (classify_solvedHaveOrigin (buildIndex ps).2 subs key) as Ho.
    unfold solvedAt, contestAt, practiceAt in *.
    destruct (optSolved _); simpl; [|done].
    destruct (optContest _); simpl in *; [done|]. by rewrite Ho.
Qed.

End CounterFacts.

Lemma tag_counters_count_problems_witness :
  Forall (λ stat,
            ∃ set,
              JsMap.get (TagStat.tag stat)
                (Agg.perTagProblemList
                   (aggregate (F:=Q) Sample.failThenSolve Sample.catalog))
              = Some set
              ∧ TagStat.totalAvailable stat
                = Z.of_nat (length (List.filter (λ _, true) set)))
    (Agg.tagArray (aggregate (F:=Q) Sample.failThenSolve Sample.catalog)).
Proof.
  pose proof (tag_counters_count_problems (F:=Q) Sample.failThenSolve
                Sample.catalog eq_refl) as Hc.
  cbv zeta in Hc. eapply Forall_impl; [exact Hc|].
  intros stat (set & Hset & Htotal & _). by exists set.
Defined.

(** ** The hardest solved problem of a tag *)

Section MaxSolved.
Context {F : Type} `{Float64 F}.
Implicit Types (subs : list Submission) (ps : list Problem) (t key : string).
Implicit Types (cls : Classified.t) (l : list (string * Meta.t * string)).

Lemma solvedRatings_snoc cls t l w :
  solvedRatings cls t (l ++ [w])
  = solvedRatings cls t l
    ++ match Meta.rating w.1.2 with
       | Some r => if bool_decide (w.2 = t) && solvedAt cls w.1.1
                      && truthyNum (Meta.rating w.1.2)
                   then [r] else []
       | None => []
       end.
Proof.
  unfold solvedRatings. rewrite omap_app. f_equal. simpl.
  destruct (Meta.rating w.1.2) as [r|].
  - by destruct (bool_decide (w.2 = t) && solvedAt cls w.1.1 && truthyNum (Some r)).
  - by destruct (bool_decide (w.2 = t) && solvedAt cls w.1.1 && truthyNum None).
Qed.

Lemma elem_of_solvedRatings cls t l r :
  r ∈ solvedRatings cls t l
  ↔ ∃ w, w ∈ l ∧ w.2 = t ∧ solvedAt cls w.1.1 = true
         ∧ Meta.rating w.1.2 = Some r ∧ r ≠ 0.
Proof.
  unfold solvedRatings. rewrite list_elem_of_omap. split.
  - intros (w & Hw & Hf). exists w. split; [done|].
    destruct (bool_decide (w.2 = t)) eqn:Ht; simpl in Hf; [|done].
    apply bool_decide_eq_true in Ht.
    destruct (solvedAt cls w.1.1); simpl in Hf; [|done].
    destruct (truthyNum (Meta.rating w.1.2)) eqn:Htr; [|done].
    rewrite Hf in Htr. simpl in Htr. apply negb_true_iff, Z.eqb_neq in Htr.
    done.
  - intros (w & Hw & Ht & Hs & Hr & Hnz). exists w. split; [done|].
    rewrite bool_decide_eq_true_2, Hs, Hr by done. simpl.
    apply Z.eqb_neq in Hnz. by rewrite Hnz.
Qed.

(** [maxSolved] is the running maximum of the ratings seen so far. *)
Lemma runWork_maxSolved cls l t :
  match TagStat.maxSolved (statAt (runWork (F:=F) cls l) t) with
  | Some mx => mx ∈ solvedRatings cls t l
               ∧ ∀ r, r ∈ solvedRatings cls t l → r ≤ mx
  | None => solvedRatings cls t l = []
  end.
Proof.
  unfold statAt. induction l as [|w l IH] using rev_ind; [done|].
  rewrite runWork_snoc, workStep_stats, solvedRatings_snoc.
  destruct (decide (w.2 = t)) as [Heq|Hne].
  - rewrite bool_decide_eq_true_2 by done. simpl.
    unfold statUpdate, solvedAt.
    destruct (optSolved _); simpl.
    + unfold solvedUpdate. simpl.
      destruct (Meta.rating w.1.2) as [r|] eqn:Hr; simpl.
      * destruct (negb (r =? 0)); simpl.
        -- destruct (TagStat.maxSolved _) as [m|].
           ++ destruct IH as [Hm Hle].
              destruct (m <? r) eqn:Hlt.
              ** apply Z.ltb_lt in Hlt. split.
                 --- apply elem_of_app. right. apply list_elem_of_here.
                 --- intros r' Hr'. apply elem_of_app in Hr' as [Hr'|Hr'].
                     +++ apply Hle in Hr'. lia.
                     +++ apply list_elem_of_singleton in Hr'. lia.
              ** apply Z.ltb_ge in Hlt. split.
                 --- apply elem_of_app. by left.
                 --- intros r' Hr'. apply elem_of_app in Hr' as [Hr'|Hr'].
                     +++ by apply Hle.
                     +++ apply list_elem_of_singleton in Hr'. lia.
           ++ rewrite IH. simpl. split; [apply list_elem_of_here|].
              intros r' Hr'. apply list_elem_of_singleton in Hr'. lia.
        -- by rewrite app_nil_r.
      * by rewrite app_nil_r.
    + destruct (Meta.rating w.1.2); by rewrite app_nil_r.
  - rewrite bool_decide_eq_false_2 by done. simpl.
    destruct (Meta.rating w.1.2); by rewrite app_nil_r.
Qed.

Lemma aggregate_solvedRatings subs ps t r :
  r ∈ solvedRatings (classify (buildIndex ps).2 subs) t (workItems (buildIndex ps).1)
  ↔ solvedRatedIn (aggregate (F:=F) subs ps) t r.
Proof.
  unfold solvedRatedIn.
  rewrite aggregate_perProblemMeta, aggregate_perProblemStatus.
  rewrite elem_of_solvedRatings. split.
  - intros (w & Hw & Ht & Hs & Hr & _). apply elem_of_workItems in Hw as [Hin Htag].
    exists w.1.1, w.1.2. split_and!; [|by rewrite <- Ht|done|done].
    apply JsMapFacts.elem_get_NoDup; [apply buildIndex_NoDup | done].
  - intros (key & m & Hg & Ht & Hr & Hs). exists (key, m, t).
    split_and!; try done.
    + apply elem_of_workItems. split; [|done]. by apply JsMapFacts.get_Some_elem.
    + intros ->. by apply (buildIndex_rating ps key m).
Qed.

(** X10. [maxSolved] of a tag is the highest rating among the solved rated
    problems of the catalog that carry the tag, and it is null exactly
    when there is no such problem. *)
Theorem maxSolved_is_hardest_solved subs ps :
  Forall (λ stat,
    let solvedRated := solvedRatedIn (aggregate (F:=F) subs ps) (TagStat.tag stat) in
    match TagStat.maxSolved stat with
    | Some mx => solvedRated mx ∧ ∀ r, solvedRated r → r ≤ mx
    | None => ∀ r, ¬ solvedRated r
    end)
    (Agg.tagArray (aggregate (F:=F) subs ps)).
Proof.
  apply Forall_forall. intros stat Hin.
  apply aggregate_tagArray_elem in Hin as (t & _ & ->). cbv zeta.
  destruct (aggregateAcc_counters subs ps t) as (Htag & _).
  simpl. rewrite Htag.
  pose proof (runWork_maxSolved (classify (buildIndex ps).2 subs)
                (workItems (buildIndex ps).1) t) as Hmax.
  fold (aggregateAcc (F:=F) subs ps) in Hmax.
  destruct (TagStat.maxSolved (statAt (aggregateAcc subs ps) t)) as [mx|].
  - destruct Hmax as [Hin Hle]. split; [by apply aggregate_solvedRatings|].
    intros r Hr. apply Hle. by apply aggregate_solvedRatings.
  - intros r Hr. apply aggregate_solvedRatings in Hr. rewrite Hmax in Hr.
    by apply elem_of_nil in Hr.
Qed.

End MaxSolved.

(** ** The order of [tagArray] *)

Section SortedBy.
Context {A : Type} (cmp : A → A → Z) (R : A → A → Prop).
Hypothesis cmp_le : ∀ a b, cmp a b ≤ 0 → R a b.
Hypothesis cmp_gt : ∀ a b, 0 < cmp a b → R b a.
Hypothesis R_trans : ∀ a b c, R a b → R b c → R a c.

Lemma sortInsert_StronglySorted x l :
  StronglySorted R l → StronglySorted R (sortInsert cmp x l).
Proof.
  induction l as [|y l IH]; intros Hs; simpl.
  - by repeat constructor.
  - apply StronglySorted_inv in Hs as [Hs Hall].
    destruct (cmp x y <=? 0) eqn:Hc.
    + apply Z.leb_le in Hc. constructor; [by constructor|].
      constructor; [by apply cmp_le|].
      eapply Forall_impl; [exact Hall|]. intros z Hz.
      eapply R_trans; [by apply cmp_le | done].
    + apply Z.leb_gt in Hc. constructor; [by apply IH|].
      apply Forall_forall. intros z Hz.
      apply (elem_of_Permutation_proper z _ _ (sortInsert_perm cmp x l)) in Hz.
      apply elem_of_cons in Hz as [->|Hz]; [by apply cmp_gt|].
      by apply (proj1 (Forall_forall _ _) Hall).
Qed.

Lemma js_sort_StronglySorted l : StronglySorted R (js_sort cmp l).
Proof.
  induction l as [|x l IH]; simpl; [constructor|].
  by apply sortInsert_StronglySorted.
Qed.

End SortedBy.

Lemma StronglySorted_map {A B} (R : B → B → Prop) (f : A → B) (l : list A) :
  StronglySorted (λ a b, R (f a) (f b)) l → StronglySorted R (map f l).
Proof.
  induction 1 as [|x l Hs IH Hall]; simpl; constructor; [done|].
  apply Forall_forall. intros y Hy. apply list_elem_of_fmap in Hy as (z & -> & Hz).
  by apply (proj1 (Forall_forall _ _) Hall).
Qed.

Section TagArrayOrder.
Context {F : Type} `{Float64 F}.
Implicit Types (subs : list Submission) (ps : list Problem) (t key : string).

(** X11. [tagArray], as handed to the snapshot, lists every tag of the
    stored catalog once, most solved first. *)
Theorem tagArray_sorted_and_distinct subs ps :
  let agg := freshAggregate (F:=F) subs ps in
  NoDup (map TagStat.tag (Agg.tagArray agg))
  ∧ StronglySorted (λ a b, TagStat.solved b ≤ TagStat.solved a) (Agg.tagArray agg)
  ∧ ∀ t, t ∈ map TagStat.tag (Agg.tagArray agg)
         ↔ ∃ key m, JsMap.get key (Agg.perProblemMeta agg) = Some m
                    ∧ t ∈ Meta.tags m.
Proof.
  cbv zeta. split_and!.
  - apply freshAggregate_tags_NoDup.
  - destruct (freshAggregate_tagArray subs ps) as (g & -> & Hg).
    apply StronglySorted_map with (R := λ a b, TagStat.solved b ≤ TagStat.solved a).
    assert (Heq : ∀ a : TagStat.t F, TagStat.solved (g a) = TagStat.solved a).
    { intros a. by destruct (Hg a) as (_ & _ & -> & _). }
    rewrite aggregate_unfold. simpl.
    apply js_sort_StronglySorted.
    + intros a b. rewrite !Heq. lia.
    + intros a b. rewrite !Heq. lia.
    + intros a b c. lia.
  - intros t. rewrite freshAggregate_perProblemMeta.
    destruct (freshAggregate_tagArray subs ps) as (g & -> & Hg).
    rewrite map_map.
    rewrite (map_ext _ TagStat.tag) by (intros stat; apply Hg).
    rewrite aggregate_tags_perm.
    assert (Hkeys : t ∈ JsMap.keys (tagStats (aggregateAcc (F:=F) subs ps))
                    ↔ is_Some (JsMap.get t (tagStats (aggregateAcc (F:=F) subs ps)))).
    { rewrite <- not_eq_None_Some, JsMapFacts.get_None_keys.
      split; [by intros ? ?|]. intros Hnn.
      by destruct (decide (t ∈ JsMap.keys (tagStats (aggregateAcc (F:=F) subs ps)))). }
    rewrite Hkeys. unfold aggregateAcc. rewrite runWork_has_stat. split.
    + intros Hne.
      destruct (occurrences t (workItems (buildIndex ps).1)) as [|key o] eqn:Ho;
        [done|].
      assert (Hin : key ∈ occurrences t (workItems (buildIndex ps).1))
        by (rewrite Ho; apply list_elem_of_here).
      apply elem_of_occurrences in Hin as (m & Hin & Ht).
      exists key, m. split; [|done].
      apply JsMapFacts.elem_get_NoDup; [apply buildIndex_NoDup | done].
    + intros (key & m & Hget & Ht) Hnil.
      assert (Hin : key ∈ occurrences t (workItems (buildIndex ps).1)).
      { apply elem_of_occurrences. exists m. split; [|done].
        by apply JsMapFacts.get_Some_elem. }
      rewrite Hnil in Hin. by apply elem_of_nil in Hin.
Qed.

End TagArrayOrder.

(** ** One difficulty map per tag *)

Section BucketKeys.
Context {F : Type} `{Float64 F}.
Implicit Types (subs : list Submission) (ps : list Problem) (t key : string).

Lemma buildAll_fold_keys (agg : Agg.t F) (l : list (TagStat.t F)) :
  NoDup (map TagStat.tag l) →
  Forall (λ stat, is_Some (JsMap.get (TagStat.tag stat) (Agg.perTagProblemList agg))) l →
  JsMap.keys
    (fold_left
       (λ m stat,
          match JsMap.get (TagStat.tag stat) (Agg.perTagProblemList agg) with
          | None => m
          | Some set => JsMap.set (TagStat.tag stat) (tagDiffMap agg set) m
          end) l [])
  = map TagStat.tag l.
Proof.
  induction l as [|stat l IH] using rev_ind; intros Hnd Hall; [done|].
  rewrite map_app in Hnd. apply NoDup_app in Hnd as (Hnd & Hfresh & _).
  apply Forall_app in Hall as [Hall Hstat].
  apply Forall_singleton in Hstat as [set Hset].
  rewrite fold_left_app. simpl. rewrite Hset, keys_set_add, IH by done.
  rewrite map_app. simpl. apply JsSetFacts.add_fresh.
  intros Hin. apply (Hfresh _ Hin). simpl. apply list_elem_of_here.
Qed.

Lemma runWork_ptl_keys (cls : Classified.t) (l : list (string * Meta.t * string)) :
  JsMap.keys (acc_perTagProblemList (runWork (F:=F) cls l))
  = JsMap.keys (tagStats (runWork (F:=F) cls l)).
Proof.
  induction l as [|w l IH] using rev_ind; [done|].
  rewrite runWork_snoc. unfold workStep. rewrite tagStep_eq. simpl.
  by rewrite !keys_set_add, IH.
Qed.

Lemma freshAggregate_perTagProblemList subs ps :
  Agg.perTagProblemList (freshAggregate (F:=F) subs ps)
  = acc_perTagProblemList (aggregateAcc (F:=F) subs ps).
Proof. unfold freshAggregate. simpl. apply aggregate_perTagProblemList. Qed.

Lemma keys_is_Some {K V} `{EqDecision K} (k : K) (m : list (K * V)) :
  k ∈ JsMap.keys m ↔ is_Some (JsMap.get k m).
Proof.
  rewrite <- not_eq_None_Some, JsMapFacts.get_None_keys.
  split; [by intros ? ?|]. intros Hnn. by destruct (decide (k ∈ JsMap.keys m)).
Qed.

Lemma freshAggregate_tags_keys subs ps :
  map TagStat.tag (Agg.tagArray (freshAggregate (F:=F) subs ps))
  ≡ₚ JsMap.keys (Agg.perTagProblemList (freshAggregate (F:=F) subs ps)).
Proof.
  destruct (freshAggregate_tagArray subs ps) as (g & -> & Hg).
  rewrite map_map.
  rewrite (map_ext _ TagStat.tag) by (intros stat; apply Hg).
  rewrite aggregate_tags_perm, freshAggregate_perTagProblemList.
  unfold aggregateAcc. by rewrite runWork_ptl_keys.
Qed.

(** X12. The tag statistics, the problem sets and the difficulty maps
    cover the same tags: there is one difficulty map for every tag of
    [tagArray], in the order of [tagArray], and one problem set, which is
    not empty, lists no key twice and holds catalog problems only. *)
Theorem one_difficulty_map_per_tag subs ps :
  let agg := freshAggregate (F:=F) subs ps in
  JsMap.keys (buildAllTagDifficultyBuckets agg) = map TagStat.tag (Agg.tagArray agg)
  ∧ JsMap.keys (Agg.perTagProblemList agg) ≡ₚ map TagStat.tag (Agg.tagArray agg)
  ∧ Forall (λ e, e.2 ≠ [] ∧ NoDup e.2
                 ∧ Forall (λ key, JsMap.has key (Agg.perProblemMeta agg) = true) e.2)
      (Agg.perTagProblemList agg).
Proof.
  cbv zeta.
  assert (Hsets : ∀ t set,
             JsMap.get t (Agg.perTagProblemList (freshAggregate (F:=F) subs ps))
             = Some set →
             set ≠ [] ∧ NoDup set
             ∧ Forall (λ key, JsMap.has key (buildIndex ps).1 = true) set).
  { intros t set Hget. rewrite freshAggregate_perTagProblemList in Hget.
    assert (Hsome : is_Some (JsMap.get t (tagStats (aggregateAcc (F:=F) subs ps)))).
    { apply keys_is_Some. unfold aggregateAcc. rewrite <- runWork_ptl_keys.
      apply keys_is_Some. fold (aggregateAcc (F:=F) subs ps). by rewrite Hget. }
    destruct (aggregateAcc_ptl subs ps t Hsome) as (set' & Hset & Heq & Hmeta).
    rewrite Hset in Hget. injection Hget as <-.
    apply runWork_has_stat in Hsome. split_and!.
    - rewrite Heq. intros Hnil.
      destruct (occurrences t (workItems (buildIndex ps).1)) as [|k o] eqn:Ho;
        [done|].
      assert (Hk : k ∈ JsSet.of_list (k :: o)).
      { apply JsSetFacts.elem_of_of_list. apply list_elem_of_here. }
      rewrite Hnil in Hk. by apply elem_of_nil in Hk.
    - rewrite Heq. apply JsSetFacts.NoDup_of_list.
    - by apply Forall_forall. }
  split_and!.
  - apply buildAll_fold_keys; [apply freshAggregate_tags_NoDup|].
    apply Forall_forall. intros stat Hin. apply keys_is_Some.
    rewrite <- freshAggregate_tags_keys. apply list_elem_of_fmap. by exists stat.
  - by rewrite freshAggregate_tags_keys.
  - rewrite freshAggregate_perProblemMeta. apply Forall_forall. intros [t set] Hin.
    apply (Hsets t). apply JsMapFacts.elem_get_NoDup; [|done].
    rewrite <- freshAggregate_tags_keys. apply freshAggregate_tags_NoDup.
Qed.

End BucketKeys.

(** ** The fail band *)

Section FailBand.
Context {F : Type} `{Float64 F}.
Implicit Types (subs : list Submission) (ps : list Problem) (t key : string).

Lemma failedRatedIn_snoc (agg : Agg.t F) (set : list string) key r :
  failedRatedIn agg (set ++ [key]) r
  ↔ failedRatedIn agg set r ∨ failedRatedIn agg [key] r.
Proof.
  unfold failedRatedIn. split.
  - intros (k & m & st & Hk & Hrest). apply elem_of_app in Hk as [Hk|Hk].
    + left. by exists k, m, st.
    + right. by exists k, m, st.
  - intros [(k & m & st & Hk & Hrest)|(k & m & st & Hk & Hrest)];
      exists k, m, st; (split; [|done]); apply elem_of_app; first [by left | by right].
Qed.

(** The band after the loop over a problem set. *)
Lemma bandFold_exact (agg : Agg.t F) (set : list string) :
  match fold_left (bandStep (Agg.perProblemMeta agg) (Agg.perProblemStatus agg))
          set (None, None) with
  | (Some mn, Some mx) =>
      failedRatedIn agg set mn ∧ failedRatedIn agg set mx
      ∧ ∀ r, failedRatedIn agg set r → mn ≤ r ≤ mx
  | (None, None) => ∀ r, ¬ failedRatedIn agg set r
  | _ => False
  end.
Proof.
  induction set as [|key set IH] using rev_ind.
  - simpl. intros r (k & m & st & Hk & _). by apply elem_of_nil in Hk.
  - rewrite fold_left_app. simpl.
    destruct (fold_left _ set (None, None)) as [mn mx].
    assert (Hone : ∀ r, failedRatedIn agg [key] r
              ↔ ∃ m st, JsMap.get key (Agg.perProblemMeta agg) = Some m
                        ∧ Meta.rating m = Some r ∧ r ≠ 0
                        ∧ JsMap.get key (Agg.perProblemStatus agg) = Some st
                        ∧ Status.solved st = false
                        ∧ Status.failedContest st = true).
    { intros r. split.
      - intros (k & m & st & Hk & Hrest). apply list_elem_of_singleton in Hk as ->.
        by exists m, st.
      - intros (m & st & Hrest). exists key, m, st. split; [|done].
        apply list_elem_of_here. }
    assert (Hskip : (∀ r, ¬ failedRatedIn agg [key] r) →
              match (mn, mx) with
              | (Some mn, Some mx) =>
                  failedRatedIn agg (set ++ [key]) mn
                  ∧ failedRatedIn agg (set ++ [key]) mx
                  ∧ ∀ r, failedRatedIn agg (set ++ [key]) r → mn ≤ r ≤ mx
              | (None, None) => ∀ r, ¬ failedRatedIn agg (set ++ [key]) r
              | _ => False
              end).
    { intros Hno. destruct mn as [mn|], mx as [mx|]; try done.
      - destruct IH as (Hmn & Hmx & Hb). split_and!.
        + apply failedRatedIn_snoc. by left.
        + apply failedRatedIn_snoc. by left.
        + intros r Hr. apply failedRatedIn_snoc in Hr as [Hr|Hr]; [by apply Hb|].
          by apply Hno in Hr.
      - intros r Hr. apply failedRatedIn_snoc in Hr as [Hr|Hr]; [by apply IH in Hr|].
        by apply Hno in Hr. }
    unfold bandStep.
    destruct (JsMap.get key (Agg.perProblemMeta agg)) as [m|] eqn:Hm;
      [|apply Hskip; intros r Hr; apply Hone in Hr as (? & ? & ? & _); done].
    destruct (JsMap.get key (Agg.perProblemStatus agg)) as [st|] eqn:Hst;
      [|apply Hskip; intros r Hr; apply Hone in Hr as (? & ? & _ & _ & _ & ? & _);
        done].
    destruct (Meta.rating m) as [r0|] eqn:Hr0;
      [|apply Hskip; intros r Hr;
        apply Hone in Hr as (m' & ? & Hm' & Hr' & _); simplify_eq].
    destruct (negb (Status.solved st) && Status.failedContest st
              && truthyNum (Some r0)) eqn:Hcond.
    + apply andb_true_iff in Hcond as [Hcond Hnz].
      apply andb_true_iff in Hcond as [Hs Hf]. apply negb_true_iff in Hs.
      simpl in Hnz. apply negb_true_iff, Z.eqb_neq in Hnz.
      assert (Hnew : failedRatedIn agg [key] r0).
      { apply Hone. by exists m, st. }
      assert (Honly : ∀ r, failedRatedIn agg [key] r → r = r0).
      { intros r Hr. apply Hone in Hr as (m' & st' & Hm' & Hr' & _). by simplify_eq. }
      cbn [fst snd].
      destruct mn as [mn|], mx as [mx|]; try done.
      * destruct IH as (Hmn & Hmx & Hb).
        destruct (r0 <? mn) eqn:Hlo, (mx <? r0) eqn:Hhi;
          try apply Z.ltb_lt in Hlo; try apply Z.ltb_ge in Hlo;
          try apply Z.ltb_lt in Hhi; try apply Z.ltb_ge in Hhi;
          (split_and!;
           [apply failedRatedIn_snoc; first [by left | by right]
           |apply failedRatedIn_snoc; first [by left | by right]
           |intros r Hr; apply failedRatedIn_snoc in Hr as [Hr|Hr];
            [apply Hb in Hr; lia | apply Honly in Hr; lia]]).
      * split_and!; [apply failedRatedIn_snoc; by right..|].
        intros r Hr. apply failedRatedIn_snoc in Hr as [Hr|Hr];
          [by apply IH in Hr | apply Honly in Hr; lia].
    + apply Hskip. intros r Hr.
      apply Hone in Hr as (m' & st' & Hm' & Hr' & Hnz & Hst' & Hs & Hf).
      simplify_eq. rewrite Hs, Hf in Hcond. simpl in Hcond.
      apply negb_false_iff, Z.eqb_eq in Hcond. done.
Qed.

Lemma failBandOf_tag (agg : Agg.t F) (stat : TagStat.t F) :
  TagStat.tag (failBandOf agg stat) = TagStat.tag stat.
Proof.
  unfold failBandOf.
  by destruct (JsMap.get (TagStat.tag stat) (Agg.perTagProblemList agg)).
Qed.

Lemma failBandOf_frame (agg : Agg.t F) (stat : TagStat.t F) :
  let stat' := failBandOf agg stat in
  TagStat.tag stat' = TagStat.tag stat
  ∧ TagStat.totalAvailable stat' = TagStat.totalAvailable stat
  ∧ TagStat.solved stat' = TagStat.solved stat
  ∧ TagStat.solvedContest stat' = TagStat.solvedContest stat
  ∧ TagStat.solvedPractice stat' = TagStat.solvedPractice stat
  ∧ TagStat.solvePercent stat' = TagStat.solvePercent stat
  ∧ TagStat.maxSolved stat' = TagStat.maxSolved stat
  ∧ TagStat.nextTargetDifficulty stat' = TagStat.nextTargetDifficulty stat
  ∧ TagStat.solvedDiffs stat' = TagStat.solvedDiffs stat
  ∧ TagStat.recommendScore stat' = TagStat.recommendScore stat.
Proof.
  cbv zeta. unfold failBandOf.
  by destruct (JsMap.get (TagStat.tag stat) (Agg.perTagProblemList agg)).
Qed.

Lemma failBandOf_exact (agg : Agg.t F) (stat : TagStat.t F) (set : list string) :
  JsMap.get (TagStat.tag stat) (Agg.perTagProblemList agg) = Some set →
  match TagStat.minFailedDifficulty (failBandOf agg stat),
        TagStat.maxFailedDifficulty (failBandOf agg stat),
        TagStat.failSpan (failBandOf agg stat) with
  | Some mn, Some mx, Some span =>
      failedRatedIn agg set mn ∧ failedRatedIn agg set mx
      ∧ (∀ r, failedRatedIn agg set r → mn ≤ r ≤ mx)
      ∧ span = mx - mn ∧ 0 ≤ span
  | None, None, None => ∀ r, ¬ failedRatedIn agg set r
  | _, _, _ => False
  end.
Proof.
  intros Hset. unfold failBandOf. rewrite Hset. simpl.
  pose proof (bandFold_exact agg set) as Hband.
  destruct (fold_left _ set (None, None)) as [[mn|] [mx|]]; simpl; try done.
  destruct Hband as (Hmn & Hmx & Hb). split_and!; try done.
  apply Hb in Hmx. lia.
Qed.

(** X13. The fail band of a tag is the least and the greatest rating among
    the unsolved rated problems of its problem set that failed in a
    contest; [failSpan] is their difference, which is not negative; the
    three fields are null together, exactly when there is no such
    problem. *)
Theorem fail_band_is_min_and_max subs ps :
  let agg := freshAggregate (F:=F) subs ps in
  Forall (λ stat,
    let failed :=
      failedRatedIn agg
        (default [] (JsMap.get (TagStat.tag stat) (Agg.perTagProblemList agg))) in
    match TagStat.minFailedDifficulty stat, TagStat.maxFailedDifficulty stat,
          TagStat.failSpan stat with
    | Some mn, Some mx, Some span =>
        failed mn ∧ failed mx ∧ (∀ r, failed r → mn ≤ r ≤ mx)
        ∧ span = mx - mn ∧ 0 ≤ span
    | None, None, None => ∀ r, ¬ failed r
    | _, _, _ => False
    end)
    (Agg.tagArray agg).
Proof.
  cbv zeta. apply Forall_forall. intros stat Hin.
  assert (Hset : is_Some (JsMap.get (TagStat.tag stat)
                   (Agg.perTagProblemList (freshAggregate (F:=F) subs ps)))).
  { apply keys_is_Some. rewrite <- freshAggregate_tags_keys.
    apply list_elem_of_fmap. by exists stat. }
  destruct Hset as [set Hset]. rewrite Hset. simpl.
  revert Hin Hset. unfold freshAggregate.
  set (scored := Agg.mk (computeRecommendationScores _) _ _ _ _ _ _).
  change (Agg.tagArray (computeFailedDifficultyBand scored))
    with (map (failBandOf scored) (Agg.tagArray scored)).
  change (Agg.perTagProblemList (computeFailedDifficultyBand scored))
    with (Agg.perTagProblemList scored).
  change (failedRatedIn (computeFailedDifficultyBand scored))
    with (failedRatedIn scored).
  intros Hin Hset. apply list_elem_of_fmap in Hin as (stat0 & -> & Hin).
  rewrite failBandOf_tag in Hset. by apply failBandOf_exact.
Qed.

End FailBand.

(** ** Buckets as counts *)

Section BucketCounts.
Context {F : Type} `{Float64 F}.
Implicit Types (agg : Agg.t F) (set : list string) (r : Z) (key t : string).

Lemma countAt_snoc agg set key r f :
  countAt agg (set ++ [key]) r f
  = countAt agg set r f
    + (if bool_decide (bucketOf agg key = Some r) && f key then 1 else 0).
Proof.
  unfold countAt. rewrite List.filter_app, length_app. simpl.
  destruct (bool_decide _ && f key); simpl; lia.
Qed.

Lemma countAt_bounds agg set r f :
  0 ≤ countAt agg set r f ≤ countAt agg set r (λ _, true).
Proof.
  unfold countAt. split; [lia|]. apply inj_le.
  induction set as [|key set IH]; simpl; [done|].
  destruct (bool_decide _); simpl; [|done]. destruct (f key); simpl; lia.
Qed.

Lemma countedBucket_fields agg set r :
  default emptyBucket (countedBucket agg set r)
  = Bucket.mk (countAt agg set r (inSolvedContest agg))
      (countAt agg set r (inSolvedPractice agg))
      (countAt agg set r (inFailedContest agg))
      (countAt agg set r (inUnsolved agg))
      (countAt agg set r (λ _, true)).
Proof.
  unfold countedBucket.
  destruct (countAt agg set r (λ _, true) =? 0) eqn:Hz; [|done].
  apply Z.eqb_eq in Hz. simpl. unfold emptyBucket.
  pose proof (countAt_bounds agg set r (inSolvedContest agg)).
  pose proof (countAt_bounds agg set r (inSolvedPractice agg)).
  pose proof (countAt_bounds agg set r (inFailedContest agg)).
  pose proof (countAt_bounds agg set r (inUnsolved agg)).
  f_equal; lia.
Qed.

(** The per-tag bucket builder counts. *)
Lemma tagDiffMap_counted agg set r :
  JsMap.get r (tagDiffMap agg set) = countedBucket agg set r.
Proof.
  unfold tagDiffMap. induction set as [|key set IH] using rev_ind; [done|].
  rewrite fold_left_app. simpl. unfold tagBucketStep at 1.
  destruct (JsMap.get key (Agg.perProblemMeta agg)) as [m|] eqn:Hget.
  - assert (Hb : bucketOf agg key = Some (default 0 (ratingOrNull (Meta.rating m))))
      by (unfold bucketOf; by rewrite Hget).
    rewrite JsMapFacts.get_set.
    destruct (decide (default 0 (ratingOrNull (Meta.rating m)) = r)) as [Heq|Hne].
    + rewrite Heq in *. rewrite IH, countedBucket_fields.
      unfold countedBucket. rewrite !countAt_snoc, Hb.
      rewrite bool_decide_eq_true_2 by done. simpl.
      pose proof (countAt_bounds agg set r (λ _, true)) as Hpos.
      destruct (countAt agg set r (λ _, true) + 1 =? 0) eqn:Hz;
        [apply Z.eqb_eq in Hz; lia|].
      f_equal. unfold countInto, inSolvedContest, inSolvedPractice,
        inFailedContest, inUnsolved.
      destruct (optSolved _), (optContest _), (optFailedContest _); simpl;
        f_equal; lia.
    + rewrite IH. unfold countedBucket. rewrite !countAt_snoc, Hb.
      rewrite bool_decide_eq_false_2 by (intros [= ?]; done). simpl.
      by rewrite !Z.add_0_r.
  - assert (Hb : bucketOf agg key = None) by (unfold bucketOf; by rewrite Hget).
    rewrite IH. unfold countedBucket. rewrite !countAt_snoc, Hb. simpl.
    by rewrite !Z.add_0_r.
Qed.

(** X14. Every bucket of every difficulty map holds five counts over the
    problem set of its tag: the problems stored with the bucket's rating
    (0 for unrated ones), split into solved with a contest origin, solved
    without, unsolved with a contest failure, and the rest. A rating
    without such a problem has no bucket, so no bucket is empty. *)
Theorem buckets_are_counts agg t r :
  JsMap.get r (default [] (JsMap.get t (buildAllTagDifficultyBuckets agg)))
  = (if bool_decide (t ∈ map TagStat.tag (Agg.tagArray agg))
     then countedBucket agg (default [] (JsMap.get t (Agg.perTagProblemList agg))) r
     else None)
  ∧ Forall (λ e, 1 ≤ Bucket.total e.2)
      (default [] (JsMap.get t (buildAllTagDifficultyBuckets agg))).
Proof.
  rewrite buildAll_get. split.
  - case_bool_decide; [|done].
    destruct (JsMap.get t (Agg.perTagProblemList agg)) as [set|]; simpl; [|done].
    apply tagDiffMap_counted.
  - case_bool_decide; [|by apply Forall_nil_2].
    destruct (JsMap.get t (Agg.perTagProblemList agg)) as [set|]; simpl;
      [|by apply Forall_nil_2].
    apply Forall_forall. intros [r' b] Hin. simpl.
    apply JsMapFacts.elem_get_NoDup in Hin; [|apply tagDiffMap_NoDup].
    rewrite tagDiffMap_counted in Hin. unfold countedBucket in Hin.
    destruct (countAt agg set r' (λ _, true) =? 0) eqn:Hz; [done|].
    injection Hin as <-. simpl. apply Z.eqb_neq in Hz.
    pose proof (countAt_bounds agg set r' (λ _, true)). lia.
Qed.

End BucketCounts.

(** ** The selection behind an intersection *)

Lemma length_filter_submseteq {A} (f : A → bool) (l k : list A) :
  l ⊆+ k → (length (List.filter f l) ≤ length (List.filter f k))%nat.
Proof.
  induction 1 as [|x l k _ IH|x y l|x l k _ IH|l k m _ IH1 _ IH2]; simpl.
  - done.
  - destruct (f x); simpl; lia.
  - destruct (f x), (f y); simpl; lia.
  - destruct (f x); simpl; lia.
  - lia.
Qed.

Lemma length_filter_Permutation {A} (f : A → bool) (l k : list A) :
  l ≡ₚ k → length (List.filter f l) = length (List.filter f k).
Proof.
  intros Hp. apply Nat.le_antisymm; apply length_filter_submseteq;
    by rewrite Hp.
Qed.

Section Selection.
Context {F : Type} `{Float64 F}.
Implicit Types (agg : Agg.t F) (tags : list string) (r : Z) (key t : string).

(** The intersection engine counts over the keys common to all tags. *)
Lemma buildIntersectionBuckets_inter agg tags :
  tags ≠ [] →
  ∃ inter,
    NoDup inter
    ∧ (∀ key, key ∈ inter
              ↔ ∀ t, t ∈ tags →
                     ∃ set, JsMap.get t (Agg.perTagProblemList agg) = Some set
                            ∧ key ∈ set)
    ∧ ∀ r, JsMap.get r (buildIntersectionBuckets tags agg)
           = countedBucket agg inter r.
Proof.
  destruct tags as [|t tags]; [done|]. intros _.
  destruct (intersectLoop_none (Agg.perTagProblemList agg) t tags)
    as (inter & Hloop & Hnd & Hin).
  exists inter. split_and!; [done | done |].
  intros r. unfold buildIntersectionBuckets. rewrite Hloop.
  destruct (length inter =? 0)%nat eqn:Hlen.
  - apply length_zero_nil in Hlen. by subst inter.
  - rewrite interFold_tagDiffMap. apply tagDiffMap_counted.
Qed.

Lemma countedBucket_Permutation agg (l k : list string) r :
  l ≡ₚ k → countedBucket agg l r = countedBucket agg k r.
Proof.
  intros Hp. unfold countedBucket, countAt.
  by rewrite !(length_filter_Permutation _ l k Hp).
Qed.

(** X15. The buckets of a selection do not depend on the order in which
    the tags were selected, nor on a tag being listed twice: two lists
    with the same tags give the same bucket at every rating. *)
Theorem intersection_ignores_selection_order agg tags tags' r :
  (∀ t, t ∈ tags ↔ t ∈ tags') →
  JsMap.get r (buildIntersectionBuckets tags agg)
  = JsMap.get r (buildIntersectionBuckets tags' agg).
Proof.
  intros Hsame.
  destruct tags as [|t tags], tags' as [|t' tags'].
  - done.
  - exfalso. eapply elem_of_nil. apply Hsame. apply list_elem_of_here.
  - exfalso. eapply elem_of_nil. apply Hsame. apply list_elem_of_here.
  - destruct (buildIntersectionBuckets_inter agg (t :: tags))
      as (inter & Hnd & Hin & ->); [done|].
    destruct (buildIntersectionBuckets_inter agg (t' :: tags'))
      as (inter' & Hnd' & Hin' & ->); [done|].
    apply countedBucket_Permutation. apply NoDup_Permutation; [done..|].
    intros key. rewrite Hin, Hin'. split; intros Hall x Hx; apply Hall;
      by apply Hsame.
Qed.

(** X16. Selecting more tags never adds to a bucket: when a non-empty
    selection is extended, each of the five counts at each rating stays or
    drops. *)
Theorem intersection_shrinks_with_more_tags agg tags more r :
  tags ≠ [] →
  let b := default emptyBucket (JsMap.get r (buildIntersectionBuckets tags agg)) in
  let b' := default emptyBucket
              (JsMap.get r (buildIntersectionBuckets (tags ++ more) agg)) in
  Bucket.total b' ≤ Bucket.total b
  ∧ Bucket.solvedContest b' ≤ Bucket.solvedContest b
  ∧ Bucket.solvedPractice b' ≤ Bucket.solvedPractice b
  ∧ Bucket.failedContest b' ≤ Bucket.failedContest b
  ∧ Bucket.unsolved b' ≤ Bucket.unsolved b.
Proof.
  intros Hne. cbv zeta.
  destruct (buildIntersectionBuckets_inter agg tags Hne)
    as (inter & Hnd & Hin & ->).
  destruct (buildIntersectionBuckets_inter agg (tags ++ more))
    as (inter' & Hnd' & Hin' & ->); [by destruct tags|].
  rewrite !countedBucket_fields. simpl.
  assert (Hsub : inter' ⊆+ inter).
  { apply NoDup_submseteq; [done|]. intros key Hkey. apply Hin.
    intros x Hx. apply (proj1 (Hin' key) Hkey). apply elem_of_app. by left. }
  unfold countAt.
  split_and!; apply inj_le; by apply length_filter_submseteq.
Qed.

End Selection.

Lemma intersection_ignores_selection_order_witness :
  JsMap.get 1800
    (buildIntersectionBuckets ["dp"; "math"]
       (freshAggregate (F:=Q) Sample.failThenSolve Sample.catalog))
  = JsMap.get 1800
      (buildIntersectionBuckets ["math"; "dp"; "math"]
         (freshAggregate (F:=Q) Sample.failThenSolve Sample.catalog)).
Proof.
  apply (intersection_ignores_selection_order
           (freshAggregate (F:=Q) Sample.failThenSolve Sample.catalog)
           ["dp"; "math"] ["math"; "dp"; "math"] 1800).
  intros t. rewrite !elem_of_cons, !elem_of_nil. tauto.
Defined.

Lemma intersection_shrinks_with_more_tags_witness :
  Bucket.total
    (default emptyBucket
       (JsMap.get 1800
          (buildIntersectionBuckets (["dp"] ++ ["math"])
             (freshAggregate (F:=Q) Sample.failThenSolve Sample.catalog))))
  ≤ Bucket.total
      (default emptyBucket
         (JsMap.get 1800
            (buildIntersectionBuckets ["dp"]
               (freshAggregate (F:=Q) Sample.failThenSolve Sample.catalog)))).
Proof.
  apply (intersection_shrinks_with_more_tags
           (freshAggregate (F:=Q) Sample.failThenSolve Sample.catalog)
           ["dp"] ["math"] 1800).
  discriminate.
Defined.

(** ** What the snapshot stores *)

Lemma foldInsert_lookup_Some {A V} (k : A → string) (v : A → V) (l : list A)
    (m : gmap string V) (i : string) (x : V) :
  fold_left (λ obj e, <[k e := v e]> obj) l m !! i = Some x →
  (∃ e, e ∈ l ∧ k e = i ∧ v e = x) ∨ m !! i = Some x.
Proof.
  revert m. induction l as [|e l IH]; intros m Hx; simpl in *; [by right|].
  apply IH in Hx as [(e' & Hin & Hk & Hv)|Hx].
  - left. exists e'. split; [by apply list_elem_of_further | done].
  - destruct (decide (k e = i)) as [Heq|Hne].
    + rewrite <- Heq, lookup_insert_eq in Hx. injection Hx as <-.
      left. exists e. split; [apply list_elem_of_here | done].
    + rewrite lookup_insert_ne in Hx by done. by right.
Qed.

Section SnapshotContent.
Context {F : Type} `{Float64 F}.
Implicit Types (subs : list Submission) (ps : list Problem) (t key : string).

(** X17. In every snapshot, whatever the aggregate it is built from, a
    stored problem carries an origin flag only if it is stored as solved
    and a failure flag only if it is stored as not solved; and the
    snapshot built after a fetch stores one entry per catalog key, each
    solved one with an origin. *)
Theorem snapshot_problem_flags_consistent (now handle : string) subs ps
    (agg : Agg.t F) :
  map_Forall (λ _ p,
      (SnapProblem.contest p || SnapProblem.practice p → SnapProblem.solved p)
      ∧ (SnapProblem.failedContest p || SnapProblem.failedPractice p
         → ¬ SnapProblem.solved p))
    (Snapshot.problems (serialize now handle subs ps agg))
  ∧ map_Forall (λ _ p,
        SnapProblem.solved p → SnapProblem.contest p || SnapProblem.practice p)
      (Snapshot.problems (fetchAndBuildSnapshot (F:=F) now handle subs ps))
  ∧ ∀ key, is_Some (Snapshot.problems
                      (fetchAndBuildSnapshot (F:=F) now handle subs ps) !! key)
           ↔ ∃ p, p ∈ ps ∧ probKey (Some p) = key.
Proof.
  split_and!.
  - intros key p Hp. simpl in Hp.
    apply foldInsert_lookup_Some in Hp as [([k m] & _ & _ & <-)|Hp];
      [|by rewrite lookup_empty in Hp].
    simpl. destruct (optSolved _), (optContest _), (optPractice _),
      (optFailedContest _), (optFailedPractice _); simpl; split; tauto.
  - intros key p Hp. unfold fetchAndBuildSnapshot in Hp.
    rewrite snapshot_problems_lookup in Hp
      by (rewrite freshAggregate_perProblemMeta; apply buildIndex_NoDup).
    destruct (JsMap.get key _) as [m|]; [|done]. injection Hp as <-.
    unfold snapProblemOf, freshAggregate. cbn -[aggregate].
    rewrite !aggregate_perProblemStatus, !aggregate_perProblemOrigin.
    pose proof (classify_solvedHaveOrigin (buildIndex ps).2 subs key) as Ho.
    unfold solvedAt, contestAt, practiceAt, optSolved, optContest, optPractice in Ho.
    destruct (from_option Status.solved false _); simpl; [|done]. intros _.
    rewrite !andb_true_r. apply Is_true_true. by apply Ho.
  - intros key. unfold fetchAndBuildSnapshot.
    rewrite snapshot_problems_lookup
      by (rewrite freshAggregate_perProblemMeta; apply buildIndex_NoDup).
    rewrite freshAggregate_perProblemMeta, fmap_is_Some, <- keys_is_Some.
    rewrite buildIndex_last_entry_keys, JsSetFacts.elem_of_of_list, list_elem_of_fmap.
    split; intros (p & ? & ?); by exists p.
Qed.

End SnapshotContent.

(** ** The aggregate read back from a snapshot *)

Lemma elem_of_fold_add_if {A K} `{EqDecision K} (k : A → K) (c : A → bool)
    (l : list A) (acc : list K) (x : K) :
  x ∈ fold_left (λ s e, if c e then JsSet.add (k e) s else s) l acc
  ↔ x ∈ acc ∨ ∃ e, e ∈ l ∧ k e = x ∧ c e = true.
Proof.
  revert acc. induction l as [|e l IH]; intros acc; simpl.
  - split; [by left|]. intros [?|(e & He & _)]; [done|]. by apply elem_of_nil in He.
  - rewrite IH. split.
    + intros [Hacc|(e' & He' & Hk & Hc)].
      * destruct (c e) eqn:Hce; [|by left].
        apply JsSetFacts.elem_of_add in Hacc as [->|Hacc]; [|by left].
        right. exists e. split; [apply list_elem_of_here | done].
      * right. exists e'. split; [by apply list_elem_of_further | done].
    + intros [Hacc|(e' & He' & Hk & Hc)].
      * left. destruct (c e); [|done]. apply JsSetFacts.elem_of_add. by right.
      * apply elem_of_cons in He' as [->|He'].
        -- left. rewrite Hc. apply JsSetFacts.elem_of_add. by left.
        -- right. by exists e'.
Qed.

Section Rehydrated.
Context {F : Type} `{Float64 F}.
Implicit Types (subs : list Submission) (ps : list Problem) (t key : string).
Implicit Types (agg : Agg.t F).

Lemma rehydrated_meta (now handle : string) subs ps agg key :
  NoDup (JsMap.keys (Agg.perProblemMeta agg)) →
  JsMap.get key (Agg.perProblemMeta (rehydrate (serialize now handle subs ps agg)))
  = JsMap.get key (Agg.perProblemMeta agg).
Proof.
  intros Hnd. unfold rehydrate. cbn [Agg.perProblemMeta].
  rewrite (rehydrated_get
             (λ _ p, Meta.mk (SnapProblem.tags p) (SnapProblem.rating p)
                       (SnapProblem.name p))).
  rewrite snapshot_problems_lookup by done.
  destruct (JsMap.get key (Agg.perProblemMeta agg)) as [[tags rating name]|]; done.
Qed.

Lemma rehydrated_status (now handle : string) subs ps agg key :
  NoDup (JsMap.keys (Agg.perProblemMeta agg)) →
  JsMap.get key (Agg.perProblemStatus (rehydrate (serialize now handle subs ps agg)))
  = (λ _, let st := JsMap.get key (Agg.perProblemStatus agg) in
          Status.mk (optSolved st)
            (optFailedContest st && negb (optSolved st))
            (optFailedPractice st && negb (optSolved st)))
    <$> JsMap.get key (Agg.perProblemMeta agg).
Proof.
  intros Hnd. unfold rehydrate. cbn [Agg.perProblemStatus].
  rewrite (rehydrated_get
             (λ _ p, Status.mk (SnapProblem.solved p) (SnapProblem.failedContest p)
                       (SnapProblem.failedPractice p))).
  rewrite snapshot_problems_lookup by done.
  by destruct (JsMap.get key (Agg.perProblemMeta agg)).
Qed.

Lemma rehydrated_origin (now handle : string) subs ps agg key :
  NoDup (JsMap.keys (Agg.perProblemMeta agg)) →
  JsMap.get key (Agg.perProblemOrigin (rehydrate (serialize now handle subs ps agg)))
  = (λ _, let st := JsMap.get key (Agg.perProblemStatus agg) in
          let og := JsMap.get key (Agg.perProblemOrigin agg) in
          Origin.mk (optContest og && optSolved st) (optPractice og && optSolved st))
    <$> JsMap.get key (Agg.perProblemMeta agg).
Proof.
  intros Hnd. unfold rehydrate. cbn [Agg.perProblemOrigin].
  rewrite (rehydrated_get
             (λ _ p, Origin.mk (SnapProblem.contest p) (SnapProblem.practice p))).
  rewrite snapshot_problems_lookup by done.
  by destruct (JsMap.get key (Agg.perProblemMeta agg)).
Qed.

Lemma rehydrated_ptl (now handle : string) subs ps agg t :
  NoDup (JsMap.keys (Agg.perTagProblemList agg)) →
  JsMap.get t (Agg.perTagProblemList (rehydrate (serialize now handle subs ps agg)))
  = JsSet.of_list <$> JsMap.get t (Agg.perTagProblemList agg).
Proof.
  intros Hnd. unfold rehydrate, serialize, withTagProblemKeys.
  cbn [Agg.perTagProblemList Snapshot.tagProblemKeys].
  rewrite (rehydrated_get (λ _ arr, JsSet.of_list arr)). f_equal.
  destruct (JsMap.get t (Agg.perTagProblemList agg)) as [set|] eqn:Hget.
  - apply JsMapFacts.get_Some_elem in Hget.
    by rewrite (foldInsert_in fst snd _ _ (t, set)).
  - rewrite foldInsert_notin; [apply lookup_empty|].
    by apply JsMapFacts.get_None_keys in Hget.
Qed.

Lemma freshAggregate_ptl_NoDup subs ps :
  NoDup (JsMap.keys (Agg.perTagProblemList (freshAggregate (F:=F) subs ps))).
Proof.
  rewrite freshAggregate_perTagProblemList. unfold aggregateAcc.
  rewrite runWork_ptl_keys. apply runWork_NoDup_keys.
Qed.

Lemma freshAggregate_set_NoDup subs ps t set :
  JsMap.get t (Agg.perTagProblemList (freshAggregate (F:=F) subs ps)) = Some set →
  NoDup set.
Proof.
  rewrite freshAggregate_perTagProblemList. unfold aggregateAcc.
  rewrite runWork_ptl.
  destruct (occurrences t _); [done|]. intros [= <-].
  apply JsSetFacts.NoDup_of_list.
Qed.

Lemma freshAggregate_status subs ps :
  Agg.perProblemStatus (freshAggregate (F:=F) subs ps)
  = Classified.perProblemStatus (classify (buildIndex ps).2 subs).
Proof. unfold freshAggregate. simpl. apply aggregate_perProblemStatus. Qed.

Lemma freshAggregate_origin subs ps :
  Agg.perProblemOrigin (freshAggregate (F:=F) subs ps)
  = Classified.perProblemOrigin (classify (buildIndex ps).2 subs).
Proof. unfold freshAggregate. simpl. apply aggregate_perProblemOrigin. Qed.

Lemma freshAggregate_solvedProblems subs ps :
  Agg.solvedProblems (freshAggregate (F:=F) subs ps)
  = Classified.solvedProblems (classify (buildIndex ps).2 subs).
Proof. unfold freshAggregate. simpl. apply aggregate_solvedProblems. Qed.

(** The flags of a problem as the consumers of a read-back aggregate see
    them. *)
Lemma rehydrated_fresh_flags (now handle : string) subs ps key :
  let X := freshAggregate (F:=F) subs ps in
  let X' := rehydrate (fetchAndBuildSnapshot (F:=F) now handle subs ps) in
  let st := JsMap.get key (Agg.perProblemStatus X) in
  let st' := JsMap.get key (Agg.perProblemStatus X') in
  let og := JsMap.get key (Agg.perProblemOrigin X) in
  let og' := JsMap.get key (Agg.perProblemOrigin X') in
  optSolved st' = optSolved st
  ∧ optContest og' = optContest og
  ∧ optPractice og' = optPractice og
  ∧ optFailedContest st' = optFailedContest st && negb (optSolved st).
Proof.
  cbv zeta. unfold fetchAndBuildSnapshot.
  rewrite rehydrated_status, rehydrated_origin
    by (rewrite freshAggregate_perProblemMeta; apply buildIndex_NoDup).
  rewrite freshAggregate_perProblemMeta, freshAggregate_status, freshAggregate_origin.
  destruct (JsMap.get key (buildIndex ps).1) as [m|] eqn:Hmeta; simpl.
  - pose proof (fold_origin_solved (buildIndex ps).2 Classified.init subs key
                  (λ Hinit, Hinit)) as Horigin.
    unfold classify, contestAt, practiceAt, solvedAt in *.
    destruct (optSolved _); simpl; [by rewrite !andb_true_r|].
    rewrite !andb_false_r. simpl in Horigin.
    destruct (optContest _), (optPractice _); simpl in *;
      split_and!; try done; by exfalso; apply Horigin.
  - destruct (classify_unindexed (buildIndex ps).2 subs key) as [-> ->]; [|done].
    rewrite buildIndex_probIndex. unfold JsMap.has. by rewrite Hmeta.
Qed.

Lemma rehydrate_fresh_lookups (now handle : string) subs ps :
  let X := freshAggregate (F:=F) subs ps in
  let X' := rehydrate (fetchAndBuildSnapshot (F:=F) now handle subs ps) in
  (∀ key, JsMap.get key (Agg.perProblemMeta X') = JsMap.get key (Agg.perProblemMeta X))
  ∧ (∀ t, JsMap.get t (Agg.perTagProblemList X')
          = JsMap.get t (Agg.perTagProblemList X)).
Proof.
  cbv zeta. unfold fetchAndBuildSnapshot. split.
  - intros key. apply rehydrated_meta.
    rewrite freshAggregate_perProblemMeta. apply buildIndex_NoDup.
  - intros t. rewrite rehydrated_ptl by apply freshAggregate_ptl_NoDup.
    destruct (JsMap.get t _) as [set|] eqn:Hset; [|done]. simpl. f_equal.
    apply JsSetFacts.of_list_NoDup. by eapply freshAggregate_set_NoDup.
Qed.

(** X18. Reading a fresh snapshot back loses nothing the drill-down needs:
    the stored facts of every problem, the problem set of every tag and
    the membership of [solvedProblems] are those of the aggregate the
    snapshot was built from; the rating sets are not stored and come back
    empty. *)
Theorem rehydrate_restores_problems_and_sets (now handle : string) subs ps :
  let X := freshAggregate (F:=F) subs ps in
  let X' := rehydrate (fetchAndBuildSnapshot (F:=F) now handle subs ps) in
  (∀ key, JsMap.get key (Agg.perProblemMeta X') = JsMap.get key (Agg.perProblemMeta X))
  ∧ (∀ t, JsMap.get t (Agg.perTagProblemList X')
          = JsMap.get t (Agg.perTagProblemList X))
  ∧ (∀ key, key ∈ Agg.solvedProblems X' ↔ key ∈ Agg.solvedProblems X)
  ∧ Agg.tagRatingsAll X' = [].
Proof.
  cbv zeta. destruct (rehydrate_fresh_lookups now handle subs ps) as [Hm Hp].
  unfold fetchAndBuildSnapshot in *. split_and!; [done | done | |].
  - intros key. unfold rehydrate. cbn [Agg.solvedProblems].
    rewrite (elem_of_fold_add_if fst (λ e, SnapProblem.solved e.2)).
    rewrite elem_of_nil, freshAggregate_solvedProblems.
    destruct (classify_solvedProblems (buildIndex ps).2 subs) as [_ Hin].
    rewrite Hin. unfold solvedAt. split.
    + intros [?|([k p] & He & <- & Hs)]; [done|]. cbn [fst snd] in *.
      apply elem_of_map_to_list in He.
      rewrite snapshot_problems_lookup in He
        by (rewrite freshAggregate_perProblemMeta; apply buildIndex_NoDup).
      destruct (JsMap.get k _) as [m|]; [|done]. injection He as <-.
      unfold snapProblemOf in Hs. cbn [SnapProblem.solved] in Hs.
      by rewrite freshAggregate_status in Hs.
    + intros Hs. right.
      destruct (JsMap.get key (buildIndex ps).1) as [m|] eqn:Hmeta.
      * exists (key, snapProblemOf (freshAggregate subs ps) key m).
        split_and!; [|done|].
        -- apply elem_of_map_to_list. rewrite snapshot_problems_lookup
             by (rewrite freshAggregate_perProblemMeta; apply buildIndex_NoDup).
           by rewrite freshAggregate_perProblemMeta, Hmeta.
        -- unfold snapProblemOf. cbn [snd SnapProblem.solved].
           by rewrite freshAggregate_status.
      * destruct (classify_unindexed (buildIndex ps).2 subs key) as [Hst _].
        { rewrite buildIndex_probIndex. unfold JsMap.has. by rewrite Hmeta. }
        by rewrite Hst in Hs.
  - done.
Qed.

End Rehydrated.

(** ** Drill-down on a read-back aggregate *)

Section DrillDown.
Context {F : Type} `{Float64 F}.
Implicit Types (subs : list Submission) (ps : list Problem) (t key : string).
Implicit Types (agg : Agg.t F).

Lemma intersectLoop_ext (ptl ptl' : list (string * list string))
    (tags : list string) (inter : option (list string)) :
  (∀ t, JsMap.get t ptl = JsMap.get t ptl') →
  intersectLoop ptl tags inter = intersectLoop ptl' tags inter.
Proof.
  intros Hext. revert inter. induction tags as [|t tags IH]; intros inter; simpl;
    [done|].
  rewrite <- Hext. destruct (JsMap.get t ptl) as [set|]; [|done].
  destruct (length _ =? 0)%nat; [done | apply IH].
Qed.

Lemma interBucketStep_ext agg agg' (diffMap : list (Z * Bucket.t)) key :
  JsMap.get key (Agg.perProblemMeta agg') = JsMap.get key (Agg.perProblemMeta agg) →
  optSolved (JsMap.get key (Agg.perProblemStatus agg'))
  = optSolved (JsMap.get key (Agg.perProblemStatus agg)) →
  optContest (JsMap.get key (Agg.perProblemOrigin agg'))
  = optContest (JsMap.get key (Agg.perProblemOrigin agg)) →
  optFailedContest (JsMap.get key (Agg.perProblemStatus agg'))
  = optFailedContest (JsMap.get key (Agg.perProblemStatus agg))
    && negb (optSolved (JsMap.get key (Agg.perProblemStatus agg))) →
  interBucketStep agg' diffMap key = interBucketStep agg diffMap key.
Proof.
  intros Hm Hs Hc Hf. unfold interBucketStep. rewrite Hm, Hs, Hc, Hf.
  destruct (JsMap.get key (Agg.perProblemMeta agg)); [|done].
  destruct (optSolved (JsMap.get key (Agg.perProblemStatus agg))); [done|].
  by rewrite andb_true_r.
Qed.

Lemma interFold_rehydrated (now handle : string) subs ps (inter : list string) :
  fold_left (interBucketStep
               (rehydrate (fetchAndBuildSnapshot (F:=F) now handle subs ps))) inter []
  = fold_left (interBucketStep (freshAggregate (F:=F) subs ps)) inter [].
Proof.
  destruct (rehydrate_fresh_lookups now handle subs ps) as [Hmeta _].
  apply fold_left_ext_in. intros diffMap key _.
  destruct (rehydrated_fresh_flags now handle subs ps key) as (Hs & Hc & _ & Hf).
  by apply interBucketStep_ext.
Qed.

(** X19. The intersection engine gives the same map, bucket for bucket and
    in the same order, on the aggregate read back from a fresh snapshot as
    on the aggregate the snapshot was built from. *)
Theorem intersection_survives_round_trip (now handle : string) subs ps
    (tags : list string) :
  buildIntersectionBuckets tags
    (rehydrate (fetchAndBuildSnapshot (F:=F) now handle subs ps))
  = buildIntersectionBuckets tags (freshAggregate (F:=F) subs ps).
Proof.
  destruct (rehydrate_fresh_lookups now handle subs ps) as [_ Hptl].
  unfold buildIntersectionBuckets.
  rewrite (intersectLoop_ext _ _ tags None Hptl).
  destruct (intersectLoop _ tags None) as [inter|]; [|done].
  destruct (length inter =? 0)%nat; [done|].
  apply interFold_rehydrated.
Qed.

Lemma buildIntersectionBuckets_single agg t :
  buildIntersectionBuckets [t] agg
  = default []
      ((λ set, tagDiffMap agg (JsSet.of_list set))
         <$> JsMap.get t (Agg.perTagProblemList agg)).
Proof.
  unfold buildIntersectionBuckets. cbn [intersectLoop].
  destruct (JsMap.get t (Agg.perTagProblemList agg)) as [set|]; [|done].
  cbn [fmap option_fmap option_map default].
  destruct (length (JsSet.of_list set) =? 0)%nat eqn:Hlen; rewrite Hlen.
  - apply length_zero_nil in Hlen. by rewrite Hlen.
  - apply interFold_tagDiffMap.
Qed.

(** X20. With one tag selected the drill-down reads the stored buckets of
    the tag instead of running the intersection engine; on a fresh
    snapshot both give the same bucket at every rating, and nothing is
    shown only when the engine would find no problem. *)
Theorem single_tag_selection_agrees (now handle : string) subs ps t :
  let snap := fetchAndBuildSnapshot (F:=F) now handle subs ps in
  let agg := rehydrate snap in
  match selectionDiffMap [t] agg snap with
  | Some diffMap =>
      ∀ k, JsMap.get k diffMap
           = match k with
             | Some r => JsMap.get r (buildIntersectionBuckets [t] agg)
             | None => None
             end
  | None => buildIntersectionBuckets [t] agg = []
  end.
Proof.
  cbv zeta.
  destruct (rehydrate_fresh_lookups now handle subs ps) as [_ Hptl].
  assert (Hsame : buildIntersectionBuckets [t]
                    (rehydrate (fetchAndBuildSnapshot (F:=F) now handle subs ps))
                  = buildIntersectionBuckets [t] (freshAggregate (F:=F) subs ps)).
  { unfold buildIntersectionBuckets.
    rewrite (intersectLoop_ext _ _ [t] None Hptl).
    destruct (intersectLoop _ [t] None) as [inter|]; [|done].
    destruct (length inter =? 0)%nat; [done|]. apply interFold_rehydrated. }
  rewrite Hsame. clear Hsame Hptl.
  unfold selectionDiffMap, fetchAndBuildSnapshot.
  pose proof (snapshot_tags_lookup now handle subs ps
                (freshAggregate (F:=F) subs ps) t
                (freshAggregate_tags_NoDup subs ps)) as Hlookup.
  rewrite buildIntersectionBuckets_single.
  pose proof (freshAggregate_set_NoDup subs ps t) as Hnd.
  destruct (Snapshot.tags (serialize now handle subs ps
                             (freshAggregate (F:=F) subs ps)) !! t)
    as [tagObj|]; cbn [fmap option_fmap option_map] in Hlookup.
  - case_bool_decide as Hin; [|done]. injection Hlookup as ->.
    intros k. rewrite buckets_round_trip.
    rewrite buildAll_get, bool_decide_eq_true_2 by done.
    destruct k as [r|]; [|done].
    destruct (JsMap.get t (Agg.perTagProblemList (freshAggregate (F:=F) subs ps)))
      as [set|]; [|done].
    cbn [fmap option_fmap option_map default].
    by rewrite JsSetFacts.of_list_NoDup by (by apply Hnd).
  - case_bool_decide as Hin; [done|].
    rewrite freshAggregate_tags_keys, keys_is_Some in Hin.
    destruct (JsMap.get t (Agg.perTagProblemList (freshAggregate (F:=F) subs ps)))
      as [set|]; [|done].
    exfalso. by apply Hin.
Qed.

End DrillDown.

(** ** The cache read, exactly *)

Section CacheExact.
Variable JSON_parse : string → option JsValue.
Variable Date_parse : string → option Z.
Variable Date_ofObject : JsValue → option Z.
Implicit Types (storage : string → option string) (now : Z) (key raw : string).

(** X21. The cache read returns an object exactly when the stored text is
    not empty, parses to that object, the object has a numeric
    [schemaVersion] equal to 2, and its age is not above the limit; in
    particular [null], numbers, strings, arrays and a text that does not
    parse are never returned. *)
Theorem loadSnapshot_hit_exactly storage now key (obj : JsValue) :
  loadSnapshot JSON_parse Date_parse Date_ofObject storage now key = Some obj
  ↔ ∃ raw fields q,
      storage key = Some raw ∧ raw ≠ "" ∧ JSON_parse raw = Some obj
      ∧ obj = JObj fields
      ∧ JsMap.get "schemaVersion" fields = Some (JNum q) ∧ Qeq_bool q 2 = true
      ∧ gtNumber ((λ t, now - t) <$> dateGetTime Date_parse Date_ofObject
                                       (JsMap.get "generatedAt" fields))
          (CACHE_TTL_HOURS * 3600 * 1000) = false.
Proof.
  unfold loadSnapshot, loadSnapshotTry. split.
  - destruct (storage key) as [raw|]; [|done].
    destruct (String.eqb_spec raw ""); [done|].
    destruct (JSON_parse raw) as [v|] eqn:Hparse; [|done].
    destruct v as [|b|q|s|items|fields]; simpl; try done.
    destruct (JsMap.get "schemaVersion" fields) as [[|b|q|s|items|fs]|] eqn:Hsv;
      simpl; try done.
    destruct (Qeq_bool q 2) eqn:Hq; simpl; [|done].
    destruct (gtNumber _ _) eqn:Hage; [done|]. intros [= <-].
    by exists raw, fields, q.
  - intros (raw & fields & q & -> & Hne & -> & -> & Hsv & Hq & Hage).
    destruct (String.eqb_spec raw ""); [done|]. simpl.
    by rewrite Hsv, Hage; simpl; rewrite Hq.
Qed.

(** X22. The age limit is inclusive: a stored object of the current
    version whose [generatedAt] is a valid date is returned exactly when
    its age in milliseconds is at most 21600000 (six hours), so also when
    it is dated in the future. *)
Theorem loadSnapshot_age_limit storage now key raw fields (q : Q) (t : Z) :
  storage key = Some raw → raw ≠ "" →
  JSON_parse raw = Some (JObj fields) →
  JsMap.get "schemaVersion" fields = Some (JNum q) → Qeq_bool q 2 = true →
  dateGetTime Date_parse Date_ofObject (JsMap.get "generatedAt" fields) = Some t →
  loadSnapshot JSON_parse Date_parse Date_ofObject storage now key
  = if now - t <=? 21600000 then Some (JObj fields) else None.
Proof.
  intros Hraw Hne Hparse Hsv Hq Ht. unfold loadSnapshot, loadSnapshotTry.
  rewrite Hraw. destruct (String.eqb_spec raw ""); [done|].
  rewrite Hparse. simpl. rewrite Hsv, Ht. simpl. rewrite Hq. simpl.
  unfold CACHE_TTL_HOURS. change (6 * 3600 * 1000) with 21600000.
  destruct (now - t <=? 21600000) eqn:Hle.
  - apply Z.leb_le in Hle. by rewrite (proj2 (Z.ltb_ge _ _) Hle).
  - apply Z.leb_gt in Hle. by rewrite (proj2 (Z.ltb_lt _ _) Hle).
Qed.

End CacheExact.

Lemma loadSnapshot_age_limit_witness :
  loadSnapshot Sample.JSON_parse Sample.Date_parse Sample.Date_ofObject
    Sample.storage 21601000 "cfTagStats:petr"
  = Some Sample.dated.
Proof.
  apply (loadSnapshot_age_limit Sample.JSON_parse Sample.Date_parse
           Sample.Date_ofObject Sample.storage 21601000 "cfTagStats:petr"
           "dated" _ 2 1000);
    [reflexivity | discriminate | reflexivity | reflexivity | reflexivity
    | reflexivity].
Defined.

(** ** Sorting is stable *)

Section Stable.
Context {A : Type} (cmp : A → A → Z) (P : A → bool).
Hypothesis P_equal : ∀ x y, P x = true → P y = true → cmp x y ≤ 0.

Lemma filter_sortInsert x l :
  List.filter P (sortInsert cmp x l) = List.filter P (x :: l).
Proof.
  induction l as [|y l IH]; [done|]. cbn [sortInsert].
  destruct (cmp x y <=? 0) eqn:Hc; [done|]. apply Z.leb_gt in Hc.
  cbn [List.filter] in *. rewrite IH.
  destruct (P x) eqn:Hx, (P y) eqn:Hy; try done.
  pose proof (P_equal x y Hx Hy). lia.
Qed.

Lemma js_sort_stable l : List.filter P (js_sort cmp l) = List.filter P l.
Proof.
  induction l as [|x l IH]; [done|]. cbn [js_sort foldr].
  fold (js_sort cmp l). rewrite filter_sortInsert. cbn [List.filter].
  by rewrite IH.
Qed.

End Stable.

(** ** The sort modes of the tag table *)

Section SortModes.
Context {F : Type} `{Float64 F}.
Variable f_sign : F → Z.
Implicit Types (arr : list (TagStat.t F)) (mode : string).

(** X23. Whatever the mode, sorting the table only reorders it: the result
    holds the same statistics as the input, each as often; and the table
    shows a reordering of the first 50 entries of [tagArray]. *)
Theorem sortTags_reorders arr mode (agg : Agg.t F) :
  sortTags f_sign arr mode ≡ₚ arr
  ∧ tableRows f_sign agg mode ≡ₚ take 50 (Agg.tagArray agg)
  ∧ (length (tableRows f_sign agg mode) ≤ 50)%nat.
Proof.
  assert (Hperm : ∀ l, sortTags f_sign l mode ≡ₚ l).
  { intros l. unfold sortTags.
    repeat (destruct (String.eqb mode _); [apply js_sort_perm|]).
    apply js_sort_perm. }
  split_and!; [apply Hperm | apply Hperm |].
  unfold tableRows. rewrite Hperm, length_take. unfold MAX_ROWS. lia.
Qed.

Lemma sortTags_other arr mode :
  mode ∉ namedSortModes → sortTags f_sign arr mode = js_sort bySolved arr.
Proof.
  intros Hmode. unfold sortTags, namedSortModes in *.
  repeat match goal with
         | |- context [String.eqb mode ?m] =>
             destruct (String.eqb_spec mode m) as [->|_];
             [exfalso; apply Hmode; set_solver|]
         end.
  done.
Qed.

(** X24. Every mode other than the six named ones, "solved" included,
    sorts by [solved], greatest first, and keeps tags with the same
    [solved] in the order they had. *)
Theorem sortTags_default_by_solved arr mode :
  mode ∉ namedSortModes →
  StronglySorted (λ a b, TagStat.solved b ≤ TagStat.solved a)
    (sortTags f_sign arr mode)
  ∧ ∀ n, List.filter (λ stat, TagStat.solved stat =? n) (sortTags f_sign arr mode)
         = List.filter (λ stat, TagStat.solved stat =? n) arr.
Proof.
  intros Hmode. rewrite sortTags_other by done. split.
  - apply js_sort_StronglySorted; unfold bySolved; intros; lia.
  - intros n. apply js_sort_stable. unfold bySolved. intros x y Hx Hy.
    apply Z.eqb_eq in Hx, Hy. lia.
Qed.

(** X25. In the mode "next" the tags that have a next target come first,
    smallest target first, and the tags without one come last; among
    equal targets, and among the tags without one, the greater [solved]
    goes first. *)
Theorem sortTags_next_order arr :
  StronglySorted nextOrder (sortTags f_sign arr "next").
Proof.
  change (sortTags f_sign arr "next") with (js_sort byNext arr).
  apply js_sort_StronglySorted; unfold byNext, nextOrder, bySolved.
  - intros a b.
    destruct (TagStat.nextTargetDifficulty a) as [an|],
      (TagStat.nextTargetDifficulty b) as [bn|]; try done; try lia.
    destruct (an =? bn) eqn:Heq; simpl;
      [apply Z.eqb_eq in Heq | apply Z.eqb_neq in Heq]; lia.
  - intros a b.
    destruct (TagStat.nextTargetDifficulty a) as [an|],
      (TagStat.nextTargetDifficulty b) as [bn|]; try done; try lia.
    destruct (an =? bn) eqn:Heq; simpl;
      [apply Z.eqb_eq in Heq | apply Z.eqb_neq in Heq]; lia.
  - intros a b c.
    destruct (TagStat.nextTargetDifficulty a) as [an|],
      (TagStat.nextTargetDifficulty b) as [bn|],
      (TagStat.nextTargetDifficulty c) as [cn|]; try done; lia.
Qed.

Lemma lex_sorted (k1 k2 : TagStat.t F → Z) arr :
  StronglySorted (λ a b, lexGe (k1 a, k2 a) (k1 b, k2 b))
    (js_sort (λ a b, orElse (k1 b - k1 a) (k2 b - k2 a)) arr).
Proof.
  apply js_sort_StronglySorted; unfold lexGe, orElse; simpl.
  - intros a b. destruct (k1 b - k1 a =? 0) eqn:Hz;
      [apply Z.eqb_eq in Hz | apply Z.eqb_neq in Hz]; lia.
  - intros a b. destruct (k1 b - k1 a =? 0) eqn:Hz;
      [apply Z.eqb_eq in Hz | apply Z.eqb_neq in Hz]; lia.
  - intros a b c. lia.
Qed.

(** X26. The modes "max", "failmax" and "failspan" sort by two keys, the
    greater pair first: the highest solved rating and [solved]; the upper
    end of the fail band and its span; the span and the upper end. A
    missing rating counts as 0. In "failspan" a missing span counts as
    -1, and so does a span of 0. *)
Theorem sortTags_two_keys arr :
  Forall (λ mode,
            StronglySorted (λ a b, lexGe (sortKeys mode a) (sortKeys mode b))
              (sortTags f_sign arr mode))
    ["max"; "failmax"; "failspan"]
  ∧ ∀ stat : TagStat.t F,
      TagStat.failSpan stat = Some 0 ∨ TagStat.failSpan stat = None →
      (sortKeys "failspan" stat).1 = -1.
Proof.
  split.
  - repeat apply Forall_cons_2; [| | |apply Forall_nil_2].
    + apply (lex_sorted (λ s, numberOr (TagStat.maxSolved s) 0) TagStat.solved).
    + apply (lex_sorted (λ s, numberOr (TagStat.maxFailedDifficulty s) 0)
               (λ s, numberOr (TagStat.failSpan s) 0)).
    + apply (lex_sorted (λ s, numberOr (TagStat.failSpan s) (-1))
               (λ s, numberOr (TagStat.maxFailedDifficulty s) 0)).
  - intros stat [Hs|Hs]; unfold sortKeys; simpl; by rewrite Hs.
Qed.

End SortModes.

Lemma sortTags_default_by_solved_witness :
  StronglySorted (λ a b : TagStat.t Q, TagStat.solved b ≤ TagStat.solved a)
    (sortTags (λ q, Z.sgn (Qnum q))
       (Agg.tagArray (freshAggregate (F:=Q) Sample.failThenSolve Sample.catalog))
       "solved").
Proof.
  apply (sortTags_default_by_solved (λ q, Z.sgn (Qnum q))
           (Agg.tagArray (freshAggregate (F:=Q) Sample.failThenSolve Sample.catalog))
           "solved").
  apply (bool_decide_unpack _). vm_compute. reflexivity.
Defined.

(** ** Escaped text *)

Lemma escapeChar_cases (c : ascii) :
  (isSpecial c = false ∧ escapeChar c = String c EmptyString)
  ∨ (c = "<"%char ∧ escapeChar c = "&lt;")
  ∨ (c = ">"%char ∧ escapeChar c = "&gt;")
  ∨ (c = "&"%char ∧ escapeChar c = "&amp;")
  ∨ (c = "034"%char ∧ escapeChar c = "&quot;").
Proof.
  unfold escapeChar, isSpecial.
  destruct (Ascii.eqb_spec c "<") as [->|_]; [tauto|].
  destruct (Ascii.eqb_spec c ">") as [->|_]; [tauto|].
  destruct (Ascii.eqb_spec c "&") as [->|_]; [tauto|].
  destruct (Ascii.eqb_spec c "034") as [->|_]; [tauto|].
  by left.
Qed.

(** X27. The result of [escapeHTML] holds no [<], no [>] and no double
    quote, so it cannot close the attribute or the element it is written
    into; a text without any of the four special characters is returned
    as it is. *)
Theorem escapeHTML_output_safe (s : string) :
  Forall (λ c, c ≠ "<"%char ∧ c ≠ ">"%char ∧ c ≠ "034"%char)
    (list_ascii_of_string (escapeHTML s))
  ∧ (forallb (λ c, negb (isSpecial c)) (list_ascii_of_string s) = true →
     escapeHTML s = s).
Proof.
  split.
  - induction s as [|c s IH]; simpl; [apply Forall_nil_2|].
    destruct (escapeChar_cases c)
      as [[Hc ->]|[[-> ->]|[[-> ->]|[[-> ->]|[-> ->]]]]]; simpl;
      repeat (apply Forall_cons; split; [done|]); try done.
    apply Forall_cons. split; [|done]. unfold isSpecial in Hc.
    repeat (apply orb_false_iff in Hc as [Hc ?]).
    split_and!; intros ->; done.
  - induction s as [|c s IH]; simpl; [done|].
    intros Hall. apply andb_true_iff in Hall as [Hc Hall].
    apply negb_true_iff in Hc.
    destruct (escapeChar_cases c)
      as [[_ ->]|[[-> _]|[[-> _]|[[-> _]|[-> _]]]]]; try done.
    simpl. by rewrite IH.
Qed.

(** X28. [escapeHTML] loses nothing: two texts with the same escaped form
    are the same text. *)
Theorem escapeHTML_injective (s t : string) :
  escapeHTML s = escapeHTML t → s = t.
Proof.
  revert t. induction s as [|c s IH]; intros [|d t] Heq; simpl in Heq.
  - done.
  - exfalso. destruct (escapeChar_cases d)
      as [[_ Hd]|[[_ Hd]|[[_ Hd]|[[_ Hd]|[_ Hd]]]]]; rewrite Hd in Heq; done.
  - exfalso. destruct (escapeChar_cases c)
      as [[_ Hc]|[[_ Hc]|[[_ Hc]|[[_ Hc]|[_ Hc]]]]]; rewrite Hc in Heq; done.
  - destruct (escapeChar_cases c)
      as [[Hsc Hc]|[[-> Hc]|[[-> Hc]|[[-> Hc]|[-> Hc]]]]];
    destruct (escapeChar_cases d)
      as [[Hsd Hd]|[[-> Hd]|[[-> Hd]|[[-> Hd]|[-> Hd]]]]];
    rewrite ?Hc, ?Hd in Heq; simpl in Heq; try discriminate Heq;
    try (injection Heq as Heq; f_equal; by apply IH);
    try (injection Heq as -> Heq; f_equal; by apply IH);
    try (injection Heq as <- _; done);
    try (injection Heq as -> _; done).
Qed.

Lemma escapeHTML_injective_witness : "a<b" = "a<b".
Proof. apply (escapeHTML_injective "a<b" "a<b"). reflexivity. Defined.

(** ** Scoring leaves the statistics alone *)

Lemma maxWithOne_bounds (xs : list Z) :
  1 ≤ maxWithOne xs ∧ Forall (λ x, x ≤ maxWithOne xs) xs.
Proof.
  unfold maxWithOne. induction xs as [|x xs [IH1 IH2]]; simpl.
  - split; [lia | apply Forall_nil_2].
  - split; [lia|]. apply Forall_cons. split; [lia|].
    eapply Forall_impl; [exact IH2|]. simpl. intros y Hy. lia.
Qed.

Section Scoring.
Context {F : Type} `{Float64 F}.
Implicit Types (subs : list Submission) (ps : list Problem).

Lemma Forall2_map_r_diag {A} (R : A → A → Prop) (g : A → A) (l : list A) :
  (∀ x, R x (g x)) → Forall2 R l (map g l).
Proof. intros Hg. induction l as [|x l IH]; simpl; by constructor. Qed.

(** X29. The two passes that follow [aggregate], scoring and the fail
    band, touch three fields of a statistic and nothing else: [tagArray]
    keeps its length and its order, every counter, [solvePercent],
    [maxSolved], [nextTargetDifficulty] and [solvedDiffs] keep their
    values, and the maps and sets of the aggregate are unchanged. No
    quotient of the score has a zero divisor: the two normalisers are at
    least 1, and a next target lies above [maxSolved] (0 when null), so
    the difference they are subtracted to is positive. *)
Theorem scoring_keeps_statistics subs ps :
  let agg := aggregate (F:=F) subs ps in
  let X := freshAggregate (F:=F) subs ps in
  Forall2 (λ s s',
             TagStat.tag s' = TagStat.tag s
             ∧ TagStat.totalAvailable s' = TagStat.totalAvailable s
             ∧ TagStat.solved s' = TagStat.solved s
             ∧ TagStat.solvedContest s' = TagStat.solvedContest s
             ∧ TagStat.solvedPractice s' = TagStat.solvedPractice s
             ∧ TagStat.solvePercent s' = TagStat.solvePercent s
             ∧ TagStat.maxSolved s' = TagStat.maxSolved s
             ∧ TagStat.nextTargetDifficulty s' = TagStat.nextTargetDifficulty s
             ∧ TagStat.solvedDiffs s' = TagStat.solvedDiffs s)
    (Agg.tagArray agg) (Agg.tagArray X)
  ∧ (Agg.perTagProblemList X, Agg.perProblemMeta X, Agg.solvedProblems X,
     Agg.perProblemOrigin X, Agg.tagRatingsAll X, Agg.perProblemStatus X)
    = (Agg.perTagProblemList agg, Agg.perProblemMeta agg, Agg.solvedProblems agg,
       Agg.perProblemOrigin agg, Agg.tagRatingsAll agg, Agg.perProblemStatus agg)
  ∧ 1 ≤ maxWithOne (map TagStat.solved (Agg.tagArray agg))
  ∧ 1 ≤ maxWithOne (map (λ t, default 0 (TagStat.maxSolved t)) (Agg.tagArray agg))
  ∧ Forall (λ s, match TagStat.nextTargetDifficulty s with
                 | Some n => 0 < n - default 0 (TagStat.maxSolved s)
                 | None => True
                 end) (Agg.tagArray agg).
Proof.
  cbv zeta. split_and!; [| done | apply maxWithOne_bounds.. |].
  - unfold freshAggregate, computeFailedDifficultyBand.
    cbn [Agg.tagArray].
    destruct (computeRecommendationScores_map (Agg.tagArray (aggregate subs ps)))
      as [score ->].
    rewrite map_map. apply Forall2_map_r_diag. intros stat.
    destruct (failBandOf_frame
                {| Agg.tagArray :=
                     map (λ stat0, setRecommendScore (score stat0) stat0)
                       (Agg.tagArray (aggregate (F:=F) subs ps));
                   Agg.perTagProblemList := Agg.perTagProblemList (aggregate subs ps);
                   Agg.perProblemMeta := Agg.perProblemMeta (aggregate subs ps);
                   Agg.solvedProblems := Agg.solvedProblems (aggregate subs ps);
                   Agg.perProblemOrigin := Agg.perProblemOrigin (aggregate subs ps);
                   Agg.tagRatingsAll := Agg.tagRatingsAll (aggregate subs ps);
                   Agg.perProblemStatus := Agg.perProblemStatus (aggregate subs ps) |}
                (setRecommendScore (score stat) stat))
      as (-> & -> & -> & -> & -> & -> & -> & -> & -> & _).
    done.
  - apply Forall_forall. intros stat Hin.
    apply aggregate_tagArray_elem in Hin as (t & _ & ->).
    destruct (runWork_stat_basic (F:=F) (classify (buildIndex ps).2 subs)
                (workItems (buildIndex ps).1) t) as (Htag & _ & Hnext & _).
    fold (aggregateAcc (F:=F) subs ps) in Htag, Hnext.
    cbn [postPass TagStat.nextTargetDifficulty TagStat.maxSolved].
    rewrite Htag, Hnext.
    destruct (TagStat.maxSolved (statAt (aggregateAcc subs ps) t)) as [mx|]; [|done].
    destruct (JsMap.get t (acc_tagRatingsAll (aggregateAcc subs ps))) as [allR|];
      [|done].
    pose proof (nextTarget_least mx allR) as Hleast.
    destruct (nextTarget (Some mx) (Some allR) None) as [r|]; [|done].
    destruct Hleast as (_ & Hlt & _). simpl. lia.
Qed.

End Scoring.

(** ** The rows of a drill-down, in order *)

Lemma sortInsert_map {A B} (cmp : B → B → Z) (f : A → B) (x : A) (l : list A) :
  sortInsert cmp (f x) (map f l) = map f (sortInsert (λ a b, cmp (f a) (f b)) x l).
Proof.
  induction l as [|y l IH]; simpl; [done|].
  destruct (cmp (f x) (f y) <=? 0); simpl; [done|]. by rewrite IH.
Qed.

Lemma js_sort_map {A B} (cmp : B → B → Z) (f : A → B) (l : list A) :
  js_sort cmp (map f l) = map f (js_sort (λ a b, cmp (f a) (f b)) l).
Proof.
  induction l as [|x l IH]; simpl; [done|].
  unfold js_sort in *. simpl. by rewrite IH, sortInsert_map.
Qed.

Lemma StronglySorted_le_lt (l : list Z) :
  StronglySorted Z.le l → NoDup l → StronglySorted Z.lt l.
Proof.
  induction 1 as [|x l Hs IH Hall]; intros Hnd; constructor.
  - apply IH. by apply NoDup_cons in Hnd as [_ ?].
  - apply NoDup_cons in Hnd as [Hx _]. apply Forall_forall. intros y Hy.
    pose proof (proj1 (Forall_forall _ _) Hall y Hy).
    assert (x ≠ y) by (intros ->; done). lia.
Qed.

Lemma numeric_keys (diffMap : list (option Z * Bucket.t)) :
  Forall (λ e, is_Some e.1) diffMap →
  ∃ dmZ : list (Z * Bucket.t), diffMap = map (λ e, (Some e.1, e.2)) dmZ.
Proof.
  induction 1 as [|[k b] l [r Hr] _ [dmZ ->]]; [by exists []|].
  simpl in Hr. subst k. by exists ((r, b) :: dmZ).
Qed.

Lemma foldSet_NoDup_keys {A K V} `{EqDecision K} (k : A → K) (v : A → V)
    (l : list A) (m : list (K * V)) :
  NoDup (JsMap.keys m) →
  NoDup (JsMap.keys (fold_left (λ m e, JsMap.set (k e) (v e) m) l m)).
Proof.
  revert m. induction l as [|e l IH]; intros m Hnd; simpl; [done|].
  apply IH. by apply JsMapFacts.NoDup_keys_set.
Qed.

Lemma foldSet_Forall {A K V} `{EqDecision K} (P : K * V → Prop) (k : A → K)
    (v : A → V) (l : list A) (m : list (K * V)) :
  Forall P m → Forall (λ e, P (k e, v e)) l →
  Forall P (fold_left (λ m e, JsMap.set (k e) (v e) m) l m).
Proof.
  revert m. induction l as [|e l IH]; intros m Hm Hl; simpl; [done|].
  apply Forall_cons in Hl as [He Hl]. apply IH; [|done].
  by apply JsMapFacts.Forall_set.
Qed.

Lemma extentStep_bounds (acc : Z * Z) (e : option Z * Bucket.t) :
  acc.1 ≤ (extentStep acc e).1 ∧ acc.2 ≤ (extentStep acc e).2
  ∧ Bucket.solvedContest e.2 + Bucket.solvedPractice e.2 ≤ (extentStep acc e).1
  ∧ Bucket.failedContest e.2 + Bucket.unsolved e.2 ≤ (extentStep acc e).2.
Proof.
  unfold extentStep. cbn [fst snd].
  destruct (Z.ltb_spec acc.1
              (Bucket.solvedContest e.2 + Bucket.solvedPractice e.2)),
    (Z.ltb_spec acc.2 (Bucket.failedContest e.2 + Bucket.unsolved e.2)); lia.
Qed.

Lemma extentFold_bounds (rows : list (option Z * Bucket.t)) (acc : Z * Z) :
  acc.1 ≤ (fold_left extentStep rows acc).1
  ∧ acc.2 ≤ (fold_left extentStep rows acc).2
  ∧ Forall (λ e, Bucket.solvedContest e.2 + Bucket.solvedPractice e.2
                 ≤ (fold_left extentStep rows acc).1
                 ∧ Bucket.failedContest e.2 + Bucket.unsolved e.2
                   ≤ (fold_left extentStep rows acc).2) rows.
Proof.
  revert acc. induction rows as [|e rows IH]; intros acc; simpl.
  - split_and!; [lia | lia | apply Forall_nil_2].
  - destruct (IH (extentStep acc e)) as (Hm1 & Hm2 & Hall).
    destruct (extentStep_bounds acc e) as (H1 & H2 & H3 & H4).
    split_and!; [lia | lia |]. apply Forall_cons. split; [lia | done].
Qed.

Lemma graphExtents_bounds (rows : list (option Z * Bucket.t)) :
  1 ≤ (graphExtents rows).1 ∧ 1 ≤ (graphExtents rows).2
  ∧ Forall (λ e, Bucket.solvedContest e.2 + Bucket.solvedPractice e.2
                 ≤ (graphExtents rows).1
                 ∧ Bucket.failedContest e.2 + Bucket.unsolved e.2
                   ≤ (graphExtents rows).2) rows.
Proof.
  unfold graphExtents.
  destruct (extentFold_bounds rows (0, 0)) as (H1 & H2 & Hall).
  cbn [fst snd] in *.
  destruct (Z.eqb_spec (fold_left extentStep rows (0, 0)).1 0) as [Hz1|Hz1],
    (Z.eqb_spec (fold_left extentStep rows (0, 0)).2 0) as [Hz2|Hz2];
    (split_and!; [lia | lia |]);
    (eapply Forall_impl; [exact Hall|]); cbn beta; intros e [? ?]; lia.
Qed.

Section DrillRows.
Context {F : Type} `{Float64 F}.
Implicit Types (subs : list Submission) (ps : list Problem) (t key : string).

Lemma buildIntersectionBuckets_NoDup (tags : list string) (agg : Agg.t F) :
  NoDup (JsMap.keys (buildIntersectionBuckets tags agg)).
Proof.
  unfold buildIntersectionBuckets.
  destruct (intersectLoop _ tags None) as [inter|]; [|apply NoDup_nil_2].
  destruct (length inter =? 0)%nat; [apply NoDup_nil_2|].
  rewrite interFold_tagDiffMap. apply tagDiffMap_NoDup.
Qed.

Lemma rebuild_numeric (diffMap : list (Z * Bucket.t)) :
  Forall (λ e, is_Some e.1) (rebuildDiffMapFromSnapshot (bucketObjOf diffMap))
  ∧ NoDup (JsMap.keys (rebuildDiffMapFromSnapshot (bucketObjOf diffMap))).
Proof.
  unfold rebuildDiffMapFromSnapshot. split.
  - apply (foldSet_Forall (λ e : option Z * Bucket.t, is_Some e.1)
             (λ e, bucketKeyOf e.1)); [apply Forall_nil_2|].
    apply Forall_forall. intros [s b] Hin. simpl.
    apply elem_of_map_to_list in Hin.
    destruct (bucketObjOf_keys diffMap s) as [r ->]; [by rewrite Hin|].
    by rewrite bucketKeyOf_toString.
  - apply (foldSet_NoDup_keys (λ e, bucketKeyOf e.1)). apply NoDup_nil_2.
Qed.

(** X30. Whatever shows a drill-down of a fresh snapshot (the table or the
    graph) works on rows that hold the buckets of the selection, each
    once, in strictly ascending order of rating, all ratings being
    numbers; and the two extents of the graph are at least 1 and bound
    the solved and the unsolved count of every row. *)
Theorem drill_rows_ascending (now handle : string) subs ps (tags : list string) :
  let snap := fetchAndBuildSnapshot (F:=F) now handle subs ps in
  let agg := rehydrate snap in
  match selectionDiffMap tags agg snap with
  | None => True
  | Some diffMap =>
      let rows := orderedEntries diffMap in
      rows ≡ₚ diffMap
      ∧ (∃ ratings, map fst rows = map Some ratings ∧ StronglySorted Z.lt ratings)
      ∧ 1 ≤ (graphExtents rows).1 ∧ 1 ≤ (graphExtents rows).2
      ∧ Forall (λ e, Bucket.solvedContest e.2 + Bucket.solvedPractice e.2
                     ≤ (graphExtents rows).1
                     ∧ Bucket.failedContest e.2 + Bucket.unsolved e.2
                       ≤ (graphExtents rows).2) rows
  end.
Proof.
  cbv zeta.
  destruct (selectionDiffMap tags _ _) as [diffMap|] eqn:Hsel; [|done].
  assert (Hnum : ∃ dmZ : list (Z * Bucket.t),
             diffMap = map (λ e, (Some e.1, e.2)) dmZ ∧ NoDup (JsMap.keys dmZ)).
  { assert (Hkeys : Forall (λ e, is_Some e.1) diffMap ∧ NoDup (JsMap.keys diffMap)).
    { unfold selectionDiffMap in Hsel. destruct tags as [|t [|t' tags]]; [done| |].
      - pose proof (snapshot_tags_lookup now handle subs ps
                      (freshAggregate (F:=F) subs ps) t
                      (freshAggregate_tags_NoDup subs ps)) as Hlookup.
        unfold fetchAndBuildSnapshot in Hsel.
        destruct (Snapshot.tags _ !! t) as [tagObj|]; [|done].
        cbn [fmap option_fmap option_map] in Hlookup.
        case_bool_decide; [|done]. injection Hlookup as Hobj.
        injection Hsel as <-. rewrite Hobj. apply rebuild_numeric.
      - injection Hsel as <-. split.
        + apply Forall_forall. intros e He.
          apply list_elem_of_fmap in He as (e' & -> & _). by eexists.
        + unfold JsMap.keys. rewrite map_map. simpl.
          rewrite <- (map_map fst Some).
          apply (NoDup_fmap_2 Some). apply buildIntersectionBuckets_NoDup. }
    destruct Hkeys as [Hsome Hnd]. destruct (numeric_keys diffMap Hsome) as [dmZ ->].
    exists dmZ. split; [done|]. unfold JsMap.keys in *.
    rewrite map_map in Hnd. simpl in Hnd. rewrite <- (map_map fst Some) in Hnd.
    by apply (NoDup_fmap_1 Some) in Hnd. }
  destruct Hnum as (dmZ & -> & Hnd).
  split_and!; [apply js_sort_perm | | apply graphExtents_bounds..].
  unfold orderedEntries.
  rewrite (js_sort_map _ (λ e : Z * Bucket.t, (Some e.1, e.2))). simpl.
  exists (map fst (js_sort (λ a b : Z * Bucket.t, a.1 - b.1) dmZ)). split.
  - by rewrite !map_map.
  - apply StronglySorted_le_lt.
    + apply StronglySorted_map with (R := Z.le).
      apply js_sort_StronglySorted; intros; lia.
    + eapply NoDup_Permutation_proper; [|exact Hnd].
      unfold JsMap.keys. apply fmap_Permutation, js_sort_perm.
Qed.

End DrillRows.
